(** * The [state-machine-union-return] lint rule

    A shallow embedding of [src/eslint-plugin-state-machine/index.ts]: the
    rule that looks for [new StateMachine({config, commands})], reads the
    declared target states of every message out of [config], walks the
    [execute] thunk of every command factory and reports the factories
    that return fewer states than declared.

    The syntax tree is the ESTree of the TypeScript parser, with the node
    kinds that such declarations are written in.  JavaScript [Map]s are
    finite maps,
    the [Set] of returned state ids is an insertion-ordered list without
    duplicates (its order shows in the report), the [WeakSet] of visited
    nodes is a finite set of object identities, and [context.report] is
    modelled by returning the list of reports in emission order.

    The functions that scan a command factory are modelled a second time
    on what they are given at run time, a graph of JavaScript objects,
    where a member access can throw and a chain of references can come
    back to its start; on the graph of a tree the two models agree. *)

From Stdlib Require Import String List.
From stdpp Require Import base strings gmap list pretty relations.

(** ** Syntax trees *)

Module ESTree.

(** The [value] of a [Literal] node; the rule only asks whether
    [typeof value === 'string']. *)
Inductive literal_value :=
| LString (s : string)
| LNumber (n : Z)
| LBoolean (b : bool)
| LNull.

(** The induction principle of [node] below goes through the lists and
    options of children; these are the predicates it uses for them. *)
Scheme All for list.
Scheme All for option.

(** Every node carries its object identity [oid]: the rule keeps a
    [WeakSet] of the objects it has visited, and two occurrences of the
    same object in a tree (a shared subtree) have the same identity.
    The kinds are those the rule tests [node.type] for, and those that
    carry one of the fields the walk follows ([body], [consequent],
    [alternate], [argument], [cases]), with [WhileStatement] for the
    loops and [UnaryExpression], [AwaitExpression] and [ThrowStatement]
    for the kinds with an [argument].  [OtherNode] stands for every kind
    that has none of these fields (variable declarations, binary
    expressions, [try] statements, patterns, template literals, ...).
    A hole of an array literal is [None]; so is an absent [argument],
    [alternate] or [test]. *)
Inductive node :=
| Identifier (oid : nat) (name : string)
| Literal (oid : nat) (value : literal_value)
| MemberExpression (oid : nat) (object property : node) (computed : bool)
| ObjectExpression (oid : nat) (properties : list node)
| Property (oid : nat) (key value : node) (computed : bool)
| SpreadElement (oid : nat) (argument : node)
| ArrayExpression (oid : nat) (elements : list (option node))
| ArrowFunctionExpression (oid : nat) (params : list node) (body : node)
| FunctionExpression (oid : nat) (params : list node) (body : node)
| CallExpression (oid : nat) (callee : node) (arguments : list node)
| NewExpression (oid : nat) (callee : node) (arguments : list node)
| ConditionalExpression (oid : nat) (test consequent alternate : node)
| UnaryExpression (oid : nat) (operator : string) (argument : node)
| AwaitExpression (oid : nat) (argument : node)
| BlockStatement (oid : nat) (body : list node)
| ExpressionStatement (oid : nat) (expression : node)
| ReturnStatement (oid : nat) (argument : option node)
| IfStatement (oid : nat) (test consequent : node) (alternate : option node)
| SwitchStatement (oid : nat) (discriminant : node) (cases : list node)
| SwitchCase (oid : nat) (test : option node) (consequent : list node)
| WhileStatement (oid : nat) (test body : node)
| ThrowStatement (oid : nat) (argument : node)
| OtherNode (oid : nat) (type : string) (children : list node).

Definition identity (n : node) : nat :=
  match n with
  | Identifier i _ | Literal i _ | MemberExpression i _ _ _
  | ObjectExpression i _ | Property i _ _ _ | SpreadElement i _
  | ArrayExpression i _ | ArrowFunctionExpression i _ _
  | FunctionExpression i _ _ | CallExpression i _ _ | NewExpression i _ _
  | ConditionalExpression i _ _ _ | UnaryExpression i _ _
  | AwaitExpression i _ | BlockStatement i _ | ExpressionStatement i _
  | ReturnStatement i _ | IfStatement i _ _ _ | SwitchStatement i _ _
  | SwitchCase i _ _ | WhileStatement i _ _ | ThrowStatement i _
  | OtherNode i _ _ => i
  end.

(** The nodes held directly in the fields of a node. *)
Definition children (n : node) : list node :=
  match n with
  | Identifier _ _ | Literal _ _ => []
  | MemberExpression _ o p _ => [o; p]
  | ObjectExpression _ ps => ps
  | Property _ k v _ => [k; v]
  | SpreadElement _ a | UnaryExpression _ _ a | AwaitExpression _ a
  | ThrowStatement _ a | ExpressionStatement _ a => [a]
  | ArrayExpression _ es => omap (λ e, e) es
  | ArrowFunctionExpression _ ps b | FunctionExpression _ ps b => ps ++ [b]
  | CallExpression _ c args | NewExpression _ c args => c :: args
  | ConditionalExpression _ t c a => [t; c; a]
  | BlockStatement _ b => b
  | ReturnStatement _ a => option_list a
  | IfStatement _ t c a => t :: c :: option_list a
  | SwitchStatement _ d cs => d :: cs
  | SwitchCase _ t cs => option_list t ++ cs
  | WhileStatement _ t b => [t; b]
  | OtherNode _ _ cs => cs
  end.

End ESTree.

Import ESTree.

(** ** The rule *)

(** [for (const x of xs) { if (...) return ...; }]: the result of the
    first iteration that returns. *)
Fixpoint first_return {A B} (f : A → option B) (xs : list A) : option B :=
  match xs with
  | [] => None
  | x :: xs' =>
      match f x with
      | Some y => Some y
      | None => first_return f xs'
      end
  end.

(** [Set.prototype.add]: a [Set] keeps its elements in insertion order. *)
Definition set_add (s : string) (ids : list string) : list string :=
  if decide (s ∈ ids) then ids else ids ++ [s].

(** [node.type === 'FunctionExpression' || node.type === 'ArrowFunctionExpression'] *)
Definition isFunctionLike (n : node) : bool :=
  match n with
  | FunctionExpression _ _ _ | ArrowFunctionExpression _ _ _ => true
  | _ => false
  end.

Inductive messageId := missingUnionReturn | alwaysSameState.

(** One call of [context.report]: the anchor node, the message id and
    the [data] of the message template. *)
Record report := Report {
  report_node : node;
  report_messageId : messageId;
  data_message : string;
  data_count : string;
  data_states : string;
  data_actualState : string
}.

(** *** [extractStateIdFromExpression] *)

Definition extractStateIdFromExpression (expression : node) : option string :=
  match expression with
  | ObjectExpression _ properties =>
      first_return (λ prop,
        match prop with
        | Property _ (Identifier _ name) (Literal _ (LString value)) _ =>
            if decide (name = "id") then Some value else None
        | _ => None
        end) properties
  | _ => None
  end.

(** *** [findReturnedStateIds] *)

(** The state of the walk: the [visited] objects and the [stateIds]
    found so far. *)
Record walk := Walk {
  visited : gset nat;
  stateIds : list string
}.

(** [const stateId = extractStateIdFromExpression(e); if (stateId)
    stateIds.add(stateId)]: the empty string is falsy and is not added. *)
Definition addStateId (e : node) (w : walk) : walk :=
  match extractStateIdFromExpression e with
  | Some stateId =>
      if decide (stateId = EmptyString) then w
      else Walk (visited w) (set_add stateId (stateIds w))
  | None => w
  end.

Definition isBlockStatement (n : node) : bool :=
  match n with BlockStatement _ _ => true | _ => false end.

(** The inner function [visit].  Each stage of the function is a
    transformation of the walk chosen by the shape of the node: the two
    tests on [node.type], then the tests ['body' in node], ['consequent'
    in node], ['alternate' in node], ['argument' in node] and ['cases' in
    node], in this order.  An array reached through a field other than
    [body] (the [consequent] of a [SwitchCase]) is an object without
    [type], [body], [consequent], [alternate], [argument] or [cases]: the
    call marks the array as visited and returns, which leaves the walk
    as it is, since an array shares its identity with no node. *)
Fixpoint visit (n : node) (w : walk) : walk :=
  if decide (identity n ∈ visited w) then w else
  let w := Walk ({[identity n]} ∪ visited w) (stateIds w) in
  (* arrow function with implicit return *)
  let w :=
    match n with
    | ArrowFunctionExpression _ _ body =>
        if isBlockStatement body then id else addStateId body
    | _ => id
    end w in
  (* explicit return statement *)
  let w :=
    match n with
    | ReturnStatement _ (Some argument) => addStateId argument
    | _ => id
    end w in
  (* 'body' in node *)
  let w :=
    match n with
    | BlockStatement _ body => fold_left (λ w stmt, visit stmt w) body
    | ArrowFunctionExpression _ _ body | FunctionExpression _ _ body
    | WhileStatement _ _ body => visit body
    | _ => id
    end w in
  (* 'consequent' in node *)
  let w :=
    match n with
    | ConditionalExpression _ _ consequent _
    | IfStatement _ _ consequent _ => visit consequent
    | SwitchCase _ _ consequent => id
    | _ => id
    end w in
  (* 'alternate' in node *)
  let w :=
    match n with
    | ConditionalExpression _ _ _ alternate
    | IfStatement _ _ _ (Some alternate) => visit alternate
    | _ => id
    end w in
  (* 'argument' in node *)
  let w :=
    match n with
    | SpreadElement _ argument | UnaryExpression _ _ argument
    | AwaitExpression _ argument | ThrowStatement _ argument
    | ReturnStatement _ (Some argument) => visit argument
    | _ => id
    end w in
  (* 'cases' in node *)
  match n with
  | SwitchStatement _ _ cases => fold_left (λ w c, visit c w) cases
  | _ => id
  end w.

Definition findReturnedStateIds (funcNode : node) : list string :=
  stateIds (visit funcNode (Walk ∅ [])).

(** *** [getExecuteFromObject] and [findExecuteMethod] *)

Definition getExecuteFromObject (objNode : node) : option node :=
  match objNode with
  | ObjectExpression _ properties =>
      first_return (λ prop,
        match prop with
        | Property _ (Identifier _ name) value _ =>
            if decide (name = "execute") then
              if isFunctionLike value then Some value else None
            else None
        | _ => None
        end) properties
  | _ => None
  end.

(** The loop over the statements of a block body: the first
    [return <object literal>] decides, whether or not the object has an
    [execute]. *)
Definition returnedObject (stmts : list node) : option node :=
  first_return (λ stmt,
    match stmt with
    | ReturnStatement _ (Some (ObjectExpression _ _ as argument)) =>
        Some argument
    | _ => None
    end) stmts.

Definition findExecuteMethod (n : node) : option node :=
  match n with
  | ArrowFunctionExpression _ _ body =>
      match body with
      | ObjectExpression _ _ => getExecuteFromObject body
      | BlockStatement _ stmts =>
          match returnedObject stmts with
          | Some argument => getExecuteFromObject argument
          | None => None
          end
      | _ => None
      end
  | FunctionExpression _ _ body =>
      match body with
      | BlockStatement _ stmts =>
          match returnedObject stmts with
          | Some argument => getExecuteFromObject argument
          | None => None
          end
      | _ => None
      end
  | _ => None
  end.

(** *** [analyzeCommandFactory] *)

(** [Array.prototype.join(', ')] *)
Definition join (l : list string) : string := String.concat ", " l.

Definition analyzeCommandFactory (factoryNode : node) (messageName : string)
    (targetStates : list string) : list report :=
  match findExecuteMethod factoryNode with
  | None => []
  | Some executeFunc =>
      let returnedStateIds := findReturnedStateIds executeFunc in
      let size := length returnedStateIds in
      if decide (size = 1) then
        [Report executeFunc alwaysSameState messageName
           (pretty (length targetStates)) (join targetStates)
           (default EmptyString (head returnedStateIds))]
      else if decide (0 < size ∧ size < length targetStates) then
        [Report executeFunc missingUnionReturn messageName
           (pretty (length targetStates)) (join targetStates)
           (join returnedStateIds)]
      else []
  end.

(** *** [parseStateMachineConfig] *)

(** The inner loop over the elements of a message's array: string
    literals are pushed, holes and every other element are passed over.
    A value that is not an array leaves [targetStates] empty. *)
Definition targetStatesOf (value : node) : list string :=
  match value with
  | ArrayExpression _ elements =>
      fold_left (λ targetStates elem,
        match elem with
        | Some (Literal _ (LString s)) => targetStates ++ [s]
        | _ => targetStates
        end) elements []
  | _ => []
  end.

(** The body of the loop over the properties of an [on] object. *)
Definition recordMessage (messageMap : gmap string (list string))
    (msgProp : node) : gmap string (list string) :=
  match msgProp with
  | Property _ (Identifier _ messageName) value _ =>
      let targetStates := targetStatesOf value in
      if decide (0 < length targetStates)
      then <[messageName := targetStates]> messageMap
      else messageMap
  | _ => messageMap
  end.

Definition messageMapOf (properties : list node) : gmap string (list string) :=
  fold_left recordMessage properties ∅.

(** The callback of [stateConfig.properties.find]. *)
Definition isOnProperty (p : node) : bool :=
  match p with
  | Property _ (Identifier _ name) _ _ => bool_decide (name = "on")
  | _ => false
  end.

(** The body of the loop over the properties of [config]. *)
Definition recordState (transitions : gmap string (gmap string (list string)))
    (stateProp : node) : gmap string (gmap string (list string)) :=
  match stateProp with
  | Property _ (Identifier _ stateName) (ObjectExpression _ stateProps) _ =>
      match find isOnProperty stateProps with
      | Some (Property _ _ (ObjectExpression _ msgProps) _) =>
          <[stateName := messageMapOf msgProps]> transitions
      | _ => transitions
      end
  | _ => transitions
  end.

Definition parseStateMachineConfig (configNode : node)
    : gmap string (gmap string (list string)) :=
  match configNode with
  | ObjectExpression _ properties => fold_left recordState properties ∅
  | _ => ∅
  end.

(** *** [checkCommands] *)

(** The body of the inner loop, for one property of a state's commands. *)
Definition checkMessage (messageMap : gmap string (list string))
    (msgProp : node) : list report :=
  match msgProp with
  | Property _ (Identifier _ messageName) commandFactory _ =>
      match messageMap !! messageName with
      | Some targetStates =>
          if decide (length targetStates ≤ 1) then []
          else analyzeCommandFactory commandFactory messageName targetStates
      | None => []
      end
  | _ => []
  end.

(** The body of the outer loop, for one property of [commands]. *)
Definition checkState (transitions : gmap string (gmap string (list string)))
    (stateProp : node) : list report :=
  match stateProp with
  | Property _ (Identifier _ stateName) (ObjectExpression _ msgProps) _ =>
      match transitions !! stateName with
      | Some messageMap => flat_map (checkMessage messageMap) msgProps
      | None => []
      end
  | _ => []
  end.

Definition checkCommands (commandsNode : node)
    (transitions : gmap string (gmap string (list string))) : list report :=
  match commandsNode with
  | ObjectExpression _ properties => flat_map (checkState transitions) properties
  | _ => []
  end.

(** *** The [NewExpression] listener of [create] *)

Definition isStateMachine (callee : node) : bool :=
  match callee with
  | Identifier _ name => bool_decide (name = "StateMachine")
  | MemberExpression _ _ (Identifier _ name) _ =>
      bool_decide (name = "StateMachine")
  | _ => false
  end.

(** The loop over the properties of the constructor argument keeps the
    last [config] and the last [commands] whose value is an object
    literal; this is its body. *)
Definition recordSiteProperty (found : option node * option node)
    (prop : node) : option node * option node :=
  match prop with
  | Property _ (Identifier _ name) (ObjectExpression _ _ as value) _ =>
      (if decide (name = "config") then Some value else found.1,
       if decide (name = "commands") then Some value else found.2)
  | _ => found
  end.

Definition configAndCommands (properties : list node)
    : option node * option node :=
  fold_left recordSiteProperty properties (None, None).

(** The first half of the listener: the [config] and [commands] objects
    handed to the analysis, or [None] where the listener returns early. *)
Definition locate (n : node) : option (node * node) :=
  match n with
  | NewExpression _ callee arguments =>
      if isStateMachine callee then
        match arguments with
        | ObjectExpression _ properties :: _ =>
            match configAndCommands properties with
            | (Some configProp, Some commandsProp) =>
                Some (configProp, commandsProp)
            | _ => None
            end
        | _ => None
        end
      else None
  | _ => None
  end.

Definition create_NewExpression (n : node) : list report :=
  match locate n with
  | Some (configProp, commandsProp) =>
      checkCommands commandsProp (parseStateMachineConfig configProp)
  | None => []
  end.

(** ** Vocabulary of the statements *)

(** The name under which the rule files a member of an object literal:
    the test [prop.type === 'Property' && prop.key.type === 'Identifier']
    followed by [prop.key.name], as every loop of the rule writes it. *)
Definition keyName (prop : node) : option string :=
  match prop with
  | Property _ (Identifier _ name) _ _ => Some name
  | _ => None
  end.

(** [entry name value prop]: [prop] is the member [name: value]. *)
Definition entry (name : string) (value prop : node) : Prop :=
  ∃ i j c, prop = Property i (Identifier j name) value c.

(** [soleEntry name value properties]: the object literal has the member
    [name: value] and no other member filed under [name]. *)
Definition soleEntry (name : string) (value : node) (properties : list node)
    : Prop :=
  ∃ before prop after,
    properties = before ++ prop :: after ∧ entry name value prop ∧
    Forall (λ q, keyName q ≠ Some name) (before ++ after).

(** The subsequence of the elements of an array literal that are plain
    string literals, in their order and with their repetitions. *)
Definition stringLiteral (elem : option node) : option string :=
  match elem with
  | Some (Literal _ (LString s)) => Some s
  | _ => None
  end.

Definition literalSubsequence (elements : list (option node)) : list string :=
  omap stringLiteral elements.

(** The return value a node holds: the body of an arrow function with an
    implicit return, or the argument of a [return] statement. *)
Definition returnValue (n : node) : option node :=
  match n with
  | ArrowFunctionExpression _ _ body =>
      if isBlockStatement body then None else Some body
  | ReturnStatement _ argument => argument
  | _ => None
  end.

(** The nodes [visit] calls itself on, in the order of its field tests
    [body], [consequent], [alternate], [argument], [cases]. *)
Definition followed (n : node) : list node :=
  match n with
  | BlockStatement _ body => body
  | ArrowFunctionExpression _ _ body | FunctionExpression _ _ body
  | WhileStatement _ _ body => [body]
  | ConditionalExpression _ _ consequent alternate => [consequent; alternate]
  | IfStatement _ _ consequent alternate => consequent :: option_list alternate
  | SpreadElement _ argument | UnaryExpression _ _ argument
  | AwaitExpression _ argument | ThrowStatement _ argument => [argument]
  | ReturnStatement _ argument => option_list argument
  | SwitchStatement _ _ cases => cases
  | _ => []
  end.

(** [descendant n d]: [d] is [n] or lies below it, through any field. *)
Definition descendant : node → node → Prop :=
  rtc (λ n c, c ∈ children n).

(** A member of an object literal is an [undo] member when it is filed
    under the name [undo]. *)
Definition isUndo (prop : node) : bool :=
  bool_decide (keyName prop = Some "undo").

Definition withoutUndo (objNode : node) : node :=
  match objNode with
  | ObjectExpression i properties =>
      ObjectExpression i (filter (λ p, isUndo p = false) properties)
  | _ => objNode
  end.

Definition withoutUndoStatement (stmt : node) : node :=
  match stmt with
  | ReturnStatement i (Some argument) =>
      ReturnStatement i (Some (withoutUndo argument))
  | _ => stmt
  end.

(** The factory with the [undo] members of the structures it returns
    taken out; two factories that differ only in these members have the
    same image. *)
Definition eraseUndo (factoryNode : node) : node :=
  match factoryNode with
  | ArrowFunctionExpression i params (ObjectExpression _ _ as body) =>
      ArrowFunctionExpression i params (withoutUndo body)
  | ArrowFunctionExpression i params (BlockStatement j stmts) =>
      ArrowFunctionExpression i params
        (BlockStatement j (withoutUndoStatement <$> stmts))
  | FunctionExpression i params (BlockStatement j stmts) =>
      FunctionExpression i params
        (BlockStatement j (withoutUndoStatement <$> stmts))
  | _ => factoryNode
  end.

(** A member whose key node is an identifier, whatever its [computed]
    flag; and the same member written without brackets. *)
Definition identifierKeyed (prop : node) : bool :=
  bool_decide (is_Some (keyName prop)).

Definition uncomputed (prop : node) : node :=
  match prop with
  | Property i key value _ => Property i key value false
  | _ => prop
  end.

(** The callee of a construction names the state machine: the
    identifier [StateMachine], or a member expression whose property node
    is that identifier. *)
Definition recognisedName (callee : node) : Prop :=
  (∃ i, callee = Identifier i "StateMachine") ∨
  (∃ i object j c,
     callee = MemberExpression i object (Identifier j "StateMachine") c).

(** An object literal as its loops see it: the members with an
    identifier key, written without brackets. *)
Definition plainMembers (properties : list node) : list node :=
  uncomputed <$> filter (λ p, identifierKeyed p = true) properties.

(** ** Sample programs *)

Module Samples.

(** [name: value] *)
Definition member (i : nat) (name : string) (value : node) : node :=
  Property i (Identifier (S i) name) value false.

(** ['s'] as an expression *)
Definition str (i : nat) (s : string) : node := Literal i (LString s).

(** [{ id: 's' }] *)
Definition idObject (i : nat) (s : string) : node :=
  ObjectExpression i [member (i + 1) "id" (str (i + 3) s)].

(** [return { id: 's' };] *)
Definition returns (i : nat) (s : string) : node :=
  ReturnStatement i (Some (idObject (i + 1) s)).

(** [() => ({ execute: exec })] *)
Definition factory (exec : node) : node :=
  ArrowFunctionExpression 100 []
    (ObjectExpression 101 [member 102 "execute" exec]).

(** [() => ({ execute: exec, undo: () => {} })] *)
Definition factoryWithUndo (exec : node) : node :=
  ArrowFunctionExpression 100 []
    (ObjectExpression 101
       [member 102 "execute" exec;
        member 104 "undo" (ArrowFunctionExpression 106 [] (BlockStatement 107 []))]).

(** [() => ({ id: 'active' })] *)
Definition alwaysActive : node :=
  ArrowFunctionExpression 1 [] (idObject 2 "active").

(** [() => { if (ok) return { id: 'a' }; else { return { id: 'b' }; } }] *)
Definition ifThunk : node :=
  ArrowFunctionExpression 1 []
    (BlockStatement 2
       [IfStatement 3 (Identifier 4 "ok") (returns 10 "a")
          (Some (BlockStatement 5 [returns 20 "b"]))]).

(** [() => { switch (kind) { case 1: return { id: 'a' };
                             default: return { id: 'b' }; } }] *)
Definition switchThunk : node :=
  ArrowFunctionExpression 1 []
    (BlockStatement 2
       [SwitchStatement 3 (Identifier 4 "kind")
          [SwitchCase 5 (Some (Literal 6 (LNumber 1))) [returns 10 "a"];
           SwitchCase 7 None [returns 20 "b"]]]).

(** [{ go: ['a', 'b', 'c'] }] as the message map of a state *)
Definition threeTargets : gmap string (list string) :=
  {[ "go" := ["a"; "b"; "c"] ]}.

(** [{ go: ['a', 'b'] }] *)
Definition twoTargets : gmap string (list string) :=
  {[ "go" := ["a"; "b"] ]}.

(** [{ activate: ['active', 'idle'] }] *)
Definition activateTargets : gmap string (list string) :=
  {[ "activate" := ["active"; "idle"] ]}.

(** [{ go: ['x', 'y'] }] *)
Definition otherTargets : gmap string (list string) :=
  {[ "go" := ["x"; "y"] ]}.

(** [['a', next, 'a', 'b']]: a referenced element among literals *)
Definition mixedArray : node :=
  ArrayExpression 30
    [Some (str 31 "a"); Some (Identifier 32 "next"); Some (str 33 "a");
     Some (str 34 "b")].

(** [{ idle: { on: { go: ['a', next, 'a', 'b'] } } }], from the inside *)
Definition mixedMessages : list node := [member 16 "go" mixedArray].

Definition mixedOn : node := member 13 "on" (ObjectExpression 15 mixedMessages).

Definition mixedConfig : list node :=
  [member 10 "idle" (ObjectExpression 12 [mixedOn])].

(** [{ idle: { on: { go: ['a', next] } } }]: one literal is retained *)
Definition oneLiteralConfig : node :=
  ObjectExpression 9
    [member 10 "idle"
       (ObjectExpression 12
          [member 13 "on"
             (ObjectExpression 15
                [member 16 "go"
                   (ArrayExpression 18
                      [Some (str 19 "a"); Some (Identifier 20 "next")])])])].

(** [{ [idle]: { on: { go: ['a', 'b'] } } }]: a computed key *)
Definition computedKeyConfig : node :=
  ObjectExpression 9
    [Property 10 (Identifier 11 "idle")
       (ObjectExpression 12
          [member 13 "on"
             (ObjectExpression 15
                [member 16 "go"
                   (ArrayExpression 18 [Some (str 19 "a"); Some (str 20 "b")])])])
       true].

(** [{ 'idle': { on: { go: ['a', 'b'] } } }]: a quoted key *)
Definition quotedKeyConfig : node :=
  ObjectExpression 9
    [Property 10 (str 11 "idle")
       (ObjectExpression 12
          [member 13 "on"
             (ObjectExpression 15
                [member 16 "go"
                   (ArrayExpression 18 [Some (str 19 "a"); Some (str 20 "b")])])])
       false].

(** [() => { <stmt> <stmt> }] with the one statement object
    [return { id: 'a' };] in both places: a shared subtree. *)
Definition sharedThunk : node :=
  ArrowFunctionExpression 1 [] (BlockStatement 2 [returns 3 "a"; returns 3 "a"]).

(** [{ go: ['a', 'a', 'b'] }]: a target declared twice *)
Definition repeatedTargets : gmap string (list string) :=
  {[ "go" := ["a"; "a"; "b"] ]}.

(** [new StateMachine({ config, commands })] *)
Definition machine (config commands : node) : node :=
  NewExpression 200 (Identifier 201 "StateMachine")
    [ObjectExpression 202
       [member 203 "config" config; member 205 "commands" commands]].

(** [{ state: { on: { message: [targets] } } }] *)
Definition declares (state message : string) (targets : list string) : node :=
  ObjectExpression 9
    [member 10 state
       (ObjectExpression 12
          [member 13 "on"
             (ObjectExpression 15
                [member 16 message
                   (ArrayExpression 18
                      (imap (λ k s, Some (str (19 + k) s)) targets))])])].

(** [{ state: { message: factoryNode } }] *)
Definition implements (state message : string) (factoryNode : node) : node :=
  ObjectExpression 207
    [member 208 state (ObjectExpression 210 [member 211 message factoryNode])].

(** [() => { if (message.timestamp <= 0) { return { id: 'idle' }; }
             return { id: 'active' }; }] *)
Definition guardedThunk : node :=
  ArrowFunctionExpression 1 []
    (BlockStatement 2
       [IfStatement 3 (OtherNode 4 "BinaryExpression" [])
          (BlockStatement 5 [returns 10 "idle"]) None;
        returns 20 "active"]).

(** [new StateMachine({ config: { [idle]: { on: { go: ['a', 'b'] } } },
      commands: { [idle]: { [go]: () => ({ execute: () => ({ id: 'active' }) }) } } })] *)
Definition computedKeySite : node :=
  NewExpression 200 (Identifier 201 "StateMachine")
    [ObjectExpression 202
       [member 203 "config" computedKeyConfig;
        member 205 "commands"
          (ObjectExpression 207
             [Property 208 (Identifier 209 "idle")
                (ObjectExpression 210
                   [Property 211 (Identifier 212 "go") (factory alwaysActive) true])
                true])]].

(** [new StateMachine({ config: {}, commands: {} }, 42)] *)
Definition twoArguments : list node :=
  [ObjectExpression 3
     [member 4 "config" (ObjectExpression 6 []);
      member 7 "commands" (ObjectExpression 9 [])];
   Literal 10 (LNumber 42)].

Definition twoArgumentSite : node :=
  NewExpression 1 (Identifier 2 "StateMachine") twoArguments.

(** [new fsm.StateMachine({ config: {}, commands: {} })] *)
Definition qualifiedSite : node :=
  NewExpression 1
    (MemberExpression 2 (Identifier 11 "fsm") (Identifier 12 "StateMachine") false)
    [ObjectExpression 3
       [member 4 "config" (ObjectExpression 6 []);
        member 7 "commands" (ObjectExpression 9 [])]].

End Samples.

(** ** The walked part of a thunk *)

(** The nodes [visit] reaches from a node when no node was visited
    before, in the order of their first visit: the node, then the walked
    parts of the children it follows. *)
Fixpoint walkedNodes (n : node) : list node :=
  n ::
  match n with
  | BlockStatement _ body => flat_map walkedNodes body
  | ArrowFunctionExpression _ _ body | FunctionExpression _ _ body
  | WhileStatement _ _ body => walkedNodes body
  | ConditionalExpression _ _ consequent alternate
  | IfStatement _ _ consequent (Some alternate) =>
      walkedNodes consequent ++ walkedNodes alternate
  | IfStatement _ _ consequent None => walkedNodes consequent
  | SpreadElement _ argument | UnaryExpression _ _ argument
  | AwaitExpression _ argument | ThrowStatement _ argument
  | ReturnStatement _ (Some argument) => walkedNodes argument
  | SwitchStatement _ _ cases => flat_map walkedNodes cases
  | _ => []
  end.

(** The identifier a node adds to the set: the non-empty string literal
    [id] of the object literal it returns. *)
Definition stateIdAt (n : node) : option string :=
  match returnValue n with
  | Some e =>
      match extractStateIdFromExpression e with
      | Some stateId => if decide (stateId = EmptyString) then None else Some stateId
      | None => None
      end
  | None => None
  end.

(** The identifiers at the walked nodes, in the order of the walk, with
    their repetitions. *)
Definition returnedIds (n : node) : list string := omap stateIdAt (walkedNodes n).

(** A list of identifiers added one by one to a [Set]. *)
Definition addAll (ids : list string) (l : list string) : list string :=
  fold_left (λ ids s, set_add s ids) l ids.

(** A node is finished when its identifier is in the set and the
    children it follows are marked; the walk is settled, up to the nodes
    being visited, when every marked node of the thunk is one of them or
    is finished. *)
Definition finished (m : node) (w : walk) : Prop :=
  (∀ s, stateIdAt m = Some s → s ∈ stateIds w) ∧
  ∀ c, c ∈ followed m → identity c ∈ visited w.

Definition settled (root : node) (stack : list node) (w : walk) : Prop :=
  ∀ m, m ∈ walkedNodes root → identity m ∈ visited w →
       m ∈ stack ∨ finished m w.

(** The value a member of the constructor argument gives for [name]:
    an object literal filed under [name]. *)
Definition siteMember (name : string) (prop : node) : option node :=
  match prop with
  | Property _ (Identifier _ key) (ObjectExpression _ _ as value) _ =>
      if decide (key = name) then Some value else None
  | _ => None
  end.

(** A statement [return { ... };]. *)
Definition isObjectReturn (stmt : node) : bool :=
  match stmt with
  | ReturnStatement _ (Some (ObjectExpression _ _)) => true
  | _ => false
  end.

(** A member [id: '...'] with a string literal; a member [execute: f]
    with a function. *)
Definition isLiteralId (prop : node) : bool :=
  match prop with
  | Property _ (Identifier _ name) (Literal _ (LString _)) _ =>
      bool_decide (name = "id")
  | _ => false
  end.

Definition isExecuteFunction (prop : node) : bool :=
  match prop with
  | Property _ (Identifier _ name) value _ =>
      bool_decide (name = "execute") && isFunctionLike value
  | _ => false
  end.

(** What a member of an [on] object declares for a message: the string
    literals of its array, when the member is filed under the message and
    retains one at least. *)
Definition declaredBy (messageName : string) (msgProp : node)
    : option (list string) :=
  match msgProp with
  | Property _ (Identifier _ name) value _ =>
      if decide (name = messageName ∧ targetStatesOf value ≠ [])
      then Some (targetStatesOf value) else None
  | _ => None
  end.

(** What a member of the config declares for a state: the message map of
    its first [on] member, when the member is filed under the state and
    is an object literal whose first [on] is one too. *)
Definition stateDeclaredBy (stateName : string) (stateProp : node)
    : option (gmap string (list string)) :=
  match stateProp with
  | Property _ (Identifier _ name) (ObjectExpression _ stateProps) _ =>
      if decide (name = stateName) then
        match find isOnProperty stateProps with
        | Some (Property _ _ (ObjectExpression _ msgProps) _) =>
            Some (messageMapOf msgProps)
        | _ => None
        end
      else None
  | _ => None
  end.

(** ** The scanner at run time

    [findReturnedStateIds], [extractStateIdFromExpression],
    [findExecuteMethod] and [getExecuteFromObject] are typed for syntax
    trees, but what they do is decided at run time: [visit] asks whether
    its argument is an object and whether it has the fields it follows,
    a member access on [undefined] or [null] throws a [TypeError], a
    [for ... of] over a value that is no array and no string throws, two
    fields may hold the same object, and only the [WeakSet] of visited
    objects stops a chain of references that comes back to its start.
    This second model of the four functions keeps all of that: the input
    is a graph of objects, a result is a value, a [TypeError] or no
    result within the given number of nested calls. *)

Module Runtime.

(** A JavaScript value.  An array is given by its elements; an object is
    a reference into the graph.  A graph holds no function. *)
Inductive value :=
| Undefined
| Null
| Boolean (b : bool)
| Number (n : Z)
| Str (s : string)
| Array (elements : list value)
| Object (reference : nat).

(** The own fields of an object, and the objects of the graph by their
    reference. *)
Definition object := list (string * value).
Definition graph := gmap nat object.

Fixpoint own (name : string) (o : object) : option value :=
  match o with
  | [] => None
  | (key, v) :: o => if String.eqb key name then Some v else own name o
  end.

(** The object behind a reference. *)
Definition fields (g : graph) (reference : nat) : object :=
  match g !! reference with
  | Some o => o
  | None => []
  end.

(** ['name' in o] and [o.name] for an object [o].  The names that the
    scanner asks for ([type], [body], [consequent], [alternate],
    [argument], [cases], [properties], [key], [value], [name]) are members
    of no prototype, so only the own fields answer. *)
Definition has (name : string) (o : object) : bool :=
  bool_decide (is_Some (own name o)).

Definition get (name : string) (o : object) : value :=
  default Undefined (own name o).

(** The result of a call: a value, a [TypeError], or none within the
    fuel. *)
Inductive outcome (A : Type) :=
| Returns (a : A)
| Throws
| OutOfFuel.
Arguments Returns {A} a.
Arguments Throws {A}.
Arguments OutOfFuel {A}.

#[global] Instance outcome_ret : MRet outcome := λ A a, Returns a.
#[global] Instance outcome_bind : MBind outcome := λ A B f m,
  match m with
  | Returns a => f a
  | Throws => Throws
  | OutOfFuel => OutOfFuel
  end.

(** [v.name]: a [TypeError] on [undefined] and [null], the field of an
    object, and [undefined] on an array and on a primitive value, which
    have no member of these names. *)
Definition member (g : graph) (v : value) (name : string) : outcome value :=
  match v with
  | Undefined | Null => Throws
  | Object reference => Returns (get name (fields g reference))
  | Boolean _ | Number _ | Str _ | Array _ => Returns Undefined
  end.

(** [v === 'text'] *)
Definition isText (v : value) (text : string) : bool :=
  match v with
  | Str s => String.eqb s text
  | _ => false
  end.

(** The value in a condition. *)
Definition truthy (v : value) : bool :=
  match v with
  | Undefined | Null => false
  | Boolean b => b
  | Number n => negb (Z.eqb n 0)
  | Str s => negb (String.eqb s EmptyString)
  | Array _ | Object _ => true
  end.

(** [for (const x of v)]: the elements of an array, the characters of a
    string, a [TypeError] on everything else. *)
Definition iterate (v : value) : outcome (list value) :=
  match v with
  | Array elements => Returns elements
  | Str s => Returns ((λ c, Str (String c EmptyString)) <$> list_ascii_of_string s)
  | Undefined | Null | Boolean _ | Number _ | Object _ => Throws
  end.

(** A loop whose body may return from the function. *)
Fixpoint first_return {A B} (f : A → outcome (option B)) (xs : list A)
    : outcome (option B) :=
  match xs with
  | [] => Returns None
  | x :: xs' =>
      r ← f x;
      match r with
      | Some y => Returns (Some y)
      | None => first_return f xs'
      end
  end.

(** [xs.forEach(f)], for an [f] that works on a state. *)
Fixpoint forEach {S} (f : value → S → outcome S) (xs : list value) (s : S)
    : outcome S :=
  match xs with
  | [] => Returns s
  | x :: xs' => s ← f x s; forEach f xs' s
  end.

(** [prop.type === 'Property' && prop.key.type === 'Identifier' &&
    prop.key.name === name] *)
Definition isMember (g : graph) (name : string) (prop : value) : outcome bool :=
  propType ← member g prop "type";
  if isText propType "Property" then
    key ← member g prop "key";
    keyType ← member g key "type";
    if isText keyType "Identifier" then
      keyName ← member g key "name";
      Returns (isText keyName name)
    else Returns false
  else Returns false.

(** [None] is the [null] or [undefined] that the function returns. *)
Definition extractStateIdFromExpression (g : graph) (expression : value)
    : outcome (option string) :=
  expressionType ← member g expression "type";
  if negb (isText expressionType "ObjectExpression") then Returns None else
  properties ← member g expression "properties";
  props ← iterate properties;
  first_return (λ prop,
    named ← isMember g "id" prop;
    if named : bool then
      propValue ← member g prop "value";
      valueType ← member g propValue "type";
      if isText valueType "Literal" then
        literal ← member g propValue "value";
        Returns (match literal with Str s => Some s | _ => None end)
      else Returns None
    else Returns None) props.

(** [const stateId = extractStateIdFromExpression(e); if (stateId)
    stateIds.add(stateId)] *)
Definition addStateId (g : graph) (e : value) (w : walk) : outcome walk :=
  stateId ← extractStateIdFromExpression g e;
  Returns
    match stateId with
    | Some stateId =>
        if decide (stateId = EmptyString) then w
        else Walk (visited w) (set_add stateId (stateIds w))
    | None => w
    end.

(** [if (node.type === 'ArrowFunctionExpression' && node.body.type !==
    'BlockStatement') ...] *)
Definition implicitReturn (g : graph) (node : object) (w : walk) : outcome walk :=
  if isText (get "type" node) "ArrowFunctionExpression" then
    bodyType ← member g (get "body" node) "type";
    if negb (isText bodyType "BlockStatement")
    then addStateId g (get "body" node) w
    else Returns w
  else Returns w.

(** [if (node.type === 'ReturnStatement' && node.argument) ...] *)
Definition explicitReturn (g : graph) (node : object) (w : walk) : outcome walk :=
  if isText (get "type" node) "ReturnStatement" && truthy (get "argument" node)
  then addStateId g (get "argument" node) w
  else Returns w.

(** [if ('type' in node) ...] *)
Definition returnSites (g : graph) (node : object) (w : walk) : outcome walk :=
  if has "type" node then
    w ← implicitReturn g node w;
    explicitReturn g node w
  else Returns w.

(** [if ('body' in node && node.body) ...] *)
Definition followBody (visit : value → walk → outcome walk) (node : object)
    (w : walk) : outcome walk :=
  if has "body" node && truthy (get "body" node) then
    match get "body" node with
    | Array elements => forEach visit elements w
    | body => visit body w
    end
  else Returns w.

(** [if (name in node && node[name]) visit(node[name])] *)
Definition follow (visit : value → walk → outcome walk) (name : string)
    (node : object) (w : walk) : outcome walk :=
  if has name node && truthy (get name node) then visit (get name node) w
  else Returns w.

(** [if ('cases' in node && node.cases) node.cases.forEach(visit)]: a
    value that is no array has no [forEach] to call. *)
Definition followCases (visit : value → walk → outcome walk) (node : object)
    (w : walk) : outcome walk :=
  if has "cases" node && truthy (get "cases" node) then
    match get "cases" node with
    | Array elements => forEach visit elements w
    | _ => Throws
    end
  else Returns w.

(** The inner function [visit]; [fuel] bounds the nesting of the calls.
    A value that is no object returns at once, and so does an object of
    the [WeakSet].  An array is an object without any of the fields that
    the function asks for: it is marked and left, which changes nothing,
    as in the model on trees. *)
Fixpoint visit (fuel : nat) (g : graph) (node : value) (w : walk) : outcome walk :=
  match node with
  | Object reference =>
      if decide (reference ∈ visited w) then Returns w else
      match fuel with
      | 0 => OutOfFuel
      | S fuel =>
          let node := fields g reference in
          let w := Walk ({[reference]} ∪ visited w) (stateIds w) in
          w ← returnSites g node w;
          w ← followBody (visit fuel g) node w;
          w ← follow (visit fuel g) "consequent" node w;
          w ← follow (visit fuel g) "alternate" node w;
          w ← follow (visit fuel g) "argument" node w;
          followCases (visit fuel g) node w
      end
  | Undefined | Null | Boolean _ | Number _ | Str _ | Array _ => Returns w
  end.

Definition findReturnedStateIds (fuel : nat) (g : graph) (funcNode : value)
    : outcome (list string) :=
  w ← visit fuel g funcNode (Walk ∅ []);
  Returns (stateIds w).

(** [prop.value], when the property is [execute] with a function. *)
Definition getExecuteFromObject (g : graph) (objNode : value)
    : outcome (option value) :=
  properties ← member g objNode "properties";
  props ← iterate properties;
  first_return (λ prop,
    named ← isMember g "execute" prop;
    if named : bool then
      propValue ← member g prop "value";
      valueType ← member g propValue "type";
      if isText valueType "FunctionExpression" || isText valueType "ArrowFunctionExpression"
      then Returns (Some propValue)
      else Returns None
    else Returns None) props.

(** The loop over the statements of a block: the argument of the first
    [return] of an object literal. *)
Definition returnedObject (g : graph) (block : value) : outcome (option value) :=
  statements ← member g block "body";
  stmts ← iterate statements;
  first_return (λ stmt,
    stmtType ← member g stmt "type";
    if isText stmtType "ReturnStatement" then
      argument ← member g stmt "argument";
      if truthy argument then
        argumentType ← member g argument "type";
        if isText argumentType "ObjectExpression" then Returns (Some argument)
        else Returns None
      else Returns None
    else Returns None) stmts.

(** [for (const stmt of block.body) ... return
    getExecuteFromObject(stmt.argument)] *)
Definition executeOfBlock (g : graph) (block : value) : outcome (option value) :=
  argument ← returnedObject g block;
  match argument with
  | Some argument => getExecuteFromObject g argument
  | None => Returns None
  end.

(** An arrow function whose loop ends without a [return] goes on to the
    test for [FunctionExpression], which fails, and to [return null]. *)
Definition findExecuteMethod (g : graph) (node : value) : outcome (option value) :=
  nodeType ← member g node "type";
  if isText nodeType "ArrowFunctionExpression" then
    body ← member g node "body";
    bodyType ← member g body "type";
    if isText bodyType "ObjectExpression" then getExecuteFromObject g body
    else if isText bodyType "BlockStatement" then executeOfBlock g body
    else Returns None
  else if isText nodeType "FunctionExpression" then
    body ← member g node "body";
    bodyType ← member g body "type";
    if isText bodyType "BlockStatement" then executeOfBlock g body
    else Returns None
  else Returns None.

(** *** Syntax trees as graphs

    What the types of the syntax tree promise about the fields that the
    scanner reads: the [body] of a function is a node, the [body] of a
    block and the [properties] of an object literal are arrays of nodes,
    the [key] and the [value] of a property are nodes, and [cases] holds
    an array wherever it holds anything. *)

(** A reference to an object of the graph. *)
Definition isNode (g : graph) (v : value) : Prop :=
  ∃ reference, v = Object reference ∧ is_Some (g !! reference).

Definition isNodes (g : graph) (v : value) : Prop :=
  ∃ elements, v = Array elements ∧ Forall (isNode g) elements.

Definition wellTyped (g : graph) (o : object) : Prop :=
  (isText (get "type" o) "ArrowFunctionExpression" ∨
   isText (get "type" o) "FunctionExpression" → isNode g (get "body" o)) ∧
  (isText (get "type" o) "BlockStatement" → isNodes g (get "body" o)) ∧
  (isText (get "type" o) "ObjectExpression" → isNodes g (get "properties" o)) ∧
  (isText (get "type" o) "Property" →
   isNode g (get "key" o) ∧ isNode g (get "value" o)) ∧
  (truthy (get "cases" o) → ∃ elements, get "cases" o = Array elements).

Definition syntaxGraph (g : graph) : Prop :=
  ∀ reference o, g !! reference = Some o → wellTyped g o.

(** The objects of the graph that the walk has not visited. *)
Definition unvisited (g : graph) (w : walk) : nat :=
  size (dom g ∖ visited w).

(** A function that returns a walk whenever fewer than [bound] objects
    are left to visit, and forgets no visited object. *)
Definition returning (g : graph) (visit : value → walk → outcome walk)
    (bound : nat) : Prop :=
  ∀ v w, unvisited g w < bound →
    ∃ w', visit v w = Returns w' ∧ visited w ⊆ visited w'.

(** *** The graph of a tree

    The objects that the parser makes for a tree of the first model:
    one object for every node, under its identity, with the fields of its
    kind. *)

Definition reference (n : node) : value := Object (identity n).

Definition references (l : list node) : value := Array (reference <$> l).

(** An absent child is [null]. *)
Definition optional (n : option node) : value :=
  match n with
  | Some n => reference n
  | None => Null
  end.

Definition literal (v : literal_value) : value :=
  match v with
  | LString s => Str s
  | LNumber n => Number n
  | LBoolean b => Boolean b
  | LNull => Null
  end.

Definition objectOf (n : node) : object :=
  match n with
  | Identifier _ name =>
      [("type", Str "Identifier"); ("name", Str name)]
  | Literal _ v =>
      [("type", Str "Literal"); ("value", literal v)]
  | MemberExpression _ o p c =>
      [("type", Str "MemberExpression"); ("object", reference o);
       ("property", reference p); ("computed", Boolean c)]
  | ObjectExpression _ ps =>
      [("type", Str "ObjectExpression"); ("properties", references ps)]
  | Property _ k v c =>
      [("type", Str "Property"); ("key", reference k); ("value", reference v);
       ("computed", Boolean c)]
  | SpreadElement _ a =>
      [("type", Str "SpreadElement"); ("argument", reference a)]
  | ArrayExpression _ es =>
      [("type", Str "ArrayExpression"); ("elements", Array (optional <$> es))]
  | ArrowFunctionExpression _ ps b =>
      [("type", Str "ArrowFunctionExpression"); ("params", references ps);
       ("body", reference b)]
  | FunctionExpression _ ps b =>
      [("type", Str "FunctionExpression"); ("params", references ps);
       ("body", reference b)]
  | CallExpression _ c args =>
      [("type", Str "CallExpression"); ("callee", reference c);
       ("arguments", references args)]
  | NewExpression _ c args =>
      [("type", Str "NewExpression"); ("callee", reference c);
       ("arguments", references args)]
  | ConditionalExpression _ t c a =>
      [("type", Str "ConditionalExpression"); ("test", reference t);
       ("consequent", reference c); ("alternate", reference a)]
  | UnaryExpression _ operator a =>
      [("type", Str "UnaryExpression"); ("operator", Str operator);
       ("argument", reference a)]
  | AwaitExpression _ a =>
      [("type", Str "AwaitExpression"); ("argument", reference a)]
  | BlockStatement _ b =>
      [("type", Str "BlockStatement"); ("body", references b)]
  | ExpressionStatement _ e =>
      [("type", Str "ExpressionStatement"); ("expression", reference e)]
  | ReturnStatement _ a =>
      [("type", Str "ReturnStatement"); ("argument", optional a)]
  | IfStatement _ t c a =>
      [("type", Str "IfStatement"); ("test", reference t);
       ("consequent", reference c); ("alternate", optional a)]
  | SwitchStatement _ d cs =>
      [("type", Str "SwitchStatement"); ("discriminant", reference d);
       ("cases", references cs)]
  | SwitchCase _ t cs =>
      [("type", Str "SwitchCase"); ("test", optional t);
       ("consequent", references cs)]
  | WhileStatement _ t b =>
      [("type", Str "WhileStatement"); ("test", reference t);
       ("body", reference b)]
  | ThrowStatement _ a =>
      [("type", Str "ThrowStatement"); ("argument", reference a)]
  | OtherNode _ type cs =>
      [("type", Str type); ("children", references cs)]
  end.

(** Every node of a tree: the node, then the nodes of its children. *)
Fixpoint subnodes (n : node) : list node :=
  n ::
  match n with
  | Identifier _ _ | Literal _ _ => []
  | MemberExpression _ o p _ => subnodes o ++ subnodes p
  | ObjectExpression _ ps => flat_map subnodes ps
  | Property _ k v _ => subnodes k ++ subnodes v
  | SpreadElement _ a | UnaryExpression _ _ a | AwaitExpression _ a
  | ThrowStatement _ a | ExpressionStatement _ a => subnodes a
  | ArrayExpression _ es =>
      flat_map (λ e, match e with Some e => subnodes e | None => [] end) es
  | ArrowFunctionExpression _ ps b | FunctionExpression _ ps b =>
      flat_map subnodes ps ++ subnodes b
  | CallExpression _ c args | NewExpression _ c args =>
      subnodes c ++ flat_map subnodes args
  | ConditionalExpression _ t c a => subnodes t ++ subnodes c ++ subnodes a
  | BlockStatement _ b => flat_map subnodes b
  | ReturnStatement _ (Some a) => subnodes a
  | ReturnStatement _ None => []
  | IfStatement _ t c (Some a) => subnodes t ++ subnodes c ++ subnodes a
  | IfStatement _ t c None => subnodes t ++ subnodes c
  | SwitchStatement _ d cs => subnodes d ++ flat_map subnodes cs
  | SwitchCase _ (Some t) cs => subnodes t ++ flat_map subnodes cs
  | SwitchCase _ None cs => flat_map subnodes cs
  | WhileStatement _ t b => subnodes t ++ subnodes b
  | OtherNode _ _ cs => flat_map subnodes cs
  end.

Definition graphOf (root : node) : graph :=
  list_to_map ((λ n, (identity n, objectOf n)) <$> subnodes root).

(** The type names that the scanner compares [type] with. *)
Definition comparedTypes : list string :=
  ["ArrowFunctionExpression"; "FunctionExpression"; "BlockStatement";
   "ReturnStatement"; "ObjectExpression"; "Property"; "Identifier"; "Literal"].

(** A tree stands for objects of a parser when an identity names one
    node, and when a node of another kind has another type name. *)
Definition parsed (root : node) : Prop :=
  (∀ a b, a ∈ subnodes root → b ∈ subnodes root →
          identity a = identity b → a = b) ∧
  (∀ i type cs, OtherNode i type cs ∈ subnodes root → type ∉ comparedTypes).

End Runtime.

(** Inputs of the run-time model. *)
Module RuntimeSamples.

Import Samples.

(** [() => { return wrap({ id: 'x' }); return { id: 'a' }; return { id: 'a' }; }],
    the two last statements being one object: a return value that is no
    object literal, and a shared subtree. *)
Definition wrappedThunk : node :=
  ArrowFunctionExpression 1 []
    (BlockStatement 2
       [ReturnStatement 3
          (Some (CallExpression 4 (Identifier 5 "wrap") [idObject 6 "x"]));
        returns 20 "a"; returns 20 "a"]).

(** A graph that no parser makes: the block [2] holds the statement [3]
    twice and the loop [1] that it is the body of, and the literal of
    [id] is a number in one member and a string in the next. *)
Definition loop : Runtime.graph :=
  list_to_map
    [(1, [("type", Runtime.Str "WhileStatement"); ("test", Runtime.Boolean true);
          ("body", Runtime.Object 2)]);
     (2, [("type", Runtime.Str "BlockStatement");
          ("body", Runtime.Array
             [Runtime.Object 3; Runtime.Object 3; Runtime.Object 1])]);
     (3, [("type", Runtime.Str "ReturnStatement"); ("argument", Runtime.Object 4)]);
     (4, [("type", Runtime.Str "ObjectExpression");
          ("properties", Runtime.Array [Runtime.Object 5; Runtime.Object 8])]);
     (5, [("type", Runtime.Str "Property"); ("key", Runtime.Object 6);
          ("value", Runtime.Object 7)]);
     (6, [("type", Runtime.Str "Identifier"); ("name", Runtime.Str "id")]);
     (7, [("type", Runtime.Str "Literal"); ("value", Runtime.Number 1)]);
     (8, [("type", Runtime.Str "Property"); ("key", Runtime.Object 6);
          ("value", Runtime.Object 9)]);
     (9, [("type", Runtime.Str "Literal"); ("value", Runtime.Str "a")])].

End RuntimeSamples.

(** ** The state machine of [state-machine.ts]

    The class [StateMachine] keeps two arrays of history entries and
    works on a model object that the commands change.  The instance is
    the record of the two arrays and of the current value of the model;
    a callback of the user (a command factory, the [execute] and the
    [undo] of a command) is a function of the model that gives the new
    model with its result.  [Array.prototype.push] adds at the end of
    the list, [pop] and [at(-1)] work on its last element.  An object
    used as a dictionary ([config], [commands]) is a finite map of its
    own keys; a key that holds [undefined] is a missing key, which the
    class does not tell apart.

    The [in] operator and the member access of the class also find the
    names that an object literal inherits from [Object.prototype]:
    [hasProperty] is that test.  [canUndoRedo] below takes the inherited
    names into account.  [getCommand] describes the class for a state id
    and a message id that are keys of [commands] or that no object
    inherits; for an id that is only an inherited name the class takes a
    built-in of the host for the commands of a state or for a factory,
    which is not modelled, so the statements about a message without a
    factory are made with [hasProperty]. *)

Module StateMachine.

(** The members of [Object.prototype]: the names that every object
    literal answers to without having them as keys. *)
Definition ObjectPrototype : list string :=
  ["constructor"; "hasOwnProperty"; "isPrototypeOf"; "propertyIsEnumerable";
   "toLocaleString"; "toString"; "valueOf"; "__proto__";
   "__defineGetter__"; "__defineSetter__";
   "__lookupGetter__"; "__lookupSetter__"].

(** [name in object], for an object literal with the given own keys. *)
Definition hasProperty {V : Type} (name : string) (object : gmap string V) : Prop :=
  is_Some (object !! name) ∨ name ∈ ObjectPrototype.

Section Machine.

Context {Model StateData MessageData : Type}.

(** [Tagged<T, 'id', K>]: the object [{ id: K, ...T }]. *)
Record Tagged (T : Type) := { id : string; data : T }.
Arguments id {T}.
Arguments data {T}.

Definition AnyState := Tagged StateData.
Definition AnyMessage := Tagged MessageData.

(** [interface Command<T> { execute: () => T; undo?: () => void }] *)
Record Command := {
  Command_execute : Model → AnyState * Model;
  Command_undo : option (Model → Model)
}.

(** A command factory, called with [{ model, state, message }]; it may
    give no command. *)
Definition CommandFactory :=
  AnyState → AnyMessage → Model → option Command * Model.

(** [StateConfig]: [disableUndoRedo?: true] is [false] when absent. *)
Record StateConfig := {
  on : gmap string (list string);
  disableUndoRedo : bool
}.

Record Props := {
  config : gmap string StateConfig;
  commands : gmap string (gmap string CommandFactory);
  initialState : AnyState
}.

Record HistoryEntry := {
  entry_state : AnyState;
  entry_message : AnyMessage;
  entry_command : Command
}.

(** The mutable part of an instance: [props.model], [history], [future]. *)
Record Instance := {
  model : Model;
  history : list HistoryEntry;
  future : list HistoryEntry
}.

Variable props : Props.

(** [new StateMachine(props)] *)
Definition create (model : Model) : Instance :=
  {| model := model; history := []; future := [] |}.

Definition getCurrentState (this : Instance) : AnyState :=
  match last (history this) with
  | Some entry => entry_state entry
  | None => initialState props
  end.

(** [getCommand]: the command of the factory for the current state and
    the message, with the model as the factory leaves it.  The two
    lookups are those of the keys of [commands]: see above for the names
    that [in] finds besides. *)
Definition getCommand (this : Instance) (message : AnyMessage)
    : option Command * Model :=
  let state := getCurrentState this in
  match commands props !! id state with
  | None => (None, model this)
  | Some stateCommands =>
      match stateCommands !! id message with
      | None => (None, model this)
      | Some commandFactory => commandFactory state message (model this)
      end
  end.

(** [canUndoRedo]: the member access [config[state.id]] finds the
    config of the state or else the member of [Object.prototype] of that
    name, a built-in that has no [disableUndoRedo], so that the negation
    is [true]; [None] is the [TypeError] of reading [disableUndoRedo] of
    [undefined], when the id of the state is no property of the
    config. *)
Definition canUndoRedo (this : Instance) : option bool :=
  match config props !! id (getCurrentState this) with
  | Some stateConfig => Some (negb (disableUndoRedo stateConfig))
  | None =>
      if decide (id (getCurrentState this) ∈ ObjectPrototype) then Some true
      else None
  end.

Definition undo (this : Instance) : Instance :=
  match last (history this) with
  | None => this
  | Some entry =>
      {| model := match Command_undo (entry_command entry) with
                  | Some undoCommand => undoCommand (model this)
                  | None => model this
                  end;
         history := removelast (history this);
         future := future this ++ [entry] |}
  end.

Definition redo (this : Instance) : Instance :=
  match last (future this) with
  | None => this
  | Some entry =>
      {| model := (Command_execute (entry_command entry) (model this)).2;
         history := history this ++ [entry];
         future := removelast (future this) |}
  end.

(** [execute(message)]; [None] is the [TypeError] of [canUndoRedo]. *)
Definition execute (this : Instance) (message : AnyMessage) : option Instance :=
  if decide (id message = "undo" ∨ id message = "redo") then
    match canUndoRedo this with
    | None => None
    | Some false => Some this
    | Some true =>
        if decide (id message = "undo") then Some (undo this)
        else Some (redo this)
    end
  else
    match getCommand this message with
    | (None, model') =>
        Some {| model := model'; history := history this; future := future this |}
    | (Some command, model') =>
        let '(state, model'') := Command_execute command model' in
        Some {| model := model'';
                history := history this ++
                  [{| entry_state := state; entry_message := message;
                      entry_command := command |}];
                future := [] |}
    end.

(** A caller that sends messages one after the other, as long as none
    fails. *)
Fixpoint executeAll (this : Instance) (messages : list AnyMessage)
    : option Instance :=
  match messages with
  | [] => Some this
  | message :: rest =>
      match execute this message with
      | Some next => executeAll next rest
      | None => None
      end
  end.

(** What [canUndoRedo] answers in a given state. *)
Definition undoRedoIn (state : AnyState) : option bool :=
  match config props !! id state with
  | Some stateConfig => Some (negb (disableUndoRedo stateConfig))
  | None => if decide (id state ∈ ObjectPrototype) then Some true else None
  end.

(** The entries of an instance in the order they were made: the history,
    then the undone entries from the last undone to the first. *)
Definition timeline (this : Instance) : list HistoryEntry :=
  history this ++ reverse (future this).

End Machine.

Arguments Tagged : clear implicits.
Arguments id {T}.
Arguments data {T}.
Arguments Command : clear implicits.
Arguments CommandFactory : clear implicits.
Arguments Props : clear implicits.
Arguments HistoryEntry : clear implicits.
Arguments Instance : clear implicits.

End StateMachine.

(** The counter machine of the tests of the class: the model is the
    value of the counter, a state carries its start time and a message
    its time stamp. *)
Module CounterMachine.

Import StateMachine.

Definition state (name : string) (startTime : nat) : AnyState (StateData := nat) :=
  {| id := name; data := startTime |}.

Definition message (name : string) (timestamp : nat) : AnyMessage (MessageData := nat) :=
  {| id := name; data := timestamp |}.

(** [activate]: back to [idle] when the time stamp is over 1000. *)
Definition activateCommand (timestamp : nat) : Command nat nat :=
  {| Command_execute := λ model,
       (state (if decide (1000 < timestamp) then "idle" else "active") timestamp,
        model);
     Command_undo := None |}.

Definition activate : CommandFactory nat nat nat :=
  λ _ message model, (Some (activateCommand (data message)), model).

(** [increment]: [undo] puts the value read by the factory back. *)
Definition incrementCommand (prevCount startTime : nat) : Command nat nat :=
  {| Command_execute := λ model, (state "active" startTime, S model);
     Command_undo := Some (λ _, prevCount) |}.

Definition increment : CommandFactory nat nat nat :=
  λ current _ model,
    let prevCount := model in
    (Some (incrementCommand prevCount (data current)), model).

(** [lock]: to a state where undo and redo are switched off. *)
Definition lockCommand : Command nat nat :=
  {| Command_execute := λ model, (state "locked" 0, model);
     Command_undo := None |}.

Definition lock : CommandFactory nat nat nat :=
  λ _ _ model, (Some lockCommand, model).

Definition props : Props nat nat nat :=
  {| config :=
       {[ "idle" := {| on := {[ "activate" := ["active"; "idle"] ]};
                       disableUndoRedo := false |};
          "active" := {| on := {[ "increment" := ["active"]; "lock" := ["locked"] ]};
                         disableUndoRedo := false |};
          "locked" := {| on := ∅; disableUndoRedo := true |} ]};
     commands :=
       {[ "idle" := {[ "activate" := activate ]};
          "active" := {[ "increment" := increment; "lock" := lock ]};
          "locked" := ∅ ]};
     initialState := state "idle" 0 |}.

(** The entry of [activate] at time 7. *)
Definition activated : HistoryEntry nat nat nat :=
  {| entry_state := state "active" 7;
     entry_message := message "activate" 7;
     entry_command := activateCommand 7 |}.

(** The entry of an [increment] sent when the counter is at [n]. *)
Definition incremented (n : nat) : HistoryEntry nat nat nat :=
  {| entry_state := state "active" 7;
     entry_message := message "increment" 0;
     entry_command := incrementCommand n 7 |}.

(** The entry of [lock]. *)
Definition locked : HistoryEntry nat nat nat :=
  {| entry_state := state "locked" 0;
     entry_message := message "lock" 0;
     entry_command := lockCommand |}.

(** The same machine with nothing declared under [on]. *)
Definition undeclared : Props nat nat nat :=
  {| config :=
       {[ "idle" := {| on := ∅; disableUndoRedo := false |};
          "active" := {| on := ∅; disableUndoRedo := false |};
          "locked" := {| on := ∅; disableUndoRedo := true |} ]};
     commands := commands props;
     initialState := initialState props |}.

(** The instance after [activate] at time 7, the counter being at [n]. *)
Definition active (n : nat) : Instance nat nat nat :=
  {| model := n; history := [activated]; future := [] |}.

(** The instance after [activate] and one [increment]. *)
Definition counted : Instance nat nat nat :=
  {| model := 1; history := [activated; incremented 0]; future := [] |}.

(** The instance after [activate] and [lock]. *)
Definition lockedUp : Instance nat nat nat :=
  {| model := 0; history := [activated; locked]; future := [] |}.

End CounterMachine.

(** ** Proof steps *)

(** A member without an identifier key changes no loop; brackets around
    an identifier key change none either. *)
Ltac by_key x Hkey :=
  destruct x as [| | | |? key ? ?| | | | | | | | | | | | | | | | | |];
    try reflexivity;
  destruct key; try reflexivity;
  exfalso; apply Hkey; reflexivity.

Ltac by_brackets x := destruct x; reflexivity.

(** Steps of a run on a graph: the binds of the calls that return, and
    the fields of an object that is known. *)
Ltac run :=
  cbn [Runtime.member mbind Runtime.outcome_bind mret Runtime.outcome_ret].

Ltac at_node E := run; rewrite ?E; run.

Ltac with_fields E :=
  let F := fresh in
  pose proof E as F; simpl in F; simpl; rewrite ?F; simpl; clear F.

(** ** Facts *)

Import Samples.

(** *** The classifier *)

Section Classifier.

Variables (factoryNode executeFunc : node) (messageName : string)
  (targetStates : list string).
Hypothesis located : findExecuteMethod factoryNode = Some executeFunc.

Lemma analyze_one (S : string) :
  findReturnedStateIds executeFunc = [S] →
  analyzeCommandFactory factoryNode messageName targetStates =
    [Report executeFunc alwaysSameState messageName
       (pretty (length targetStates)) (join targetStates) S].
Proof.
  intros Hset. unfold analyzeCommandFactory. rewrite located, Hset. reflexivity.
Qed.

Lemma analyze_some :
  1 < length (findReturnedStateIds executeFunc) < length targetStates →
  analyzeCommandFactory factoryNode messageName targetStates =
    [Report executeFunc missingUnionReturn messageName
       (pretty (length targetStates)) (join targetStates)
       (join (findReturnedStateIds executeFunc))].
Proof.
  intros Hsize. unfold analyzeCommandFactory. rewrite located.
  cbv zeta. repeat case_decide; (reflexivity || lia).
Qed.

Lemma analyze_none :
  findReturnedStateIds executeFunc = [] →
  analyzeCommandFactory factoryNode messageName targetStates = [].
Proof.
  intros Hset. unfold analyzeCommandFactory. rewrite located, Hset. reflexivity.
Qed.

Lemma analyze_enough :
  2 ≤ length targetStates →
  length targetStates ≤ length (findReturnedStateIds executeFunc) →
  analyzeCommandFactory factoryNode messageName targetStates = [].
Proof.
  intros Htwo Hsize. unfold analyzeCommandFactory. rewrite located.
  cbv zeta. repeat case_decide; (reflexivity || lia).
Qed.

End Classifier.

Lemma analyze_no_execute factoryNode messageName targetStates :
  findExecuteMethod factoryNode = None →
  analyzeCommandFactory factoryNode messageName targetStates = [].
Proof. intros Hnone. unfold analyzeCommandFactory. by rewrite Hnone. Qed.

(** A tracked pair: the command property [messageName: factoryNode] of a
    state whose message map declares two targets or more reaches
    [analyzeCommandFactory]. *)
Lemma checkMessage_tracked messageMap i j c messageName factoryNode targetStates :
  messageMap !! messageName = Some targetStates →
  2 ≤ length targetStates →
  checkMessage messageMap (Property i (Identifier j messageName) factoryNode c) =
    analyzeCommandFactory factoryNode messageName targetStates.
Proof.
  intros Hdeclared Htwo. simpl. rewrite Hdeclared.
  case_decide; [lia | reflexivity].
Qed.

(** C1: for a pair with two declared targets or more whose execute thunk
    is located, a returned-state set with the single element [S] makes the
    rule emit exactly one [alwaysSameState] report, anchored at the thunk,
    with the message name, the declared count, the declared list in its
    order and [S]. *)
Theorem C1_always_same_state
    messageMap i j c messageName factoryNode targetStates executeFunc S :
  messageMap !! messageName = Some targetStates →
  2 ≤ length targetStates →
  findExecuteMethod factoryNode = Some executeFunc →
  findReturnedStateIds executeFunc = [S] →
  checkMessage messageMap (Property i (Identifier j messageName) factoryNode c) =
    [Report executeFunc alwaysSameState messageName
       (pretty (length targetStates)) (join targetStates) S].
Proof.
  intros Hdeclared Htwo Hexec Hset.
  rewrite (checkMessage_tracked _ _ _ _ _ _ _ Hdeclared Htwo).
  by apply analyze_one.
Qed.

Lemma C1_witness :
  checkMessage activateTargets (member 50 "activate" (factory alwaysActive)) =
    [Report alwaysActive alwaysSameState "activate" "2" "active, idle" "active"].
Proof.
  apply (C1_always_same_state activateTargets 50 51 false "activate"
           (factory alwaysActive) ["active"; "idle"] alwaysActive "active").
  - vm_compute. reflexivity.
  - simpl. lia.
  - reflexivity.
  - vm_compute. reflexivity.
Defined.

(** *** The syntax tree *)

Lemma list_all_Forall {A} (P : A → Prop) (l : list A) :
  list_all A P l → Forall P l.
Proof. induction 1; constructor; assumption. Qed.

Lemma list_option_all_Forall {A} (P : A → Prop) (l : list (option A)) :
  list_all (option A) (option_all A P) l → Forall P (omap (λ e, e) l).
Proof.
  induction 1 as [|o Ho l _ IH]; simpl; [constructor|].
  destruct Ho; simpl; [constructor|]; assumption.
Qed.

Lemma option_all_Forall {A} (P : A → Prop) (o : option A) :
  option_all A P o → Forall P (option_list o).
Proof. destruct 1; simpl; repeat constructor; assumption. Qed.

(** Induction over the tree through [children]. *)
Lemma node_children_ind (P : node → Prop) :
  (∀ n, Forall P (children n) → P n) → ∀ n, P n.
Proof.
  intros step. induction n; apply step; simpl;
    repeat match goal with
    | H : list_all (option node) _ ?l |- _ =>
        apply (list_option_all_Forall P l) in H
    | H : list_all node _ ?l |- _ => apply (list_all_Forall P l) in H
    | H : option_all node _ ?o |- _ => apply (option_all_Forall P o) in H
    end;
    repeat first [ assumption | apply Forall_app; split | constructor ].
Qed.

Lemma followed_children n : followed n ⊆ children n.
Proof.
  destruct n; simpl; try destruct alternate; simpl; intros x;
    rewrite ?elem_of_app, ?elem_of_cons, ?elem_of_nil; tauto.
Qed.

Lemma returnValue_child n e : returnValue n = Some e → e ∈ children n.
Proof.
  destruct n; simpl; try discriminate.
  - case_match; [discriminate|]. intros [= <-].
    rewrite elem_of_app, list_elem_of_singleton. by right.
  - intros ->. simpl. by apply list_elem_of_singleton.
Qed.

Lemma descendant_child n c d : descendant n c → d ∈ children c → descendant n d.
Proof. intros Hnc Hd. eapply rtc_r; eauto. Qed.

(** *** The walk *)

(** [visit] in one equation: the guard, the mark, the return value of the
    node itself, then the followed children from left to right. *)
Lemma visit_unfold n w :
  visit n w =
    if decide (identity n ∈ visited w) then w else
    let marked := Walk ({[identity n]} ∪ visited w) (stateIds w) in
    fold_left (λ w c, visit c w) (followed n)
      (match returnValue n with
       | Some e => addStateId e marked
       | None => marked
       end).
Proof.
  destruct n; cbn [followed returnValue fold_left identity];
    cbn -[union singleton elem_of decide];
    case_decide; try reflexivity; by repeat case_match.
Qed.

(** Whatever the mark and [addStateId] preserve, the walk preserves; [Q]
    tells where the return values may come from. *)
Lemma visit_invariant (I : walk → Prop) (Q : node → Prop) :
  (∀ i w, I w → I (Walk ({[i]} ∪ visited w) (stateIds w))) →
  (∀ e w, Q e → I w → I (addStateId e w)) →
  (∀ n c, Q n → c ∈ children n → Q c) →
  ∀ n w, Q n → I w → I (visit n w).
Proof.
  intros Hmark Hadd Hdown n.
  induction n as [n IH] using node_children_ind. intros w Hn Hw.
  rewrite visit_unfold. case_decide; [assumption|]. cbv zeta.
  assert (Hstart : I (match returnValue n with
                      | Some e => addStateId e
                          (Walk ({[identity n]} ∪ visited w) (stateIds w))
                      | None => Walk ({[identity n]} ∪ visited w) (stateIds w)
                      end)).
  { destruct (returnValue n) as [e|] eqn:He; [|by apply Hmark].
    apply Hadd; [|by apply Hmark].
    eapply Hdown; [exact Hn|]. by apply returnValue_child. }
  revert Hstart. generalize (match returnValue n with
                      | Some e => addStateId e
                          (Walk ({[identity n]} ∪ visited w) (stateIds w))
                      | None => Walk ({[identity n]} ∪ visited w) (stateIds w)
                      end).
  pose proof (followed_children n) as Hsub.
  induction (followed n) as [|c l IHl]; intros w' Hw'; simpl; [assumption|].
  assert (Hc : c ∈ children n) by (apply Hsub; left).
  apply IHl; [intros x Hx; apply Hsub; by right|].
  rewrite Forall_forall in IH.
  apply IH; [exact Hc| |assumption].
  eapply Hdown; [exact Hn|exact Hc].
Qed.

Lemma set_add_NoDup s ids : NoDup ids → NoDup (set_add s ids).
Proof.
  intros Hids. unfold set_add. case_decide; [assumption|].
  apply NoDup_app. repeat split; [assumption| |apply NoDup_singleton].
  intros x Hx Hs. apply list_elem_of_singleton in Hs. by subst.
Qed.

Lemma addStateId_NoDup e w : NoDup (stateIds w) → NoDup (stateIds (addStateId e w)).
Proof.
  intros Hw. unfold addStateId. destruct (extractStateIdFromExpression e); [|assumption].
  case_decide; [assumption|]. simpl. by apply set_add_NoDup.
Qed.

(** The returned-state set holds no identifier twice. *)
Lemma findReturnedStateIds_NoDup funcNode : NoDup (findReturnedStateIds funcNode).
Proof.
  unfold findReturnedStateIds.
  apply (visit_invariant (λ w, NoDup (stateIds w)) (λ _, True)); auto.
  - intros e w _. apply addStateId_NoDup.
  - simpl. constructor.
Qed.

(** C2: for a pair with two declared targets or more, a returned-state
    set with more than one element and fewer elements than the declared
    count makes the rule emit exactly one [missingUnionReturn] report,
    with the message name, the declared count, the declared list and the
    observed identifiers, each of them once. *)
Theorem C2_partial_union
    messageMap i j c messageName factoryNode targetStates executeFunc :
  messageMap !! messageName = Some targetStates →
  2 ≤ length targetStates →
  findExecuteMethod factoryNode = Some executeFunc →
  1 < length (findReturnedStateIds executeFunc) < length targetStates →
  checkMessage messageMap (Property i (Identifier j messageName) factoryNode c) =
    [Report executeFunc missingUnionReturn messageName
       (pretty (length targetStates)) (join targetStates)
       (join (findReturnedStateIds executeFunc))] ∧
  NoDup (findReturnedStateIds executeFunc).
Proof.
  intros Hdeclared Htwo Hexec Hsize. split.
  - rewrite (checkMessage_tracked _ _ _ _ _ _ _ Hdeclared Htwo).
    by apply analyze_some.
  - apply findReturnedStateIds_NoDup.
Qed.

Lemma C2_witness :
  checkMessage threeTargets (member 50 "go" (factory ifThunk)) =
    [Report ifThunk missingUnionReturn "go" "3" "a, b, c" "a, b"] ∧
  NoDup (findReturnedStateIds ifThunk).
Proof.
  apply (C2_partial_union threeTargets 50 51 false "go" (factory ifThunk)
           ["a"; "b"; "c"] ifThunk).
  - vm_compute. reflexivity.
  - simpl. lia.
  - reflexivity.
  - vm_compute. lia.
Defined.

(** C4: for a pair with two declared targets or more the rule reports
    nothing when the returned-state set is empty (no execute thunk, or
    no recognised return) and nothing when the set has at least as many
    elements as the declaration, whatever these elements are. *)
Theorem C4_silent
    messageMap i j c messageName factoryNode targetStates :
  messageMap !! messageName = Some targetStates →
  2 ≤ length targetStates →
  (findExecuteMethod factoryNode = None ∨
   ∃ executeFunc,
     findExecuteMethod factoryNode = Some executeFunc ∧
     (findReturnedStateIds executeFunc = [] ∨
      length targetStates ≤ length (findReturnedStateIds executeFunc))) →
  checkMessage messageMap (Property i (Identifier j messageName) factoryNode c) = [].
Proof.
  intros Hdeclared Htwo Hcases.
  rewrite (checkMessage_tracked _ _ _ _ _ _ _ Hdeclared Htwo).
  destruct Hcases as [Hnone | (executeFunc & Hexec & [Hempty | Hsize])].
  - by apply analyze_no_execute.
  - by eapply analyze_none.
  - by eapply analyze_enough.
Qed.

(** The thunk returns [a] and [b], the declaration says [x] and [y]. *)
Lemma C4_witness :
  checkMessage otherTargets (member 50 "go" (factory ifThunk)) = [] ∧
  findReturnedStateIds ifThunk = ["a"; "b"].
Proof.
  split; [|vm_compute; reflexivity].
  apply (C4_silent otherTargets 50 51 false "go" (factory ifThunk) ["x"; "y"]).
  - vm_compute. reflexivity.
  - simpl. lia.
  - right. exists ifThunk. split; [reflexivity|]. right. vm_compute. lia.
Defined.

(** C5: a command whose message has fewer than two declared targets in
    the table (none when the message is missing from it) is passed over,
    whatever its factory is: the factory is not looked at and nothing is
    reported for it. *)
Theorem C5_untracked messageMap i j c messageName factoryNode :
  length (default [] (messageMap !! messageName)) < 2 →
  checkMessage messageMap (Property i (Identifier j messageName) factoryNode c) = [].
Proof.
  intros Hshort. simpl. destruct (messageMap !! messageName) as [targetStates|].
  - simpl in Hshort. case_decide; [reflexivity | lia].
  - reflexivity.
Qed.

(** Scenario D: ['a', next] retains one literal, so the command of [go]
    is passed over although its thunk always returns the same state. *)
Lemma C5_witness :
  parseStateMachineConfig oneLiteralConfig !! "idle" = Some {[ "go" := ["a"] ]} ∧
  checkMessage {[ "go" := ["a"] ]} (member 50 "go" (factory alwaysActive)) = [].
Proof.
  split; [vm_compute; reflexivity|].
  apply (C5_untracked {[ "go" := ["a"] ]} 50 51 false "go" (factory alwaysActive)).
  vm_compute. lia.
Defined.

(** C3: the walk does not look into the statements of a [switch] case.
    [visit] calls itself on the [consequent] of a [SwitchCase], which is
    an array and has none of the fields the walk reads, so a [return]
    below a case adds nothing: the thunk that returns [a] in one case
    and [b] in the other yields the empty set, where the same returns
    under [if]/[else] yield both. *)
Theorem C3_switch_cases_not_walked :
  (∀ i test consequent w,
     stateIds (visit (SwitchCase i test consequent) w) = stateIds w) ∧
  findReturnedStateIds switchThunk = [] ∧
  findReturnedStateIds ifThunk = ["a"; "b"].
Proof.
  split; [|split; vm_compute; reflexivity].
  intros i test consequent w. rewrite visit_unfold. simpl.
  case_decide; reflexivity.
Qed.

(** *** What the scanner may add *)

Lemma first_return_Some {A B} (f : A → option B) xs y :
  first_return f xs = Some y → ∃ x, x ∈ xs ∧ f x = Some y.
Proof.
  induction xs as [|x xs IH]; simpl; [discriminate|].
  destruct (f x) as [y'|] eqn:Hx.
  - intros [= <-]. exists x. split; [left | assumption].
  - intros Hrest. destruct (IH Hrest) as (x' & Hin & Hx').
    exists x'. split; [by right | assumption].
Qed.

(** An identifier comes out of [extractStateIdFromExpression] only as the
    string literal of a member [id] of an object literal. *)
Lemma extractStateId_literal e s :
  extractStateIdFromExpression e = Some s →
  ∃ i properties k prop,
    e = ObjectExpression i properties ∧ prop ∈ properties ∧
    entry "id" (Literal k (LString s)) prop.
Proof.
  destruct e; simpl; try discriminate. intros Hfirst.
  apply first_return_Some in Hfirst as (prop & Hin & Hprop).
  destruct prop as [| | | |i key value c| | | | | | | | | | | | | | | | | |];
    try discriminate.
  destruct key as [j name| | | | | | | | | | | | | | | | | | | | | |];
    try discriminate.
  destruct value as [|k [v| | |]| | | | | | | | | | | | | | | | | | | | |];
    try discriminate.
  case_decide as Hname; [|discriminate]. injection Hprop as Hv. subst name v.
  exists oid, properties, k, (Property i (Identifier j "id") (Literal k (LString s)) c).
  repeat split; [assumption|]. by exists i, j, c.
Qed.

Lemma getExecuteFromObject_Some objNode executeFunc :
  getExecuteFromObject objNode = Some executeFunc →
  isFunctionLike executeFunc = true ∧
  ∃ prop, prop ∈ children objNode ∧ executeFunc ∈ children prop.
Proof.
  destruct objNode; simpl; try discriminate. intros Hfirst.
  apply first_return_Some in Hfirst as (prop & Hin & Hprop).
  destruct prop as [| | | |i key value c| | | | | | | | | | | | | | | | | |];
    try discriminate.
  destruct key as [j name| | | | | | | | | | | | | | | | | | | | | |];
    try discriminate.
  case_decide; [|discriminate].
  destruct (isFunctionLike value) eqn:Hfun; [|discriminate].
  injection Hprop as <-. split; [assumption|].
  eexists. split; [exact Hin|]. simpl. right. left.
Qed.

Lemma returnedObject_Some stmts argument :
  returnedObject stmts = Some argument →
  ∃ stmt, stmt ∈ stmts ∧ argument ∈ children stmt.
Proof.
  intros Hfirst. apply first_return_Some in Hfirst as (stmt & Hin & Hstmt).
  exists stmt. split; [assumption|].
  destruct stmt; try discriminate.
  destruct argument0 as [[]|]; try discriminate.
  injection Hstmt as <-. simpl. left.
Qed.

Lemma descendant_step n c d :
  c ∈ children n → descendant c d → descendant n d.
Proof. intros Hc Hd. eapply rtc_l; eauto. Qed.

(** A located execute thunk is a function below the factory. *)
Lemma findExecuteMethod_Some factoryNode executeFunc :
  findExecuteMethod factoryNode = Some executeFunc →
  isFunctionLike executeFunc = true ∧ descendant factoryNode executeFunc.
Proof.
  assert (Hobj : ∀ objNode, getExecuteFromObject objNode = Some executeFunc →
            isFunctionLike executeFunc = true ∧ descendant objNode executeFunc).
  { intros objNode Hget.
    apply getExecuteFromObject_Some in Hget as (Hfun & prop & Hprop & Hexec).
    split; [assumption|].
    eapply descendant_step; [exact Hprop|].
    eapply descendant_step; [exact Hexec|]. apply rtc_refl. }
  assert (Hblock : ∀ i stmts,
            match returnedObject stmts with
            | Some argument => getExecuteFromObject argument
            | None => None
            end = Some executeFunc →
            isFunctionLike executeFunc = true ∧
            descendant (BlockStatement i stmts) executeFunc).
  { intros i stmts Hfound.
    destruct (returnedObject stmts) as [argument|] eqn:Hret; [|discriminate].
    apply returnedObject_Some in Hret as (stmt & Hstmt & Harg).
    apply Hobj in Hfound as [Hfun Hdesc]. split; [assumption|].
    eapply descendant_step; [exact Hstmt|].
    eapply descendant_step; [exact Harg|]. exact Hdesc. }
  destruct factoryNode; simpl; try discriminate; intros Hfound.
  - assert (Hbody : isFunctionLike executeFunc = true ∧
                    descendant factoryNode executeFunc).
    { destruct factoryNode; try discriminate; [by apply Hobj | by apply Hblock]. }
    destruct Hbody as [Hfun Hdesc]. split; [assumption|].
    eapply descendant_step; [|exact Hdesc].
    simpl. rewrite elem_of_app, list_elem_of_singleton. by right.
  - assert (Hbody : isFunctionLike executeFunc = true ∧
                    descendant factoryNode executeFunc).
    { destruct factoryNode; try discriminate. by apply Hblock. }
    destruct Hbody as [Hfun Hdesc]. split; [assumption|].
    eapply descendant_step; [|exact Hdesc].
    simpl. rewrite elem_of_app, list_elem_of_singleton. by right.
Qed.

Lemma elem_of_set_add s x ids : x ∈ set_add s ids → x = s ∨ x ∈ ids.
Proof.
  unfold set_add. case_decide; [by right|].
  rewrite elem_of_app, list_elem_of_singleton. tauto.
Qed.

(** The guard: a node that was visited is left alone. *)
Lemma visit_visited n w : identity n ∈ visited w → visit n w = w.
Proof. intros Hseen. rewrite visit_unfold. by case_decide. Qed.

Lemma addStateId_visited e w : visited (addStateId e w) = visited w.
Proof.
  unfold addStateId. destruct (extractStateIdFromExpression e); [|reflexivity].
  by case_decide.
Qed.

Lemma visit_keeps_visited i n w : i ∈ visited w → i ∈ visited (visit n w).
Proof.
  apply (visit_invariant (λ w, i ∈ visited w) (λ _, True)); auto.
  - intros k w' Hw'. simpl. apply elem_of_union. by right.
  - intros e w' _. by rewrite addStateId_visited.
Qed.

Lemma fold_visit_keeps_visited i l w :
  i ∈ visited w → i ∈ visited (fold_left (λ w c, visit c w) l w).
Proof.
  revert w. induction l as [|c l IH]; intros w Hw; simpl; [assumption|].
  apply IH. by apply visit_keeps_visited.
Qed.

(** A node is marked by its visit, so a second visit of the same object,
    a shared subtree, changes nothing. *)
Lemma visit_marks n w : identity n ∈ visited (visit n w).
Proof.
  rewrite visit_unfold. case_decide; [assumption|]. cbv zeta.
  apply fold_visit_keeps_visited.
  destruct (returnValue n); rewrite ?addStateId_visited; simpl;
    apply elem_of_union; left; by apply elem_of_singleton.
Qed.

Lemma visit_twice n w : visit n (visit n w) = visit n w.
Proof. apply visit_visited, visit_marks. Qed.

(** *** The transition table *)

Lemma targetStates_fold elements acc :
  fold_left (λ targetStates elem,
    match elem with
    | Some (Literal _ (LString s)) => targetStates ++ [s]
    | _ => targetStates
    end) elements acc = acc ++ literalSubsequence elements.
Proof.
  revert acc. induction elements as [|elem elements IH]; intros acc; simpl.
  - by rewrite app_nil_r.
  - rewrite IH. unfold literalSubsequence. simpl.
    destruct elem as [[| ? [s| | |] | | | | | | | | | | | | | | | | | | | | |]|];
      simpl; try reflexivity.
    by rewrite <- app_assoc.
Qed.

(** The loop that pushes the string literals computes the subsequence. *)
Lemma targetStatesOf_array i elements :
  targetStatesOf (ArrayExpression i elements) = literalSubsequence elements.
Proof. simpl. by rewrite targetStates_fold. Qed.

Lemma recordMessage_other name messageMap msgProp :
  keyName msgProp ≠ Some name →
  recordMessage messageMap msgProp !! name = messageMap !! name.
Proof.
  intros Hkey. destruct msgProp; try reflexivity.
  destruct msgProp1; try reflexivity. simpl in *.
  case_decide; [|reflexivity]. apply lookup_insert_ne. congruence.
Qed.

Lemma fold_recordMessage_other name properties messageMap :
  Forall (λ q, keyName q ≠ Some name) properties →
  fold_left recordMessage properties messageMap !! name = messageMap !! name.
Proof.
  intros Hother. revert messageMap.
  induction Hother as [|q properties Hq _ IH]; intros messageMap; simpl;
    [reflexivity|].
  rewrite IH. by apply recordMessage_other.
Qed.

(** The entry of a message that is declared once. *)
Lemma messageMapOf_sole name value properties :
  soleEntry name value properties →
  messageMapOf properties !! name =
    if decide (targetStatesOf value = []) then None
    else Some (targetStatesOf value).
Proof.
  intros (before & prop & after & -> & (i & j & c & ->) & Hother).
  apply Forall_app in Hother as [Hbefore Hafter].
  unfold messageMapOf. rewrite fold_left_app. simpl.
  rewrite (fold_recordMessage_other _ _ _ Hafter).
  destruct (targetStatesOf value) as [|s l] eqn:Htargets; simpl.
  - by rewrite (fold_recordMessage_other _ _ _ Hbefore).
  - apply lookup_insert_eq.
Qed.

Lemma recordState_other name transitions stateProp :
  keyName stateProp ≠ Some name →
  recordState transitions stateProp !! name = transitions !! name.
Proof.
  intros Hkey. unfold recordState. repeat case_match; try reflexivity.
  subst. simpl in Hkey. apply lookup_insert_ne. congruence.
Qed.

Lemma fold_recordState_other name properties transitions :
  Forall (λ q, keyName q ≠ Some name) properties →
  fold_left recordState properties transitions !! name = transitions !! name.
Proof.
  intros Hother. revert transitions.
  induction Hother as [|q properties Hq _ IH]; intros transitions; simpl;
    [reflexivity|].
  rewrite IH. by apply recordState_other.
Qed.

(** The message map of a state that is declared once, with its first
    [on] member an object literal. *)
Lemma parse_sole o properties stateName a stateProps onProp b msgProps :
  soleEntry stateName (ObjectExpression a stateProps) properties →
  find isOnProperty stateProps = Some onProp →
  entry "on" (ObjectExpression b msgProps) onProp →
  parseStateMachineConfig (ObjectExpression o properties) !! stateName =
    Some (messageMapOf msgProps).
Proof.
  intros (before & prop & after & -> & (i & j & c & ->) & Hother) Hfind
    (i' & j' & c' & ->).
  apply Forall_app in Hother as [Hbefore Hafter].
  simpl. rewrite fold_left_app. simpl.
  rewrite (fold_recordState_other _ _ _ Hafter), Hfind.
  apply lookup_insert_eq.
Qed.

Lemma targetStatesOf_nonempty value :
  targetStatesOf value ≠ [] →
  ∃ x elements, value = ArrayExpression x elements.
Proof. destruct value; try done. intros _. by eexists _, _. Qed.

Lemma recordMessage_lookup name messageMap msgProp targetStates :
  recordMessage messageMap msgProp !! name = Some targetStates →
  messageMap !! name = Some targetStates ∨
  targetStates ≠ [] ∧
  ∃ x elements,
    entry name (ArrayExpression x elements) msgProp ∧
    targetStates = literalSubsequence elements.
Proof.
  destruct msgProp as [| | | |i key value c| | | | | | | | | | | | | | | | | |];
    try (by left).
  destruct key as [j messageName| | | | | | | | | | | | | | | | | | | | | |];
    try (by left).
  simpl. case_decide as Hlength; [|by left].
  destruct (decide (messageName = name)) as [->|Hne].
  - rewrite lookup_insert_eq. intros [= <-]. right.
    assert (Hne : targetStatesOf value ≠ [])
      by (intros Hnil; rewrite Hnil in Hlength; simpl in Hlength; lia).
    split; [assumption|].
    destruct (targetStatesOf_nonempty _ Hne) as (x & elements & ->).
    exists x, elements. split; [by exists i, j, c|].
    apply targetStatesOf_array.
  - rewrite lookup_insert_ne by done. by left.
Qed.

(** Every entry of a message map is the literal subsequence of an array
    written for that message, and is not empty. *)
Lemma messageMapOf_lookup name properties targetStates :
  messageMapOf properties !! name = Some targetStates →
  targetStates ≠ [] ∧
  ∃ msgProp x elements,
    msgProp ∈ properties ∧
    entry name (ArrayExpression x elements) msgProp ∧
    targetStates = literalSubsequence elements.
Proof.
  unfold messageMapOf.
  assert (Hfold : ∀ messageMap,
    fold_left recordMessage properties messageMap !! name = Some targetStates →
    messageMap !! name = Some targetStates ∨
    targetStates ≠ [] ∧
    ∃ msgProp x elements,
      msgProp ∈ properties ∧
      entry name (ArrayExpression x elements) msgProp ∧
      targetStates = literalSubsequence elements).
  { induction properties as [|p properties IH]; intros messageMap; simpl;
      [by left|].
    intros Hlookup. apply IH in Hlookup as [Hstep | (Hne & q & x & es & Hq & Hrest)].
    - apply recordMessage_lookup in Hstep as [Hold | (Hne & x & es & Hrest)];
        [by left|].
      right. split; [assumption|]. exists p, x, es. split; [left | assumption].
    - right. split; [assumption|]. exists q, x, es. split; [by right | assumption]. }
  intros Hlookup. apply Hfold in Hlookup as [Hempty | Hfound]; [|assumption].
  by rewrite lookup_empty in Hempty.
Qed.

Lemma isOnProperty_entry onProp b msgProps i key c :
  isOnProperty onProp = true →
  onProp = Property i key (ObjectExpression b msgProps) c →
  entry "on" (ObjectExpression b msgProps) onProp.
Proof.
  intros Hon ->. destruct key; try discriminate.
  simpl in Hon. apply bool_decide_eq_true in Hon as ->. by eexists _, _, _.
Qed.

Lemma recordState_lookup name transitions stateProp messageMap :
  recordState transitions stateProp !! name = Some messageMap →
  transitions !! name = Some messageMap ∨
  ∃ a stateProps onProp b msgProps,
    entry name (ObjectExpression a stateProps) stateProp ∧
    find isOnProperty stateProps = Some onProp ∧
    entry "on" (ObjectExpression b msgProps) onProp ∧
    messageMap = messageMapOf msgProps.
Proof.
  destruct stateProp as [| | | |i key value c| | | | | | | | | | | | | | | | | |];
    try (by left).
  destruct key as [j stateName| | | | | | | | | | | | | | | | | | | | | |];
    try (by left).
  destruct value as [| | |a stateProps| | | | | | | | | | | | | | | | | | |];
    try (by left).
  simpl. destruct (find isOnProperty stateProps) as [onProp|] eqn:Hfind;
    [|by left].
  destruct onProp as [| | | |i' key' value' c'| | | | | | | | | | | | | | | | | |];
    try (by left).
  destruct value' as [| | |b msgProps| | | | | | | | | | | | | | | | | | |];
    try (by left).
  destruct (decide (stateName = name)) as [->|Hne].
  - rewrite lookup_insert_eq. intros [= <-]. right.
    exists a, stateProps, (Property i' key' (ObjectExpression b msgProps) c'),
      b, msgProps.
    split; [by exists i, j, c|]. split; [assumption|]. split; [|reflexivity].
    apply find_some in Hfind as [_ Hon].
    by eapply isOnProperty_entry.
  - rewrite lookup_insert_ne by done. by left.
Qed.

(** Every message map of the table belongs to a state member of the
    config whose first [on] member is an object literal. *)
Lemma parse_lookup o properties name messageMap :
  parseStateMachineConfig (ObjectExpression o properties) !! name = Some messageMap →
  ∃ stateProp a stateProps onProp b msgProps,
    stateProp ∈ properties ∧
    entry name (ObjectExpression a stateProps) stateProp ∧
    find isOnProperty stateProps = Some onProp ∧
    entry "on" (ObjectExpression b msgProps) onProp ∧
    messageMap = messageMapOf msgProps.
Proof.
  simpl.
  assert (Hfold : ∀ transitions,
    fold_left recordState properties transitions !! name = Some messageMap →
    transitions !! name = Some messageMap ∨
    ∃ stateProp a stateProps onProp b msgProps,
      stateProp ∈ properties ∧
      entry name (ObjectExpression a stateProps) stateProp ∧
      find isOnProperty stateProps = Some onProp ∧
      entry "on" (ObjectExpression b msgProps) onProp ∧
      messageMap = messageMapOf msgProps).
  { induction properties as [|p properties IH]; intros transitions; simpl;
      [by left|].
    intros Hlookup.
    apply IH in Hlookup as [Hstep | (q & a & sp & onp & b & mp & Hq & Hrest)].
    - apply recordState_lookup in Hstep as [Hold | (a & sp & onp & b & mp & Hrest)];
        [by left|].
      right. exists p, a, sp, onp, b, mp. split; [left | assumption].
    - right. exists q, a, sp, onp, b, mp. split; [by right | assumption]. }
  intros Hlookup. apply Hfold in Hlookup as [Hempty | Hfound]; [|assumption].
  by rewrite lookup_empty in Hempty.
Qed.

(** C6: the loop over the elements of a message's array computes the
    subsequence of its string literals, in their order and with their
    repetitions, other elements being passed over.  In every config,
    each declared target list of the table is that subsequence for an
    array written for the message under the first [on] member of a
    member for the state, and is not empty.  Where the state and, under
    its [on], the message are each declared once, the declared target
    list of the message is the subsequence for its array, and a message
    that retains no element has no entry in the table. *)
Theorem C6_declared_target_list o properties stateName messageName :
  (∀ x elements,
     targetStatesOf (ArrayExpression x elements) = literalSubsequence elements) ∧
  (∀ messageMap targetStates,
     parseStateMachineConfig (ObjectExpression o properties) !! stateName =
       Some messageMap →
     messageMap !! messageName = Some targetStates →
     targetStates ≠ [] ∧
     ∃ stateProp a stateProps onProp b msgProps msgProp x elements,
       stateProp ∈ properties ∧
       entry stateName (ObjectExpression a stateProps) stateProp ∧
       find isOnProperty stateProps = Some onProp ∧
       entry "on" (ObjectExpression b msgProps) onProp ∧
       msgProp ∈ msgProps ∧
       entry messageName (ArrayExpression x elements) msgProp ∧
       targetStates = literalSubsequence elements) ∧
  (∀ a stateProps onProp b msgProps x elements,
     soleEntry stateName (ObjectExpression a stateProps) properties →
     find isOnProperty stateProps = Some onProp →
     entry "on" (ObjectExpression b msgProps) onProp →
     soleEntry messageName (ArrayExpression x elements) msgProps →
     parseStateMachineConfig (ObjectExpression o properties) !! stateName
       ≫= (λ messageMap, messageMap !! messageName) =
       if decide (literalSubsequence elements = []) then None
       else Some (literalSubsequence elements)).
Proof.
  split; [apply targetStatesOf_array|]. split.
  - intros messageMap targetStates Hstate Hmessage.
    apply parse_lookup in Hstate
      as (stateProp & a & stateProps & onProp & b & msgProps
          & Hin & Hentry & Hfind & Hon & ->).
    apply messageMapOf_lookup in Hmessage
      as (Hne & msgProp & x & elements & Hin' & Hentry' & ->).
    split; [assumption|].
    by exists stateProp, a, stateProps, onProp, b, msgProps, msgProp, x, elements.
  - intros a stateProps onProp b msgProps x elements Hstate Hfind Hon Hmessage.
    rewrite (parse_sole _ _ _ _ _ _ _ _ Hstate Hfind Hon). simpl.
    rewrite (messageMapOf_sole _ _ _ Hmessage).
    by rewrite targetStatesOf_array.
Qed.

(** [go: ['a', next, 'a', 'b']] declares [a], [a], [b]. *)
Lemma C6_witness :
  parseStateMachineConfig (ObjectExpression 9 mixedConfig) !! "idle"
    ≫= (λ messageMap, messageMap !! "go") = Some ["a"; "a"; "b"].
Proof.
  apply (proj2 (proj2 (C6_declared_target_list 9 mixedConfig "idle" "go"))
           12 [mixedOn] mixedOn 15 mixedMessages 30
           [Some (str 31 "a"); Some (Identifier 32 "next"); Some (str 33 "a");
            Some (str 34 "b")]).
  - exists [], (member 10 "idle" (ObjectExpression 12 [mixedOn])), [].
    split; [reflexivity|]. split; [by exists 10, 11, false | constructor].
  - reflexivity.
  - by exists 13, 14, false.
  - exists [], (member 16 "go" mixedArray), [].
    split; [reflexivity|]. split; [by exists 16, 17, false | constructor].
Defined.

(** *** The locator *)

Lemma isStateMachine_recognised callee :
  isStateMachine callee = true ↔ recognisedName callee.
Proof.
  unfold recognisedName. split.
  - destruct callee; try discriminate; simpl.
    + intros Hname%bool_decide_eq_true. subst. left. by eexists.
    + destruct callee2; try discriminate.
      intros Hname%bool_decide_eq_true. subst. right. by repeat eexists.
  - intros [[i ->] | (i & object & j & c & ->)]; reflexivity.
Qed.

(** C7, as the code has it: the listener hands a construction to the
    analysis exactly when its callee names the state machine, its first
    argument is an object literal (further arguments are not looked at)
    and that literal has a [config] and a [commands] member that are
    object literals; every other construction is skipped, with no
    report. *)
Theorem C7_locator oid callee arguments configProp commandsProp :
  (locate (NewExpression oid callee arguments) = Some (configProp, commandsProp) ↔
   recognisedName callee ∧
   ∃ i properties rest,
     arguments = ObjectExpression i properties :: rest ∧
     configAndCommands properties = (Some configProp, Some commandsProp)) ∧
  (locate (NewExpression oid callee arguments) = None →
   create_NewExpression (NewExpression oid callee arguments) = []).
Proof.
  split.
  - rewrite <- isStateMachine_recognised. simpl. split.
    + destruct (isStateMachine callee); [|discriminate].
      destruct arguments as [|[] rest]; try discriminate.
      destruct (configAndCommands properties) as [[cfg|] [cmds|]] eqn:Hfound;
        try discriminate.
      intros [= <- <-]. split; [reflexivity|]. by repeat eexists.
    + intros (-> & i & properties & rest & -> & ->). reflexivity.
  - unfold create_NewExpression. by intros ->.
Qed.

Lemma C7_witness :
  locate qualifiedSite = Some (ObjectExpression 6 [], ObjectExpression 9 []).
Proof.
  apply (proj1 (C7_locator 1
    (MemberExpression 2 (Identifier 11 "fsm") (Identifier 12 "StateMachine") false)
    [ObjectExpression 3
       [member 4 "config" (ObjectExpression 6 []);
        member 7 "commands" (ObjectExpression 9 [])]]
    (ObjectExpression 6 []) (ObjectExpression 9 []))).
  split.
  - right. by exists 2, (Identifier 11 "fsm"), 12, false.
  - by repeat eexists.
Defined.

(** The construction [new StateMachine({ config: {}, commands: {} }, 42)]
    has two arguments, and the listener takes it. *)
Lemma C7_counterexample :
  locate twoArgumentSite = Some (ObjectExpression 6 [], ObjectExpression 9 []) ∧
  ¬ ∃ i properties, twoArguments = [ObjectExpression i properties].
Proof.
  split; [reflexivity|]. intros (i & properties & Hsole). discriminate Hsole.
Qed.

(** *** Members the loops pass over *)

Lemma first_return_filter {A B} (f : A → option B) (P : A → Prop)
    `{∀ x, Decision (P x)} xs :
  (∀ x, ¬ P x → f x = None) →
  first_return f (filter P xs) = first_return f xs.
Proof.
  intros Hskip. induction xs as [|x xs IH]; [reflexivity|].
  rewrite filter_cons. case_decide as Hx; simpl.
  - by rewrite IH.
  - by rewrite (Hskip x Hx).
Qed.

Lemma first_return_fmap {A B} (f : A → option B) (g : A → A) xs :
  (∀ x, f (g x) = f x) →
  first_return f (g <$> xs) = first_return f xs.
Proof.
  intros Hsame. induction xs as [|x xs IH]; [reflexivity|].
  rewrite fmap_cons. cbn [first_return]. by rewrite Hsame, IH.
Qed.

Lemma fold_left_filter {A B} (f : B → A → B) (P : A → Prop)
    `{∀ x, Decision (P x)} xs acc :
  (∀ acc x, ¬ P x → f acc x = acc) →
  fold_left f (filter P xs) acc = fold_left f xs acc.
Proof.
  intros Hskip. revert acc. induction xs as [|x xs IH]; intros acc; [reflexivity|].
  rewrite filter_cons. case_decide as Hx; simpl.
  - by rewrite IH.
  - by rewrite (Hskip acc x Hx).
Qed.

Lemma fold_left_fmap {A B} (f : B → A → B) (g : A → A) xs acc :
  (∀ acc x, f acc (g x) = f acc x) →
  fold_left f (g <$> xs) acc = fold_left f xs acc.
Proof.
  intros Hsame. revert acc. induction xs as [|x xs IH]; intros acc; [reflexivity|].
  rewrite fmap_cons. cbn [fold_left]. by rewrite Hsame, IH.
Qed.

Lemma flat_map_filter {A B} (f : A → list B) (P : A → Prop)
    `{∀ x, Decision (P x)} xs :
  (∀ x, ¬ P x → f x = []) →
  flat_map f (filter P xs) = flat_map f xs.
Proof.
  intros Hskip. induction xs as [|x xs IH]; [reflexivity|].
  rewrite filter_cons. case_decide as Hx; simpl.
  - by rewrite IH.
  - by rewrite (Hskip x Hx).
Qed.

Lemma flat_map_fmap {A B} (f : A → list B) (g : A → A) xs :
  (∀ x, f (g x) = f x) →
  flat_map f (g <$> xs) = flat_map f xs.
Proof.
  intros Hsame. induction xs as [|x xs IH]; [reflexivity|].
  rewrite fmap_cons. cbn [flat_map]. by rewrite Hsame, IH.
Qed.

Lemma find_filter {A} (p : A → bool) (P : A → Prop)
    `{∀ x, Decision (P x)} xs :
  (∀ x, ¬ P x → p x = false) →
  find p (filter P xs) = find p xs.
Proof.
  intros Hskip. induction xs as [|x xs IH]; [reflexivity|].
  rewrite filter_cons. case_decide as Hx; simpl.
  - by rewrite IH.
  - by rewrite (Hskip x Hx).
Qed.

(** *** The [undo] member *)

Lemma isUndo_not_execute prop :
  ¬ isUndo prop = false →
  match prop with
  | Property _ (Identifier _ name) value _ =>
      if decide (name = "execute") then
        if isFunctionLike value then Some value else None
      else None
  | _ => None (A := node)
  end = None.
Proof.
  intros Hundo. apply not_false_is_true in Hundo.
  unfold isUndo in Hundo. apply bool_decide_eq_true in Hundo.
  destruct prop; try reflexivity. destruct prop1; try reflexivity.
  simpl in Hundo. injection Hundo as ->. reflexivity.
Qed.

Lemma getExecuteFromObject_withoutUndo objNode :
  getExecuteFromObject (withoutUndo objNode) = getExecuteFromObject objNode.
Proof.
  destruct objNode; try reflexivity. simpl.
  apply first_return_filter. apply isUndo_not_execute.
Qed.

Lemma returnedObject_withoutUndo stmts :
  returnedObject (withoutUndoStatement <$> stmts) =
    withoutUndo <$> returnedObject stmts.
Proof.
  unfold returnedObject. induction stmts as [|stmt stmts IH]; [reflexivity|].
  rewrite fmap_cons. cbn [first_return]. rewrite IH.
  destruct stmt; try reflexivity.
  destruct argument as [[]|]; reflexivity.
Qed.

(** The execute thunk is found without reading the [undo] members. *)
Lemma findExecuteMethod_eraseUndo factoryNode :
  findExecuteMethod (eraseUndo factoryNode) = findExecuteMethod factoryNode.
Proof.
  assert (Hblock : ∀ stmts,
    match returnedObject (withoutUndoStatement <$> stmts) with
    | Some argument => getExecuteFromObject argument
    | None => None
    end =
    match returnedObject stmts with
    | Some argument => getExecuteFromObject argument
    | None => None
    end).
  { intros stmts. rewrite returnedObject_withoutUndo.
    destruct (returnedObject stmts); simpl; [|reflexivity].
    apply getExecuteFromObject_withoutUndo. }
  destruct factoryNode; try reflexivity.
  - destruct factoryNode; try reflexivity.
    + apply (getExecuteFromObject_withoutUndo (ObjectExpression oid0 properties)).
    + apply Hblock.
  - destruct factoryNode; try reflexivity. apply Hblock.
Qed.

(** C9: the reports for a command depend on its factory only through
    the value of [execute] that [findExecuteMethod] locates; and two
    factories that are the same once the [undo] members of the structures
    they return are taken out have the same execute thunk and get the
    same reports, for the factory alone and as the command of a pair. *)
Theorem C9_undo_not_inspected factory1 factory2 messageName targetStates :
  (findExecuteMethod factory1 = findExecuteMethod factory2 →
   analyzeCommandFactory factory1 messageName targetStates =
     analyzeCommandFactory factory2 messageName targetStates) ∧
  (eraseUndo factory1 = eraseUndo factory2 →
   findExecuteMethod factory1 = findExecuteMethod factory2 ∧
   analyzeCommandFactory factory1 messageName targetStates =
     analyzeCommandFactory factory2 messageName targetStates ∧
   ∀ messageMap i j c,
     checkMessage messageMap (Property i (Identifier j messageName) factory1 c) =
       checkMessage messageMap (Property i (Identifier j messageName) factory2 c)).
Proof.
  assert (Hreports : findExecuteMethod factory1 = findExecuteMethod factory2 →
            ∀ targets, analyzeCommandFactory factory1 messageName targets =
                       analyzeCommandFactory factory2 messageName targets).
  { intros Hexec targets. unfold analyzeCommandFactory. by rewrite Hexec. }
  split; [intros Hexec; by apply Hreports|].
  intros Hsame.
  assert (Hexec : findExecuteMethod factory1 = findExecuteMethod factory2).
  { rewrite <- (findExecuteMethod_eraseUndo factory1),
            <- (findExecuteMethod_eraseUndo factory2).
    by rewrite Hsame. }
  split; [assumption|]. split; [by apply Hreports|].
  intros messageMap i j c. simpl.
  destruct (messageMap !! messageName) as [targets|]; [|reflexivity].
  case_decide; [reflexivity|]. by apply Hreports.
Qed.

(** [() => ({ execute })] against [() => ({ execute, undo: () => {} })] *)
Lemma C9_witness :
  findExecuteMethod (factory alwaysActive) =
    findExecuteMethod (factoryWithUndo alwaysActive) ∧
  analyzeCommandFactory (factory alwaysActive) "activate" ["active"; "idle"] =
    analyzeCommandFactory (factoryWithUndo alwaysActive) "activate" ["active"; "idle"].
Proof.
  pose proof (proj2 (C9_undo_not_inspected (factory alwaysActive)
    (factoryWithUndo alwaysActive) "activate" ["active"; "idle"]) eq_refl)
    as (Hexec & Hreports & _).
  exact (conj Hexec Hreports).
Defined.

(** *** Keys *)

Lemma recordSiteProperty_plain properties :
  configAndCommands (plainMembers properties) = configAndCommands properties.
Proof.
  unfold configAndCommands, plainMembers.
  rewrite fold_left_fmap by (intros acc x; by_brackets x).
  apply fold_left_filter. intros acc x Hkey. by_key x Hkey.
Qed.

Lemma recordState_plain i properties :
  parseStateMachineConfig (ObjectExpression i (plainMembers properties)) =
    parseStateMachineConfig (ObjectExpression i properties).
Proof.
  unfold parseStateMachineConfig, plainMembers.
  rewrite fold_left_fmap by (intros acc x; by_brackets x).
  apply fold_left_filter. intros acc x Hkey. by_key x Hkey.
Qed.

Lemma recordMessage_plain properties :
  messageMapOf (plainMembers properties) = messageMapOf properties.
Proof.
  unfold messageMapOf, plainMembers.
  rewrite fold_left_fmap by (intros acc x; by_brackets x).
  apply fold_left_filter. intros acc x Hkey. by_key x Hkey.
Qed.

Lemma find_fmap {A} (p : A → bool) (g : A → A) xs :
  (∀ x, p (g x) = p x) → find p (g <$> xs) = g <$> find p xs.
Proof.
  intros Hsame. induction xs as [|x xs IH]; [reflexivity|].
  rewrite fmap_cons. cbn [find]. rewrite Hsame.
  by destruct (p x).
Qed.

Lemma isOnProperty_plain properties :
  find isOnProperty (plainMembers properties) =
    uncomputed <$> find isOnProperty properties.
Proof.
  unfold plainMembers.
  rewrite find_fmap by (intros x; by_brackets x). f_equal.
  apply find_filter. intros x Hkey. by_key x Hkey.
Qed.

Lemma checkState_plain i properties transitions :
  checkCommands (ObjectExpression i (plainMembers properties)) transitions =
    checkCommands (ObjectExpression i properties) transitions.
Proof.
  unfold checkCommands, plainMembers.
  rewrite flat_map_fmap by (intros x; by_brackets x).
  apply flat_map_filter. intros x Hkey. by_key x Hkey.
Qed.

Lemma checkMessage_plain messageMap properties :
  flat_map (checkMessage messageMap) (plainMembers properties) =
    flat_map (checkMessage messageMap) properties.
Proof.
  unfold plainMembers.
  rewrite flat_map_fmap by (intros x; by_brackets x).
  apply flat_map_filter. intros x Hkey. by_key x Hkey.
Qed.

Lemma getExecuteFromObject_plain i properties :
  getExecuteFromObject (ObjectExpression i (plainMembers properties)) =
    getExecuteFromObject (ObjectExpression i properties).
Proof.
  unfold getExecuteFromObject, plainMembers.
  rewrite first_return_fmap by (intros x; by_brackets x).
  apply first_return_filter. intros x Hkey. by_key x Hkey.
Qed.

Lemma extractStateId_plain i properties :
  extractStateIdFromExpression (ObjectExpression i (plainMembers properties)) =
    extractStateIdFromExpression (ObjectExpression i properties).
Proof.
  unfold extractStateIdFromExpression, plainMembers.
  rewrite first_return_fmap by (intros x; by_brackets x).
  apply first_return_filter. intros x Hkey. by_key x Hkey.
Qed.

(** C10, as the code has it: every loop of the rule files a member of an
    object literal under the name of its key node when that node is an
    identifier, whether or not the key is written in brackets, and passes
    over every other member (a quoted key, a computed key that is not a
    bare identifier, a spread): [config] and [commands], the states and
    messages of the config and of the commands, [on], [execute] and [id]
    are all read through [plainMembers].  So a state that no member of
    the config has as identifier key is missing from the table, and the
    commands of a state that is missing from the table are not
    analysed. *)
Theorem C10_identifier_keys i properties :
  configAndCommands (plainMembers properties) = configAndCommands properties ∧
  parseStateMachineConfig (ObjectExpression i (plainMembers properties)) =
    parseStateMachineConfig (ObjectExpression i properties) ∧
  find isOnProperty (plainMembers properties) =
    uncomputed <$> find isOnProperty properties ∧
  messageMapOf (plainMembers properties) = messageMapOf properties ∧
  (∀ transitions,
     checkCommands (ObjectExpression i (plainMembers properties)) transitions =
       checkCommands (ObjectExpression i properties) transitions) ∧
  (∀ messageMap,
     flat_map (checkMessage messageMap) (plainMembers properties) =
       flat_map (checkMessage messageMap) properties) ∧
  getExecuteFromObject (ObjectExpression i (plainMembers properties)) =
    getExecuteFromObject (ObjectExpression i properties) ∧
  extractStateIdFromExpression (ObjectExpression i (plainMembers properties)) =
    extractStateIdFromExpression (ObjectExpression i properties) ∧
  (∀ stateName,
     Forall (λ q, keyName q ≠ Some stateName) properties →
     parseStateMachineConfig (ObjectExpression i properties) !! stateName = None) ∧
  (∀ transitions stateName j k value c,
     transitions !! stateName = None →
     checkState transitions (Property j (Identifier k stateName) value c) = []).
Proof.
  split; [apply recordSiteProperty_plain|].
  split; [apply recordState_plain|].
  split; [apply isOnProperty_plain|].
  split; [apply recordMessage_plain|].
  split; [intros transitions; apply checkState_plain|].
  split; [intros messageMap; apply checkMessage_plain|].
  split; [apply getExecuteFromObject_plain|].
  split; [apply extractStateId_plain|].
  split.
  - intros stateName Hother. simpl.
    by rewrite (fold_recordState_other _ _ _ Hother).
  - intros transitions stateName j k value c Hmissing. simpl.
    destruct value; try reflexivity. by rewrite Hmissing.
Qed.

(** The state with the quoted key ['idle'] leaves the table empty. *)
Lemma C10_witness : parseStateMachineConfig quotedKeyConfig = ∅.
Proof.
  unfold quotedKeyConfig.
  rewrite <- (proj1 (proj2 (C10_identifier_keys 9 _))).
  reflexivity.
Defined.

(** The state with the computed key [[idle]] is in the table, and the
    command under the computed keys [[idle]] and [[go]] is analysed and
    reported. *)
Lemma C10_counterexample :
  parseStateMachineConfig computedKeyConfig !! "idle" = Some {[ "go" := ["a"; "b"] ]} ∧
  create_NewExpression computedKeySite =
    [Report alwaysActive alwaysSameState "go" "2" "a, b" "active"].
Proof. split; vm_compute; reflexivity. Qed.

(** *** The scenarios of the specification, through the listener *)

(** Scenario A: two targets declared, the thunk always returns [active]. *)
Example scenario_A :
  create_NewExpression
    (machine (declares "idle" "activate" ["active"; "idle"])
             (implements "idle" "activate" (factory alwaysActive))) =
    [Report alwaysActive alwaysSameState "activate" "2" "active, idle" "active"].
Proof. vm_compute. reflexivity. Qed.

(** Scenario B: the thunk returns [idle] on one path and [active] on the
    other. *)
Example scenario_B :
  create_NewExpression
    (machine (declares "idle" "activate" ["active"; "idle"])
             (implements "idle" "activate" (factory guardedThunk))) = [].
Proof. vm_compute. reflexivity. Qed.

(** Scenario C: three targets declared, the branches return [a] and [b]. *)
Example scenario_C :
  create_NewExpression
    (machine (declares "s" "go" ["a"; "b"; "c"])
             (implements "s" "go" (factory ifThunk))) =
    [Report ifThunk missingUnionReturn "go" "3" "a, b, c" "a, b"].
Proof. vm_compute. reflexivity. Qed.

(** Scenario D: one literal is retained, no check runs. *)
Example scenario_D :
  create_NewExpression
    (machine oneLiteralConfig (implements "idle" "go" (factory alwaysActive))) = [].
Proof. vm_compute. reflexivity. Qed.

(** The same returns below the cases of a [switch] are not seen: with
    three targets declared nothing is reported for the thunk that
    returns [a] and [b] only. *)
Example scenario_switch :
  create_NewExpression
    (machine (declares "s" "go" ["a"; "b"; "c"])
             (implements "s" "go" (factory switchThunk))) = [].
Proof. vm_compute. reflexivity. Qed.

(** ** Further facts *)

(** *** The walk, node by node *)

Lemma walkedNodes_unfold n :
  walkedNodes n = n :: flat_map walkedNodes (followed n).
Proof.
  destruct n; simpl; rewrite ?app_nil_r; try reflexivity.
  - destruct argument; simpl; by rewrite ?app_nil_r.
  - destruct alternate; simpl; by rewrite ?app_nil_r.
Qed.

Lemma omap_flat_map {A B C} (f : B → option C) (g : A → list B) l :
  omap f (flat_map g l) = flat_map (λ x, omap f (g x)) l.
Proof.
  induction l as [|x l IH]; [reflexivity|].
  simpl. by rewrite omap_app, IH.
Qed.

Lemma returnedIds_unfold n :
  returnedIds n = option_list (stateIdAt n) ++ flat_map returnedIds (followed n).
Proof.
  unfold returnedIds. rewrite walkedNodes_unfold. simpl.
  rewrite omap_flat_map. by destruct (stateIdAt n).
Qed.

Lemma addAll_app ids l k : addAll ids (l ++ k) = addAll (addAll ids l) k.
Proof. apply fold_left_app. Qed.

(** The mark and the return value of the node itself. *)
Lemma visit_start_stateIds n w :
  stateIds (match returnValue n with
            | Some e => addStateId e (Walk ({[identity n]} ∪ visited w) (stateIds w))
            | None => Walk ({[identity n]} ∪ visited w) (stateIds w)
            end) = addAll (stateIds w) (option_list (stateIdAt n)).
Proof.
  unfold stateIdAt, addStateId. destruct (returnValue n) as [e|]; [|reflexivity].
  destruct (extractStateIdFromExpression e) as [s|]; [|reflexivity].
  by case_decide.
Qed.

Lemma visit_start_visited n w :
  visited (match returnValue n with
           | Some e => addStateId e (Walk ({[identity n]} ∪ visited w) (stateIds w))
           | None => Walk ({[identity n]} ∪ visited w) (stateIds w)
           end) = {[identity n]} ∪ visited w.
Proof. destruct (returnValue n); by rewrite ?addStateId_visited. Qed.

(** The walk over a list of children with identities of their own, all
    new to the walk. *)
Lemma fold_visit_distinct l :
  Forall (λ c, ∀ w,
    NoDup (identity <$> walkedNodes c) →
    (∀ d, d ∈ walkedNodes c → identity d ∉ visited w) →
    stateIds (visit c w) = addAll (stateIds w) (returnedIds c) ∧
    ∀ i, i ∈ visited (visit c w) →
         i ∈ visited w ∨ i ∈ identity <$> walkedNodes c) l →
  ∀ w,
    NoDup (identity <$> flat_map walkedNodes l) →
    (∀ d, d ∈ flat_map walkedNodes l → identity d ∉ visited w) →
    stateIds (fold_left (λ w c, visit c w) l w) =
      addAll (stateIds w) (flat_map returnedIds l) ∧
    ∀ i, i ∈ visited (fold_left (λ w c, visit c w) l w) →
         i ∈ visited w ∨ i ∈ identity <$> flat_map walkedNodes l.
Proof.
  induction 1 as [|c l Hc _ IH]; intros w Hdistinct Hnew; simpl.
  { split; [reflexivity|]. intros i Hi. by left. }
  simpl in Hdistinct, Hnew. rewrite fmap_app in Hdistinct.
  apply NoDup_app in Hdistinct as (Hfirst & Hapart & Hrest).
  destruct (Hc w Hfirst) as [Hids Hmarks].
  { intros d Hd. apply Hnew, elem_of_app. by left. }
  destruct (IH (visit c w) Hrest) as [Hids' Hmarks'].
  { intros d Hd Hseen. apply Hmarks in Hseen as [Hold | Hmine].
    - apply (Hnew d); [apply elem_of_app; by right | assumption].
    - apply (Hapart _ Hmine). by apply list_elem_of_fmap_2. }
  split.
  - by rewrite Hids', Hids, addAll_app.
  - intros i Hi. rewrite fmap_app, elem_of_app.
    apply Hmarks' in Hi as [Hi | Hi]; [|tauto].
    apply Hmarks in Hi. tauto.
Qed.

(** On nodes with identities of their own, all of them new to the walk,
    [visit] adds the identifiers of the walked nodes in their order and
    marks no other node. *)
Lemma visit_distinct n :
  ∀ w,
    NoDup (identity <$> walkedNodes n) →
    (∀ d, d ∈ walkedNodes n → identity d ∉ visited w) →
    stateIds (visit n w) = addAll (stateIds w) (returnedIds n) ∧
    ∀ i, i ∈ visited (visit n w) →
         i ∈ visited w ∨ i ∈ identity <$> walkedNodes n.
Proof.
  induction n as [n IH] using node_children_ind. intros w Hdistinct Hnew.
  rewrite visit_unfold. case_decide as Hseen.
  { exfalso. apply (Hnew n); [|assumption]. rewrite walkedNodes_unfold. left. }
  cbv zeta. rewrite returnedIds_unfold, addAll_app, <- visit_start_stateIds.
  rewrite walkedNodes_unfold in Hdistinct, Hnew |- *.
  rewrite fmap_cons in Hdistinct. apply NoDup_cons in Hdistinct as [Hself Hbelow].
  destruct (fold_visit_distinct (followed n)) with
    (w := match returnValue n with
          | Some e => addStateId e (Walk ({[identity n]} ∪ visited w) (stateIds w))
          | None => Walk ({[identity n]} ∪ visited w) (stateIds w)
          end) as [Hids Hmarks].
  - rewrite Forall_forall in IH |- *. intros c Hc.
    apply IH. by apply followed_children.
  - assumption.
  - intros d Hd. rewrite visit_start_visited.
    intros [Hn%elem_of_singleton | Hw]%elem_of_union.
    + apply Hself. rewrite <- Hn. by apply list_elem_of_fmap_2.
    + apply (Hnew d); [by right | assumption].
  - split; [assumption|].
    intros i Hi. apply Hmarks in Hi as [Hi | Hi].
    + rewrite visit_start_visited in Hi.
      apply elem_of_union in Hi as [Hn%elem_of_singleton | Hw]; [|by left].
      right. rewrite fmap_cons. subst. left.
    + right. rewrite fmap_cons. by right.
Qed.

(** X1: in a thunk whose walked nodes are objects of their own (a tree as
    the parser builds it), the returned-state set is the identifiers at
    the walked return sites, each at its first occurrence in the order of
    the walk. *)
Theorem X1_returned_ids_in_walk_order funcNode :
  NoDup (identity <$> walkedNodes funcNode) →
  findReturnedStateIds funcNode = addAll [] (returnedIds funcNode).
Proof.
  intros Hdistinct. unfold findReturnedStateIds.
  destruct (visit_distinct funcNode (Walk ∅ []) Hdistinct) as [Hids _];
    [|exact Hids].
  intros d _. simpl. apply not_elem_of_empty.
Qed.

Lemma X1_witness :
  findReturnedStateIds guardedThunk = ["idle"; "active"].
Proof.
  rewrite (X1_returned_ids_in_walk_order guardedThunk); [reflexivity|].
  apply (bool_decide_unpack (NoDup _)). vm_compute. exact I.
Defined.

(** *** The walk with shared subtrees *)

Lemma elem_of_flat_map {A B} (f : A → list B) l y :
  y ∈ flat_map f l ↔ ∃ x, x ∈ l ∧ y ∈ f x.
Proof.
  induction l as [|x l IH]; simpl.
  - split; [intros []%elem_of_nil | intros (x & []%elem_of_nil & _)].
  - rewrite elem_of_app, IH. split.
    + intros [Hy | (z & Hz & Hy)]; [exists x | exists z]; split;
        (assumption || by left || by right).
    + intros (z & [-> | Hz]%elem_of_cons & Hy); [by left | right; by exists z].
Qed.

Lemma walkedNodes_self n : n ∈ walkedNodes n.
Proof. rewrite walkedNodes_unfold. left. Qed.

Lemma walkedNodes_followed n c d :
  c ∈ followed n → d ∈ walkedNodes c → d ∈ walkedNodes n.
Proof.
  intros Hc Hd. rewrite (walkedNodes_unfold n). right.
  apply elem_of_flat_map. by exists c.
Qed.

Lemma walkedNodes_trans n : ∀ m d, m ∈ walkedNodes n → d ∈ walkedNodes m → d ∈ walkedNodes n.
Proof.
  induction n as [n IH] using node_children_ind. intros m d Hm Hd.
  rewrite walkedNodes_unfold in Hm. apply elem_of_cons in Hm as [-> | Hm];
    [assumption|].
  apply elem_of_flat_map in Hm as (c & Hc & Hm).
  apply (walkedNodes_followed n c); [assumption|].
  rewrite Forall_forall in IH. eapply IH; eauto. by apply followed_children.
Qed.

Lemma set_add_keeps s x ids : x ∈ ids → x ∈ set_add s ids.
Proof.
  intros Hx. unfold set_add. case_decide; [assumption|].
  apply elem_of_app. by left.
Qed.

Lemma set_add_adds s ids : s ∈ set_add s ids.
Proof.
  unfold set_add. case_decide; [assumption|].
  apply elem_of_app. right. by apply list_elem_of_singleton.
Qed.

Lemma visit_keeps_stateIds s n w : s ∈ stateIds w → s ∈ stateIds (visit n w).
Proof.
  apply (visit_invariant (λ w, s ∈ stateIds w) (λ _, True)); auto.
  intros e w' _ Hs. unfold addStateId.
  destruct (extractStateIdFromExpression e); [|assumption].
  case_decide; [assumption|]. simpl. by apply set_add_keeps.
Qed.

Lemma fold_visit_keeps_stateIds s l w :
  s ∈ stateIds w → s ∈ stateIds (fold_left (λ w c, visit c w) l w).
Proof.
  revert w. induction l as [|c l IH]; intros w Hw; simpl; [assumption|].
  apply IH. by apply visit_keeps_stateIds.
Qed.

Lemma fold_visit_marks l w c :
  c ∈ l → identity c ∈ visited (fold_left (λ w c, visit c w) l w).
Proof.
  revert w. induction l as [|x l IH]; intros w Hc; [by apply elem_of_nil in Hc|].
  simpl. apply elem_of_cons in Hc as [-> | Hc].
  - apply fold_visit_keeps_visited, visit_marks.
  - by apply IH.
Qed.

Lemma finished_visit m n w : finished m w → finished m (visit n w).
Proof.
  intros [Hids Hmarks]. split.
  - intros s Hs. by apply visit_keeps_stateIds, Hids.
  - intros c Hc. by apply visit_keeps_visited, Hmarks.
Qed.

Section Shared.

Variable root : node.
Hypothesis same_identity_same_node :
  ∀ a b, a ∈ walkedNodes root → b ∈ walkedNodes root →
         identity a = identity b → a = b.

Lemma visit_settled n :
  ∀ stack w,
    n ∈ walkedNodes root → settled root stack w → settled root stack (visit n w).
Proof.
  induction n as [n IH] using node_children_ind. intros stack w Hn Hw.
  rewrite visit_unfold. case_decide as Hseen; [assumption|]. cbv zeta.
  set (w0 := match returnValue n with
             | Some e => addStateId e (Walk ({[identity n]} ∪ visited w) (stateIds w))
             | None => Walk ({[identity n]} ∪ visited w) (stateIds w)
             end).
  assert (Hvisited0 : visited w0 = {[identity n]} ∪ visited w)
    by apply visit_start_visited.
  assert (Hids0 : stateIds w0 = addAll (stateIds w) (option_list (stateIdAt n)))
    by apply visit_start_stateIds.
  assert (Hgrow : ∀ s, s ∈ stateIds w → s ∈ stateIds w0).
  { intros s Hs. rewrite Hids0. destruct (stateIdAt n); simpl; [|assumption].
    by apply set_add_keeps. }
  assert (Hw0 : settled root (n :: stack) w0).
  { intros m Hm Hmarked. rewrite Hvisited0 in Hmarked.
    apply elem_of_union in Hmarked as [Hself%elem_of_singleton | Hold].
    - left. rewrite (same_identity_same_node m n Hm Hn Hself). left.
    - destruct (Hw m Hm Hold) as [Hstack | [Hids Hmarks]].
      + left. by right.
      + right. split.
        * intros s Hs. by apply Hgrow, Hids.
        * intros c Hc. rewrite Hvisited0. apply elem_of_union. right. by apply Hmarks. }
  assert (Hown : ∀ s, stateIdAt n = Some s → s ∈ stateIds w0).
  { intros s Hs. rewrite Hids0, Hs. simpl. apply set_add_adds. }
  assert (Hfold : settled root (n :: stack)
            (fold_left (λ w c, visit c w) (followed n) w0)).
  { assert (Hchildren : ∀ c, c ∈ followed n → c ∈ walkedNodes root).
    { intros c Hc. apply (walkedNodes_trans root n c Hn).
      apply (walkedNodes_followed n c); [assumption | apply walkedNodes_self]. }
    assert (IH' : ∀ c, c ∈ followed n → ∀ stack w,
              c ∈ walkedNodes root → settled root stack w →
              settled root stack (visit c w)).
    { rewrite Forall_forall in IH. intros c Hc. by apply IH, followed_children. }
    clear IH Hvisited0 Hids0 Hgrow Hown. revert Hw0. generalize w0.
    induction (followed n) as [|c l IHl]; intros w' Hw'; simpl; [assumption|].
    apply IHl.
    - intros x Hx. apply Hchildren. by right.
    - intros x Hx. apply IH'. by right.
    - apply IH'; [left | apply Hchildren; left | assumption]. }
  intros m Hm Hmarked.
  destruct (Hfold m Hm Hmarked) as [[-> | Hstack]%elem_of_cons | Hdone];
    [|by left|by right].
  right. split.
  - intros s Hs. by apply fold_visit_keeps_stateIds, Hown.
  - intros c Hc. by apply fold_visit_marks.
Qed.

(** After the walk every walked node is marked and finished. *)
Lemma walk_finishes d :
  d ∈ walkedNodes root →
  identity d ∈ visited (visit root (Walk ∅ [])) ∧
  finished d (visit root (Walk ∅ [])).
Proof.
  assert (Hsettled : settled root [] (visit root (Walk ∅ []))).
  { apply visit_settled; [apply walkedNodes_self|].
    intros m _ Hm. simpl in Hm. by apply not_elem_of_empty in Hm. }
  assert (Hdone : ∀ m, m ∈ walkedNodes root →
            identity m ∈ visited (visit root (Walk ∅ [])) →
            finished m (visit root (Walk ∅ []))).
  { intros m Hm Hmarked.
    destruct (Hsettled m Hm Hmarked) as [Hnil | Hfin]; [|assumption].
    by apply elem_of_nil in Hnil. }
  assert (Hall : ∀ n, ∀ d, n ∈ walkedNodes root →
            identity n ∈ visited (visit root (Walk ∅ [])) →
            d ∈ walkedNodes n →
            identity d ∈ visited (visit root (Walk ∅ []))).
  { induction n as [n IH] using node_children_ind. intros x Hn Hmarked Hx.
    rewrite walkedNodes_unfold in Hx. apply elem_of_cons in Hx as [-> | Hx];
      [assumption|].
    apply elem_of_flat_map in Hx as (c & Hc & Hx).
    rewrite Forall_forall in IH.
    apply (IH c); [by apply followed_children | | | assumption].
    - apply (walkedNodes_trans root n c Hn).
      apply (walkedNodes_followed n c); [assumption | apply walkedNodes_self].
    - by apply (Hdone n Hn Hmarked). }
  intros Hd.
  assert (Hmarked : identity d ∈ visited (visit root (Walk ∅ []))).
  { apply (Hall root); [apply walkedNodes_self | apply visit_marks | assumption]. }
  split; [assumption | by apply Hdone].
Qed.

End Shared.

Lemma fold_visit_stateIds_walked l :
  (∀ c, c ∈ l → ∀ w s,
     s ∈ stateIds (visit c w) → s ∈ stateIds w ∨ s ∈ returnedIds c) →
  ∀ w s,
    s ∈ stateIds (fold_left (λ w c, visit c w) l w) →
    s ∈ stateIds w ∨ s ∈ flat_map returnedIds l.
Proof.
  induction l as [|c l IH]; intros Hl w s; simpl; [by left|].
  intros Hs. rewrite elem_of_app.
  apply IH in Hs as [Hs | Hs]; [| tauto | intros x Hx; apply Hl; by right].
  apply Hl in Hs; [tauto | left].
Qed.

(** Whatever the identities are, an identifier of the set is the
    identifier at a walked node. *)
Lemma visit_stateIds_walked n :
  ∀ w s, s ∈ stateIds (visit n w) → s ∈ stateIds w ∨ s ∈ returnedIds n.
Proof.
  induction n as [n IH] using node_children_ind. intros w s.
  rewrite visit_unfold. case_decide; [by left|]. cbv zeta.
  rewrite returnedIds_unfold, elem_of_app. intros Hs.
  apply fold_visit_stateIds_walked in Hs as [Hs | Hs]; [|tauto|].
  - rewrite visit_start_stateIds in Hs.
    destruct (stateIdAt n) as [y|]; simpl in *; [|by left].
    apply elem_of_set_add in Hs as [-> | Hs]; [right; left; left | by left].
  - rewrite Forall_forall in IH. intros c Hc. by apply IH, followed_children.
Qed.

(** X2: in a thunk where two walked nodes with the same identity are the
    same node (shared subtrees allowed), the returned-state set holds
    exactly the identifiers at the walked return sites: the guard skips
    a shared subtree without losing an identifier. *)
Theorem X2_returned_ids_with_sharing funcNode s :
  (∀ a b, a ∈ walkedNodes funcNode → b ∈ walkedNodes funcNode →
          identity a = identity b → a = b) →
  s ∈ findReturnedStateIds funcNode ↔ s ∈ returnedIds funcNode.
Proof.
  intros Hsame. unfold findReturnedStateIds. split.
  - intros Hs. apply visit_stateIds_walked in Hs as [Hs | Hs]; [|assumption].
    simpl in Hs. by apply elem_of_nil in Hs.
  - intros Hs. apply list_elem_of_omap in Hs as (d & Hd & Hs).
    destruct (walk_finishes funcNode Hsame d Hd) as [_ [Hids _]].
    by apply Hids.
Qed.

Lemma same_identity_Forall (l : list node) :
  Forall (λ a, Forall (λ b, identity a = identity b → a = b) l) l →
  ∀ a b, a ∈ l → b ∈ l → identity a = identity b → a = b.
Proof.
  intros Hall a b Ha Hb. rewrite Forall_forall in Hall.
  specialize (Hall a Ha). rewrite Forall_forall in Hall. by apply Hall.
Qed.

Lemma X2_witness :
  "a" ∈ findReturnedStateIds sharedThunk ↔ "a" ∈ returnedIds sharedThunk.
Proof.
  apply (X2_returned_ids_with_sharing sharedThunk "a").
  apply same_identity_Forall. cbn.
  repeat constructor; intros Hid; first [reflexivity | discriminate Hid].
Defined.

(** *** Reports *)

Lemma join_singleton s : join [s] = s.
Proof. reflexivity. Qed.

(** Every report of [analyzeCommandFactory] is anchored at the located
    thunk and tells how many states were observed. *)
Lemma analyzeCommandFactory_report factoryNode messageName targetStates r :
  r ∈ analyzeCommandFactory factoryNode messageName targetStates →
  findExecuteMethod factoryNode = Some (report_node r) ∧
  data_message r = messageName ∧
  data_count r = pretty (length targetStates) ∧
  data_states r = join targetStates ∧
  data_actualState r = join (findReturnedStateIds (report_node r)) ∧
  0 < length (findReturnedStateIds (report_node r)) ∧
  (length (findReturnedStateIds (report_node r)) = 1 ∨
   length (findReturnedStateIds (report_node r)) < length targetStates) ∧
  (report_messageId r = alwaysSameState ↔
   length (findReturnedStateIds (report_node r)) = 1).
Proof.
  unfold analyzeCommandFactory.
  destruct (findExecuteMethod factoryNode) as [executeFunc|];
    [|by intros ?%elem_of_nil].
  cbv zeta. case_decide as Hone.
  - intros ->%list_elem_of_singleton. simpl.
    destruct (findReturnedStateIds executeFunc) as [|s [|? ?]]; try done.
    repeat split; auto with lia.
  - case_decide as Hsome; [|by intros ?%elem_of_nil].
    intros ->%list_elem_of_singleton. simpl.
    repeat split; auto with lia; done.
Qed.

(** X4: whatever the commands and the table are, every report of
    [checkCommands] is for a message that the table declares, under some
    state, with two targets or more; it carries the count and the list
    of that declaration, is anchored at a function inside the commands,
    and the thunk at its anchor returns at least one and fewer states
    than declared; the report is [alwaysSameState] exactly when the
    thunk returns one state. *)
Theorem X4_reports_are_grounded commandsNode transitions r :
  r ∈ checkCommands commandsNode transitions →
  ∃ stateName messageMap targetStates,
    transitions !! stateName = Some messageMap ∧
    messageMap !! data_message r = Some targetStates ∧
    2 ≤ length targetStates ∧
    data_count r = pretty (length targetStates) ∧
    data_states r = join targetStates ∧
    isFunctionLike (report_node r) = true ∧
    descendant commandsNode (report_node r) ∧
    0 < length (findReturnedStateIds (report_node r)) < length targetStates ∧
    data_actualState r = join (findReturnedStateIds (report_node r)) ∧
    (report_messageId r = alwaysSameState ↔
     length (findReturnedStateIds (report_node r)) = 1).
Proof.
  destruct commandsNode as [| | |o properties| | | | | | | | | | | | | | | | | | |];
    try (by intros ?%elem_of_nil).
  simpl. intros (stateProp & HstateProp & Hr)%elem_of_flat_map.
  destruct stateProp as [| | | |i key value c| | | | | | | | | | | | | | | | | |];
    try (by apply elem_of_nil in Hr).
  destruct key as [j stateName| | | | | | | | | | | | | | | | | | | | | |];
    try (by apply elem_of_nil in Hr).
  destruct value as [| | |o' msgProps| | | | | | | | | | | | | | | | | | |];
    try (by apply elem_of_nil in Hr).
  simpl in Hr.
  destruct (transitions !! stateName) as [messageMap|] eqn:Hstate;
    [|by apply elem_of_nil in Hr].
  apply elem_of_flat_map in Hr as (msgProp & HmsgProp & Hr).
  destruct msgProp as [| | | |i' key' factoryNode c'| | | | | | | | | | | | | | | | | |];
    try (by apply elem_of_nil in Hr).
  destruct key' as [j' messageName| | | | | | | | | | | | | | | | | | | | | |];
    try (by apply elem_of_nil in Hr).
  simpl in Hr.
  destruct (messageMap !! messageName) as [targetStates|] eqn:Hmessage;
    [|by apply elem_of_nil in Hr].
  case_decide as Hshort; [by apply elem_of_nil in Hr|].
  apply analyzeCommandFactory_report in Hr
    as (Hexec & Hname & Hcount & Hstates & Hactual & Hpos & Hsize & Hkind).
  apply findExecuteMethod_Some in Hexec as [Hfun Hbelow].
  exists stateName, messageMap, targetStates.
  rewrite Hname. repeat split; try assumption; try lia; try (by apply Hkind).
  eapply descendant_step; [exact HstateProp|].
  eapply descendant_step; [simpl; right; left|].
  eapply descendant_step; [exact HmsgProp|].
  eapply descendant_step; [simpl; right; left|]. exact Hbelow.
Qed.

Lemma X4_witness :
  ∃ stateName messageMap targetStates,
    ({[ "s" := threeTargets ]} : gmap string (gmap string (list string)))
      !! stateName = Some messageMap ∧
    messageMap !! "go" = Some targetStates ∧
    2 ≤ length targetStates ∧
    "3" = pretty (length targetStates) ∧
    "a, b, c" = join targetStates ∧
    isFunctionLike ifThunk = true ∧
    descendant (implements "s" "go" (factory ifThunk)) ifThunk ∧
    0 < length (findReturnedStateIds ifThunk) < length targetStates ∧
    "a, b" = join (findReturnedStateIds ifThunk) ∧
    (missingUnionReturn = alwaysSameState ↔
     length (findReturnedStateIds ifThunk) = 1).
Proof.
  apply (X4_reports_are_grounded (implements "s" "go" (factory ifThunk))
           {[ "s" := threeTargets ]}
           (Report ifThunk missingUnionReturn "go" "3" "a, b, c" "a, b")).
  vm_compute. left.
Defined.

(** A collected set that is the set of declared targets is shorter than
    a list that declares one of them twice. *)
Lemma repeated_target_length (targetStates returned : list string) :
  NoDup returned → ¬ NoDup targetStates →
  (∀ t, t ∈ targetStates ↔ t ∈ returned) →
  0 < length returned < length targetStates.
Proof.
  intros Hdistinct Hrepeated Hsame.
  assert (returned ⊆+ targetStates) as Hsub.
  { apply NoDup_submseteq; [assumption|]. intros t. apply Hsame. }
  split.
  - destruct targetStates as [|t targetStates]; [by destruct Hrepeated; constructor|].
    destruct returned; [|simpl; lia].
    assert (t ∈ @nil string) as Ht by (apply Hsame; left).
    by apply elem_of_nil in Ht.
  - destruct (decide (length targetStates ≤ length returned)) as [Hlong|]; [|lia].
    destruct Hrepeated.
    rewrite <- (submseteq_length_Permutation _ _ Hsub Hlong). assumption.
Qed.

(** X3: the declared targets of a message against the set that the walk
    collects from the execute thunk of its command.  When no target is
    declared twice and the collected set contains every declared target,
    nothing is reported.  When a target is declared twice and the collected
    set is exactly the set of declared targets, the command is reported
    once, at the thunk: the declared count includes the repetition. *)
Theorem X3_covering_thunk_is_silent
    messageMap i j c messageName factoryNode targetStates :
  messageMap !! messageName = Some targetStates →
  (NoDup targetStates →
   (∀ executeFunc t,
      findExecuteMethod factoryNode = Some executeFunc →
      t ∈ targetStates → t ∈ findReturnedStateIds executeFunc) →
   checkMessage messageMap (Property i (Identifier j messageName) factoryNode c) = []) ∧
  (¬ NoDup targetStates →
   ∀ executeFunc,
     findExecuteMethod factoryNode = Some executeFunc →
     (∀ t, t ∈ targetStates ↔ t ∈ findReturnedStateIds executeFunc) →
     ∃ r,
       checkMessage messageMap
         (Property i (Identifier j messageName) factoryNode c) = [r] ∧
       report_node r = executeFunc ∧
       data_message r = messageName ∧
       data_count r = pretty (length targetStates) ∧
       data_states r = join targetStates ∧
       data_actualState r = join (findReturnedStateIds executeFunc) ∧
       (report_messageId r = alwaysSameState ↔
        length (findReturnedStateIds executeFunc) = 1)).
Proof.
  intros Hdeclared. split.
  - intros Hdistinct Hcovers. simpl. rewrite Hdeclared.
    case_decide as Hshort; [reflexivity|].
    destruct (findExecuteMethod factoryNode) as [executeFunc|] eqn:Hexec;
      [|by apply analyze_no_execute].
    apply (analyze_enough _ _ _ _ Hexec); [lia|].
    apply submseteq_length, NoDup_submseteq; [assumption|].
    intros t Ht. by apply (Hcovers executeFunc t).
  - intros Hrepeated executeFunc Hexec Hsame.
    pose proof (repeated_target_length targetStates
                  (findReturnedStateIds executeFunc)
                  (findReturnedStateIds_NoDup executeFunc) Hrepeated Hsame)
      as [Hpos Hless].
    rewrite (checkMessage_tracked _ _ _ _ _ _ _ Hdeclared) by lia.
    destruct (findReturnedStateIds executeFunc) as [|S [|S' returned]] eqn:Hset.
    + simpl in Hpos. lia.
    + eexists. split; [by apply analyze_one|]. by rewrite join_singleton.
    + eexists. split; [apply (analyze_some _ _ _ _ Hexec); rewrite Hset; simpl in *; lia|].
      rewrite Hset. repeat split; try reflexivity; simpl; intros; (discriminate || lia).
Qed.

Lemma X3_witness :
  checkMessage twoTargets (member 50 "go" (factory ifThunk)) = [] ∧
  ∃ r,
    checkMessage repeatedTargets (member 50 "go" (factory ifThunk)) = [r] ∧
    report_node r = ifThunk ∧
    data_message r = "go" ∧
    data_count r = pretty (length ["a"; "a"; "b"]) ∧
    data_states r = join ["a"; "a"; "b"] ∧
    data_actualState r = join (findReturnedStateIds ifThunk) ∧
    (report_messageId r = alwaysSameState ↔
     length (findReturnedStateIds ifThunk) = 1).
Proof.
  split.
  - apply (X3_covering_thunk_is_silent twoTargets 50 51 false "go"
             (factory ifThunk) ["a"; "b"]).
    + vm_compute. reflexivity.
    + apply (bool_decide_unpack (NoDup _)). vm_compute. exact I.
    + intros executeFunc t [= <-] Ht. vm_compute.
      apply elem_of_cons in Ht as [-> | Ht]; [left|].
      apply elem_of_cons in Ht as [-> | Ht]; [right; left|].
      by apply elem_of_nil in Ht.
  - apply (X3_covering_thunk_is_silent repeatedTargets 50 51 false "go"
             (factory ifThunk) ["a"; "a"; "b"]).
    + vm_compute. reflexivity.
    + intros Hdistinct. apply NoDup_cons in Hdistinct as [Hfresh _].
      apply Hfresh. left.
    + vm_compute. reflexivity.
    + intros t.
      assert (findReturnedStateIds ifThunk = ["a"; "b"]) as ->
        by (vm_compute; reflexivity).
      rewrite !elem_of_cons, !elem_of_nil. tauto.
Defined.

(** With a target declared twice the count is one too many: the thunk
    that returns [a] and [b] is reported against [['a', 'a', 'b']]. *)
Example repeated_target_is_reported :
  checkMessage repeatedTargets (member 50 "go" (factory ifThunk)) =
    [Report ifThunk missingUnionReturn "go" "3" "a, a, b" "a, b"].
Proof. vm_compute. reflexivity. Qed.

(** *** Loops that stop at the first match, loops where the last match wins *)

Lemma first_return_first {A B} (f : A → option B) before x after y :
  Forall (λ z, f z = None) before → f x = Some y →
  first_return f (before ++ x :: after) = Some y.
Proof.
  intros Hbefore Hx. induction Hbefore as [|z before Hz _ IH]; simpl.
  - by rewrite Hx.
  - by rewrite Hz.
Qed.

Lemma first_return_None {A B} (f : A → option B) xs :
  first_return f xs = None ↔ Forall (λ z, f z = None) xs.
Proof.
  induction xs as [|x xs IH]; simpl; [by split; [constructor|]|].
  destruct (f x) eqn:Hx.
  - split; [discriminate|]. intros [Hnone _]%Forall_cons. congruence.
  - rewrite IH. split; [by constructor | by intros [_ ?]%Forall_cons].
Qed.

Lemma isObjectReturn_false stmt :
  isObjectReturn stmt = false →
  match stmt with
  | ReturnStatement _ (Some (ObjectExpression _ _ as argument)) => Some argument
  | _ => None
  end = None.
Proof. destruct stmt as [| | | | | | | | | | | | | | | |? [[]|]| | | | | |]; done. Qed.

Lemma returnedObject_first before k argument after :
  Forall (λ stmt, isObjectReturn stmt = false) before →
  isObjectReturn (ReturnStatement k (Some argument)) = true →
  returnedObject (before ++ ReturnStatement k (Some argument) :: after) =
    Some argument.
Proof.
  intros Hbefore Hobject. unfold returnedObject.
  apply first_return_first.
  - eapply Forall_impl; [exact Hbefore|]. intros stmt. apply isObjectReturn_false.
  - by destruct argument.
Qed.

Lemma returnedObject_None stmts :
  Forall (λ stmt, isObjectReturn stmt = false) stmts →
  returnedObject stmts = None.
Proof.
  intros Hnone. apply first_return_None.
  eapply Forall_impl; [exact Hnone|]. intros stmt. apply isObjectReturn_false.
Qed.

(** X5: in a factory with a block body the first top-level
    [return { ... };] decides: the [execute] member is looked for in that
    object literal only, whatever follows it, also when the object has
    no [execute] and a later [return] has one; and a block without such
    a statement at its top level has no execute thunk. *)
Theorem X5_first_object_return_decides i params j before k l properties after :
  Forall (λ stmt, isObjectReturn stmt = false) before →
  findExecuteMethod
    (ArrowFunctionExpression i params
       (BlockStatement j
          (before ++ ReturnStatement k (Some (ObjectExpression l properties)) :: after))) =
    getExecuteFromObject (ObjectExpression l properties) ∧
  findExecuteMethod
    (FunctionExpression i params
       (BlockStatement j
          (before ++ ReturnStatement k (Some (ObjectExpression l properties)) :: after))) =
    getExecuteFromObject (ObjectExpression l properties) ∧
  findExecuteMethod (ArrowFunctionExpression i params (BlockStatement j before)) = None ∧
  findExecuteMethod (FunctionExpression i params (BlockStatement j before)) = None.
Proof.
  intros Hbefore.
  pose proof (returnedObject_first before k (ObjectExpression l properties) after
                Hbefore eq_refl) as Hfirst.
  pose proof (returnedObject_None before Hbefore) as Hnone.
  cbn [findExecuteMethod]. rewrite Hfirst, Hnone. done.
Qed.

(** [({ message }) => { log(message); return {}; return { execute: ... }; }]
    has no execute thunk: the first object returned has no [execute]. *)
Lemma X5_witness :
  findExecuteMethod
    (ArrowFunctionExpression 1 []
       (BlockStatement 2
          ([ExpressionStatement 3 (CallExpression 4 (Identifier 5 "log") [])] ++
           ReturnStatement 6 (Some (ObjectExpression 7 [])) ::
           [ReturnStatement 8
              (Some (ObjectExpression 9 [member 10 "execute" alwaysActive]))]))) =
    None.
Proof.
  apply (X5_first_object_return_decides 1 [] 2
           [ExpressionStatement 3 (CallExpression 4 (Identifier 5 "log") [])]
           6 7 []
           [ReturnStatement 8
              (Some (ObjectExpression 9 [member 10 "execute" alwaysActive]))]).
  repeat constructor.
Defined.

Lemma isLiteralId_false prop :
  match prop with
  | Property _ (Identifier _ name) (Literal _ (LString value)) _ =>
      if decide (name = "id") then Some value else None
  | _ => None
  end = None ↔ isLiteralId prop = false.
Proof.
  destruct prop as [| | | |? key value ?| | | | | | | | | | | | | | | | | |];
    try done.
  destruct key; try done.
  destruct value as [|? [| | |]| | | | | | | | | | | | | | | | | | | | |];
    try done.
  simpl. rewrite bool_decide_eq_false. by case_decide.
Qed.

Lemma isExecuteFunction_false prop :
  match prop with
  | Property _ (Identifier _ name) value _ =>
      if decide (name = "execute") then
        if isFunctionLike value then Some value else None
      else None
  | _ => None
  end = None ↔ isExecuteFunction prop = false.
Proof.
  destruct prop as [| | | |? key value ?| | | | | | | | | | | | | | | | | |];
    try done.
  destruct key; try done. simpl.
  case_decide as Hname.
  - rewrite bool_decide_eq_true_2 by done. simpl. by destruct (isFunctionLike value).
  - by rewrite bool_decide_eq_false_2.
Qed.

(** X6: the member that counts is the first one of its kind.  The state
    id of an object literal is the string of its first member [id] with
    a string literal: members before it (spreads, quoted keys, an [id]
    that is not a literal) are passed over, members after it are not
    read, and without such a member there is no id.  In the same way the
    execute thunk of an object is the value of its first member
    [execute] whose value is a function. *)
Theorem X6_first_member_counts o before after :
  (∀ j k l s c,
     Forall (λ p, isLiteralId p = false) before →
     extractStateIdFromExpression
       (ObjectExpression o
          (before ++ Property j (Identifier k "id") (Literal l (LString s)) c :: after)) =
       Some s) ∧
  (extractStateIdFromExpression (ObjectExpression o before) = None ↔
   Forall (λ p, isLiteralId p = false) before) ∧
  (∀ j k value c,
     Forall (λ p, isExecuteFunction p = false) before →
     isFunctionLike value = true →
     getExecuteFromObject
       (ObjectExpression o
          (before ++ Property j (Identifier k "execute") value c :: after)) =
       Some value) ∧
  (getExecuteFromObject (ObjectExpression o before) = None ↔
   Forall (λ p, isExecuteFunction p = false) before).
Proof.
  split; [|split; [|split]].
  - intros j k l s c Hbefore. simpl. apply first_return_first; [|reflexivity].
    eapply Forall_impl; [exact Hbefore|]. intros p. apply isLiteralId_false.
  - simpl. rewrite first_return_None. apply Forall_iff. intros p.
    apply isLiteralId_false.
  - intros j k value c Hbefore Hfun. simpl. apply first_return_first.
    + eapply Forall_impl; [exact Hbefore|]. intros p. apply isExecuteFunction_false.
    + simpl. by rewrite Hfun.
  - simpl. rewrite first_return_None. apply Forall_iff. intros p.
    apply isExecuteFunction_false.
Qed.

(** [{ ...base, id: next, id: 'a', id: 'b' }] has the state id [a]. *)
Lemma X6_witness :
  extractStateIdFromExpression
    (ObjectExpression 1
       ([SpreadElement 2 (Identifier 3 "base");
         member 4 "id" (Identifier 6 "next")] ++
        Property 7 (Identifier 8 "id") (Literal 9 (LString "a")) false ::
        [member 10 "id" (str 12 "b")])) = Some "a".
Proof.
  apply (proj1 (X6_first_member_counts 1
           [SpreadElement 2 (Identifier 3 "base"); member 4 "id" (Identifier 6 "next")]
           [member 10 "id" (str 12 "b")])).
  repeat constructor.
Defined.

Lemma fold_left_snoc {A B} (f : B → A → B) l x acc :
  fold_left f (l ++ [x]) acc = f (fold_left f l acc) x.
Proof. by rewrite fold_left_app. Qed.

Lemma recordMessage_declaredBy messageName messageMap msgProp :
  recordMessage messageMap msgProp !! messageName =
    match declaredBy messageName msgProp with
    | Some targetStates => Some targetStates
    | None => messageMap !! messageName
    end.
Proof.
  destruct msgProp as [| | | |? key value ?| | | | | | | | | | | | | | | | | |];
    try reflexivity.
  destruct key as [? name| | | | | | | | | | | | | | | | | | | | | |];
    try reflexivity.
  simpl. destruct (targetStatesOf value) as [|t ts] eqn:Htargets; simpl.
  - rewrite decide_False by (intros [_ Hne]; by apply Hne). reflexivity.
  - destruct (decide (name = messageName)) as [->|Hne].
    + rewrite decide_True by done. apply lookup_insert_eq.
    + rewrite decide_False by (by intros [? _]). by apply lookup_insert_ne.
Qed.

Lemma recordState_stateDeclaredBy stateName transitions stateProp :
  recordState transitions stateProp !! stateName =
    match stateDeclaredBy stateName stateProp with
    | Some messageMap => Some messageMap
    | None => transitions !! stateName
    end.
Proof.
  unfold recordState, stateDeclaredBy.
  destruct stateProp as [| | | |? key value ?| | | | | | | | | | | | | | | | | |];
    try reflexivity.
  destruct key as [? name| | | | | | | | | | | | | | | | | | | | | |];
    try reflexivity.
  destruct value as [| | |? stateProps| | | | | | | | | | | | | | | | | | |];
    try reflexivity.
  destruct (find isOnProperty stateProps)
    as [[| | | |? ? [| | |? msgProps| | | | | | | | | | | | | | | | | | |] ?| | | | | | | | | | | | | | | | | |]|];
    try (by case_decide).
  case_decide as Hname.
  - subst. apply lookup_insert_eq.
  - by apply lookup_insert_ne.
Qed.

Lemma recordSiteProperty_siteMember found prop :
  recordSiteProperty found prop =
    (match siteMember "config" prop with
     | Some value => Some value
     | None => found.1
     end,
     match siteMember "commands" prop with
     | Some value => Some value
     | None => found.2
     end).
Proof.
  destruct found as [configProp commandsProp].
  destruct prop as [| | | |? key value ?| | | | | | | | | | | | | | | | | |];
    try reflexivity.
  destruct key as [? name| | | | | | | | | | | | | | | | | | | | | |];
    try reflexivity.
  destruct value; try reflexivity.
  simpl. by repeat case_decide.
Qed.

(** A loop that overwrites on a match keeps the last match. *)
Lemma fold_last_wins {A B V} (f : B → A → B) (get : B → option V)
    (g : A → option V) l acc :
  (∀ acc x, get (f acc x) = match g x with Some v => Some v | None => get acc end) →
  get (fold_left f l acc) =
    match last (omap g l) with Some v => Some v | None => get acc end.
Proof.
  intros Hstep. induction l as [|x l IH] using rev_ind; [reflexivity|].
  rewrite fold_left_snoc, Hstep, omap_app. simpl.
  destruct (g x) as [v|]; simpl.
  - by rewrite last_snoc.
  - by rewrite app_nil_r.
Qed.

(** X7: where a key is written several times the last member that
    declares something wins.  The declared targets of a message are those
    of the last member filed under it whose array retains a string
    literal (a later member that retains none does not erase them); the
    message map of a state is that of the last member filed under it
    that is an object literal with an object literal as its first [on];
    and the [config] and [commands] handed to the analysis are the last
    members of these names that are object literals. *)
Theorem X7_last_declaration_wins o properties :
  (∀ messageName,
     messageMapOf properties !! messageName =
       last (omap (declaredBy messageName) properties)) ∧
  (∀ stateName,
     parseStateMachineConfig (ObjectExpression o properties) !! stateName =
       last (omap (stateDeclaredBy stateName) properties)) ∧
  configAndCommands properties =
    (last (omap (siteMember "config") properties),
     last (omap (siteMember "commands") properties)).
Proof.
  split; [|split].
  - intros messageName. unfold messageMapOf.
    rewrite (fold_last_wins recordMessage (λ m, m !! messageName)
               (declaredBy messageName)).
    + rewrite lookup_empty. by destruct (last _).
    + intros acc x. apply recordMessage_declaredBy.
  - intros stateName. simpl.
    rewrite (fold_last_wins recordState (λ m, m !! stateName)
               (stateDeclaredBy stateName)).
    + rewrite lookup_empty. by destruct (last _).
    + intros acc x. apply recordState_stateDeclaredBy.
  - unfold configAndCommands.
    pose proof (fold_last_wins recordSiteProperty fst (siteMember "config")
                  properties (None, None)) as Hconfig.
    pose proof (fold_last_wins recordSiteProperty snd (siteMember "commands")
                  properties (None, None)) as Hcommands.
    destruct (fold_left recordSiteProperty properties (None, None)) as [cfg cmds].
    simpl in Hconfig, Hcommands.
    rewrite Hconfig, Hcommands.
    + by destruct (last (omap (siteMember "config") properties)),
                  (last (omap (siteMember "commands") properties)).
    + intros acc x. by rewrite recordSiteProperty_siteMember.
    + intros acc x. by rewrite recordSiteProperty_siteMember.
Qed.

(** ** The scanner at run time *)

Module RuntimeFacts.
Import Runtime.

Lemma fields_lookup (g : graph) reference o :
  g !! reference = Some o → fields g reference = o.
Proof. unfold fields. by intros ->. Qed.

Lemma member_object (g : graph) reference o name :
  g !! reference = Some o →
  member g (Object reference) name = Returns (get name o).
Proof. intros Hlookup. simpl. by rewrite (fields_lookup _ _ _ Hlookup). Qed.

Lemma fields_dangling (g : graph) reference :
  g !! reference = None → fields g reference = [].
Proof. unfold fields. by intros ->. Qed.

Lemma truthy_defined v : truthy v → v ≠ Undefined ∧ v ≠ Null.
Proof. by destruct v. Qed.

Lemma first_return_returns {A B} (f : A → outcome (option B)) xs :
  Forall (λ x, ∃ r, f x = Returns r) xs → ∃ r, first_return f xs = Returns r.
Proof.
  induction 1 as [|x xs [r Hx] _ [r' IH]]; simpl; [eauto|].
  rewrite Hx. simpl. destruct r; eauto.
Qed.

Lemma unvisited_mono (g : graph) w w' :
  visited w ⊆ visited w' → unvisited g w' ≤ unvisited g w.
Proof.
  intros Hsub. apply (subseteq_size (C := gset nat)).
  intros k [Hk Hfresh]%elem_of_difference. apply elem_of_difference.
  split; [assumption|]. intros Hvisited. by apply Hfresh, Hsub.
Qed.

Lemma unvisited_mark (g : graph) reference o w :
  g !! reference = Some o → reference ∉ visited w →
  unvisited g (Walk ({[reference]} ∪ visited w) (stateIds w)) < unvisited g w.
Proof.
  intros Hlookup Hfresh. apply (subset_size (C := gset nat)).
  apply (elem_of_dom_2 (D := gset nat)) in Hlookup.
  cbn [visited]. split.
  - intros k [Hk Hnew]%elem_of_difference. apply elem_of_difference.
    split; [assumption|]. intros Hvisited. apply Hnew, elem_of_union. by right.
  - intros Hsub. assert (reference ∈ dom g ∖ visited w) as Hin
      by (by apply elem_of_difference).
    apply Hsub, elem_of_difference in Hin as [_ Hnew].
    apply Hnew, elem_of_union. left. by apply elem_of_singleton.
Qed.

Section SyntaxGraph.

Variable g : graph.
Hypothesis typed : syntaxGraph g.

(** The test on the key of a member returns, and a member is a property
    of the graph, with a node for its value. *)
Lemma isMember_returns name prop :
  isNode g prop →
  ∃ b, isMember g name prop = Returns b ∧
       (b = true → ∃ reference o,
          prop = Object reference ∧ g !! reference = Some o ∧
          isNode g (get "value" o)).
Proof.
  intros (reference & -> & [o Hprop]).
  destruct (typed _ _ Hprop) as (_ & _ & _ & Hproperty & _).
  unfold isMember. at_node (fields_lookup _ _ _ Hprop).
  destruct (isText (get "type" o) "Property") eqn:Htype; [|exists false; split; [reflexivity | discriminate]].
  destruct (Hproperty I) as [(key & Hkey & [ko Hko]) Hvalue].
  at_node (fields_lookup _ _ _ Hprop). rewrite Hkey. run.
  at_node (fields_lookup _ _ _ Hko).
  destruct (isText (get "type" ko) "Identifier"); [|exists false; split; [reflexivity | discriminate]].
  at_node (fields_lookup _ _ _ Hko).
  eexists. split; [reflexivity|]. intros _. eauto.
Qed.

Lemma iterate_nodes v :
  isNodes g v → ∃ elements, iterate v = Returns elements ∧ Forall (isNode g) elements.
Proof. intros (elements & -> & Helements). eauto. Qed.

Lemma extractStateIdFromExpression_returns expression :
  expression ≠ Undefined → expression ≠ Null →
  ∃ r, extractStateIdFromExpression g expression = Returns r.
Proof.
  intros Hundefined Hnull. unfold extractStateIdFromExpression.
  destruct expression as [| | | | | |reference]; try (simpl; by eauto); try done.
  destruct (g !! reference) as [o|] eqn:Hexpression; cycle 1.
  { run. rewrite !(fields_dangling _ _ Hexpression). simpl. by eauto. }
  at_node (fields_lookup _ _ _ Hexpression).
  destruct (isText (get "type" o) "ObjectExpression") eqn:Htype;
    cbn [negb]; [|by eauto].
  destruct (typed _ _ Hexpression) as (_ & _ & Hobject & _).
  rewrite ?Htype in Hobject.
  destruct (iterate_nodes _ (Hobject I)) as (props & Hprops & Hnodes).
  at_node (fields_lookup _ _ _ Hexpression). rewrite Hprops. run.
  apply first_return_returns.
  eapply Forall_impl; [exact Hnodes|]. intros prop Hprop. run.
  destruct (isMember_returns "id" prop Hprop) as (named & -> & Hnamed). run.
  destruct named; [|by eauto].
  destruct Hnamed as (p & po & -> & Hpo & (value & Hvalue & [vo Hvo]));
    [reflexivity|].
  at_node (fields_lookup _ _ _ Hpo). rewrite Hvalue. run.
  at_node (fields_lookup _ _ _ Hvo).
  destruct (isText (get "type" vo) "Literal"); [|by eauto].
  at_node (fields_lookup _ _ _ Hvo). eauto.
Qed.

Lemma addStateId_returns e w :
  e ≠ Undefined → e ≠ Null →
  ∃ w', addStateId g e w = Returns w' ∧ visited w' = visited w.
Proof.
  intros Hundefined Hnull. unfold addStateId.
  destruct (extractStateIdFromExpression_returns e Hundefined Hnull) as [r ->].
  run. eexists. split; [reflexivity|].
  destruct r as [stateId|]; [|reflexivity]. by case_decide.
Qed.

Lemma returnSites_returns o w :
  wellTyped g o →
  ∃ w', returnSites g o w = Returns w' ∧ visited w' = visited w.
Proof.
  intros (Hfunction & _). unfold returnSites.
  destruct (has "type" o); [|by eauto].
  assert (∃ w1, implicitReturn g o w = Returns w1 ∧ visited w1 = visited w)
    as (w1 & -> & <-).
  { unfold implicitReturn.
    destruct (isText (get "type" o) "ArrowFunctionExpression") eqn:Harrow;
      [|by eauto].
    rewrite ?Harrow in Hfunction.
    destruct (Hfunction (or_introl I)) as (body & Hbody & [bo Hbo]).
    rewrite Hbody. at_node (fields_lookup _ _ _ Hbo).
    destruct (negb _); [|by eauto]. by apply addStateId_returns. }
  run. unfold explicitReturn.
  destruct (isText (get "type" o) "ReturnStatement"); run; [|by eauto].
  destruct (truthy (get "argument" o)) eqn:Htruthy; [|by eauto].
  apply addStateId_returns; apply truthy_defined; by rewrite Htruthy.
Qed.

Section Stages.

Variables (visit : value → walk → outcome walk) (bound : nat).
Hypothesis visit_returning : returning g visit bound.

Lemma forEach_returns elements w :
  unvisited g w < bound →
  ∃ w', forEach visit elements w = Returns w' ∧ visited w ⊆ visited w'.
Proof.
  revert w. induction elements as [|v elements IH]; intros w Hbound; simpl.
  - by eauto.
  - destruct (visit_returning v w Hbound) as (w1 & -> & Hsub1). run.
    destruct (IH w1) as (w2 & -> & Hsub2).
    + pose proof (unvisited_mono g _ _ Hsub1). lia.
    + eexists. split; [reflexivity|]. by etrans.
Qed.

Lemma followBody_returns o w :
  unvisited g w < bound →
  ∃ w', followBody visit o w = Returns w' ∧ visited w ⊆ visited w'.
Proof.
  intros Hbound. unfold followBody.
  destruct (has "body" o && truthy (get "body" o)); [|by eauto].
  destruct (get "body" o); try (by apply visit_returning).
  by apply forEach_returns.
Qed.

Lemma follow_returns name o w :
  unvisited g w < bound →
  ∃ w', follow visit name o w = Returns w' ∧ visited w ⊆ visited w'.
Proof.
  intros Hbound. unfold follow.
  destruct (has name o && truthy (get name o)); [|by eauto].
  by apply visit_returning.
Qed.

Lemma followCases_returns o w :
  wellTyped g o → unvisited g w < bound →
  ∃ w', followCases visit o w = Returns w' ∧ visited w ⊆ visited w'.
Proof.
  intros (_ & _ & _ & _ & Hcases) Hbound. unfold followCases.
  destruct (has "cases" o); simpl; [|by eauto].
  destruct (truthy (get "cases" o)); [|by eauto].
  destruct (Hcases I) as [elements ->]. by apply forEach_returns.
Qed.

End Stages.

(** The walk returns when the fuel exceeds the number of objects that are
    not visited yet: every nested call is made on an object that the
    [WeakSet] does not hold, and adds it. *)
Lemma visit_returns fuel : returning g (visit fuel g) fuel.
Proof.
  induction fuel as [|fuel IH]; intros node w Hfuel; [lia|].
  destruct node as [| | | | | |reference]; try (by simpl; eauto).
  cbn [visit]. case_decide as Hvisited; [by eauto|].
  set (marked := Walk ({[reference]} ∪ visited w) (stateIds w)).
  assert (visited w ⊆ visited marked) as Hmarked
    by (intros k Hk; apply elem_of_union; by right).
  destruct (g !! reference) as [o|] eqn:Hlookup.
  - rewrite (fields_lookup _ _ _ Hlookup).
    pose proof (unvisited_mark g _ _ _ Hlookup Hvisited) as Hless.
    fold marked in Hless.
    destruct (returnSites_returns o marked (typed _ _ Hlookup))
      as (w0 & -> & Hw0). run.
    assert (unvisited g w0 < fuel) as Hbound0.
    { unfold unvisited in *. rewrite Hw0. lia. }
    destruct (followBody_returns _ _ IH o w0 Hbound0) as (w1 & -> & Hsub1). run.
    assert (unvisited g w1 < fuel) as Hbound1
      by (pose proof (unvisited_mono g _ _ Hsub1); lia).
    destruct (follow_returns _ _ IH "consequent" o w1 Hbound1) as (w2 & -> & Hsub2).
    run.
    assert (unvisited g w2 < fuel) as Hbound2
      by (pose proof (unvisited_mono g _ _ Hsub2); lia).
    destruct (follow_returns _ _ IH "alternate" o w2 Hbound2) as (w3 & -> & Hsub3).
    run.
    assert (unvisited g w3 < fuel) as Hbound3
      by (pose proof (unvisited_mono g _ _ Hsub3); lia).
    destruct (follow_returns _ _ IH "argument" o w3 Hbound3) as (w4 & -> & Hsub4).
    run.
    assert (unvisited g w4 < fuel) as Hbound4
      by (pose proof (unvisited_mono g _ _ Hsub4); lia).
    destruct (followCases_returns _ _ IH o w4 (typed _ _ Hlookup) Hbound4)
      as (w5 & -> & Hsub5).
    eexists. split; [reflexivity|].
    rewrite Hw0 in Hsub1.
    by repeat (etrans; [eassumption|]).
  - rewrite (fields_dangling _ _ Hlookup). simpl. eauto.
Qed.

Lemma findReturnedStateIds_returns fuel funcNode :
  size g < fuel → ∃ ids, findReturnedStateIds fuel g funcNode = Returns ids.
Proof.
  intros Hfuel. unfold findReturnedStateIds.
  destruct (visit_returns fuel funcNode (Walk ∅ [])) as (w & -> & _);
    [|by eauto].
  unfold unvisited. cbn [visited].
  rewrite difference_empty_L. unfold graph in *. by rewrite size_dom.
Qed.

Lemma getExecuteFromObject_returns objNode :
  (∃ reference o, objNode = Object reference ∧ g !! reference = Some o ∧
     isText (get "type" o) "ObjectExpression") →
  ∃ r, getExecuteFromObject g objNode = Returns r.
Proof.
  intros (reference & o & -> & Hlookup & Htype).
  destruct (typed _ _ Hlookup) as (_ & _ & Hobject & _).
  destruct (iterate_nodes _ (Hobject Htype)) as (props & Hprops & Hnodes).
  unfold getExecuteFromObject. at_node (fields_lookup _ _ _ Hlookup). rewrite Hprops. run.
  apply first_return_returns.
  eapply Forall_impl; [exact Hnodes|]. intros prop Hprop. simpl.
  destruct (isMember_returns "execute" prop Hprop) as (named & -> & Hnamed). run.
  destruct named; [|by eauto].
  destruct Hnamed as (p & po & -> & Hpo & (value & Hvalue & [vo Hvo]));
    [reflexivity|].
  at_node (fields_lookup _ _ _ Hpo). rewrite Hvalue. at_node (fields_lookup _ _ _ Hvo).
  destruct (_ || _); by eauto.
Qed.

Lemma returnedObject_returns block :
  (∃ reference o, block = Object reference ∧ g !! reference = Some o ∧
     isText (get "type" o) "BlockStatement") →
  ∃ r, returnedObject g block = Returns r ∧
       ∀ argument, r = Some argument →
         ∃ reference o, argument = Object reference ∧ g !! reference = Some o ∧
           isText (get "type" o) "ObjectExpression".
Proof.
  intros (reference & o & -> & Hlookup & Htype).
  destruct (typed _ _ Hlookup) as (_ & Hblock & _).
  destruct (iterate_nodes _ (Hblock Htype)) as (stmts & Hstmts & Hnodes).
  unfold returnedObject. at_node (fields_lookup _ _ _ Hlookup). rewrite Hstmts. run.
  clear Hstmts. induction Hnodes as [|stmt stmts Hstmt _ IH]; simpl.
  - eexists. split; [reflexivity|]. discriminate.
  - destruct Hstmt as (s & -> & [so Hso]). at_node (fields_lookup _ _ _ Hso).
    destruct (isText (get "type" so) "ReturnStatement"); [|exact IH].
    at_node (fields_lookup _ _ _ Hso).
    destruct (truthy (get "argument" so)) eqn:Htruthy; [|exact IH].
    destruct (get "argument" so) as [| | | | | |a] eqn:Hargument;
      try discriminate Htruthy; try exact IH.
    destruct (g !! a) as [ao|] eqn:Hao.
    + at_node (fields_lookup _ _ _ Hao).
      destruct (isText (get "type" ao) "ObjectExpression") eqn:Hao_type;
        [|exact IH].
      run. eexists. split; [reflexivity|]. intros ? [= <-].
      exists a, ao. by rewrite Hao_type.
    + run. rewrite !(fields_dangling _ _ Hao). exact IH.
Qed.

Lemma executeOfBlock_returns block :
  (∃ reference o, block = Object reference ∧ g !! reference = Some o ∧
     isText (get "type" o) "BlockStatement") →
  ∃ r, executeOfBlock g block = Returns r.
Proof.
  intros Hblock. unfold executeOfBlock.
  destruct (returnedObject_returns block Hblock) as (r & -> & Hr). run.
  destruct r as [argument|]; [|by eauto].
  apply getExecuteFromObject_returns. by apply Hr.
Qed.

Lemma findExecuteMethod_returns node :
  node ≠ Undefined → node ≠ Null →
  ∃ r, findExecuteMethod g node = Returns r.
Proof.
  intros Hundefined Hnull. unfold findExecuteMethod.
  destruct node as [| | | | | |reference]; try done; try (simpl; by eauto).
  destruct (g !! reference) as [o|] eqn:Hlookup; cycle 1.
  { run. rewrite !(fields_dangling _ _ Hlookup). simpl. by eauto. }
  destruct (typed _ _ Hlookup) as (Hfunction & _).
  assert (∀ body, get "body" o = body → isNode g body →
            ∃ bo b, body = Object b ∧ g !! b = Some bo) as Hbody.
  { intros ? _ (b & -> & [bo Hbo]). eauto. }
  at_node (fields_lookup _ _ _ Hlookup).
  destruct (isText (get "type" o) "ArrowFunctionExpression") eqn:Harrow.
  - destruct (Hbody _ eq_refl (Hfunction (or_introl I))) as (bo & b & Hb & Hbo).
    at_node (fields_lookup _ _ _ Hlookup). rewrite Hb. at_node (fields_lookup _ _ _ Hbo).
    destruct (isText (get "type" bo) "ObjectExpression") eqn:Hobject.
    + apply getExecuteFromObject_returns. exists b, bo. by rewrite Hobject.
    + destruct (isText (get "type" bo) "BlockStatement") eqn:Hblock; [|by eauto].
      apply executeOfBlock_returns. exists b, bo. by rewrite Hblock.
  - destruct (isText (get "type" o) "FunctionExpression") eqn:Hfunc; [|by eauto].
    destruct (Hbody _ eq_refl (Hfunction (or_intror I))) as (bo & b & Hb & Hbo).
    at_node (fields_lookup _ _ _ Hlookup). rewrite Hb. at_node (fields_lookup _ _ _ Hbo).
    destruct (isText (get "type" bo) "BlockStatement") eqn:Hblock; [|by eauto].
    apply executeOfBlock_returns. exists b, bo. by rewrite Hblock.
Qed.

End SyntaxGraph.
End RuntimeFacts.

(** *** The two models on the graph of a tree *)

Module ParsedTreeFacts.

Import RuntimeFacts.

Lemma subnodes_unfold n :
  Runtime.subnodes n = n :: flat_map Runtime.subnodes (children n).
Proof.
  destruct n as [i name|i v|i o p c|i ps|i k v c|i a|i es|i ps b|i ps b
                |i c args|i c args|i t c a|i op a|i a|i b|i e|i [a|]
                |i t c [a|]|i d cs|i [t|] cs|i t b|i a|i type cs];
    simpl; rewrite ?flat_map_app; simpl; rewrite ?app_nil_r;
    try reflexivity.
  f_equal. induction es as [|[e|] es IH]; simpl;
    [reflexivity| |assumption]. by rewrite IH.
Qed.

Lemma subnodes_self n : n ∈ Runtime.subnodes n.
Proof. rewrite subnodes_unfold. left. Qed.

Lemma subnodes_child n c d :
  c ∈ children n → d ∈ Runtime.subnodes c → d ∈ Runtime.subnodes n.
Proof.
  intros Hc Hd. rewrite (subnodes_unfold n). right.
  apply elem_of_flat_map. by exists c.
Qed.

Lemma subnodes_trans n : ∀ m d, m ∈ Runtime.subnodes n → d ∈ Runtime.subnodes m → d ∈ Runtime.subnodes n.
Proof.
  induction n as [n IH] using node_children_ind. intros m d Hm Hd.
  rewrite subnodes_unfold in Hm. apply elem_of_cons in Hm as [-> | Hm];
    [assumption|].
  apply elem_of_flat_map in Hm as (c & Hc & Hm).
  apply (subnodes_child n c); [assumption|].
  rewrite Forall_forall in IH. eapply IH; eauto.
Qed.

Lemma subnodes_down root n c :
  n ∈ Runtime.subnodes root → c ∈ children n → c ∈ Runtime.subnodes root.
Proof.
  intros Hn Hc. apply (subnodes_trans root n); [assumption|].
  apply (subnodes_child n c); [assumption | apply subnodes_self].
Qed.

Section Parsed.

Variable root : node.
Hypothesis parsed : Runtime.parsed root.

Lemma graphOf_lookup n :
  n ∈ Runtime.subnodes root → Runtime.graphOf root !! identity n = Some (Runtime.objectOf n).
Proof.
  intros Hn. unfold Runtime.graphOf, Runtime.graph.
  apply elem_of_list_to_map_1'.
  - intros o (m & [= Hid ->] & Hm)%list_elem_of_fmap.
    by rewrite (proj1 parsed n m Hn Hm Hid).
  - apply list_elem_of_fmap. by exists n.
Qed.

Lemma member_of n name :
  n ∈ Runtime.subnodes root →
  Runtime.member (Runtime.graphOf root) (Runtime.reference n) name =
    Runtime.Returns (Runtime.get name (Runtime.objectOf n)).
Proof. intros Hn. by apply member_object, graphOf_lookup. Qed.

(** A node of another kind has none of the compared type names. *)
Lemma other_type i type cs :
  OtherNode i type cs ∈ Runtime.subnodes root →
  ∀ T, bool_decide (T ∈ Runtime.comparedTypes) = true →
       String.eqb type T = false.
Proof.
  intros Hn T HT%bool_decide_eq_true. apply String.eqb_neq. intros ->.
  by apply (proj2 parsed i T cs).
Qed.

Lemma fields_of n :
  n ∈ Runtime.subnodes root →
  Runtime.fields (Runtime.graphOf root) (identity n) = Runtime.objectOf n.
Proof. intros Hn. by apply fields_lookup, graphOf_lookup. Qed.

Lemma isMember_agree name prop :
  prop ∈ Runtime.subnodes root →
  Runtime.isMember (Runtime.graphOf root) name (Runtime.reference prop) =
    Runtime.Returns (bool_decide (keyName prop = Some name)).
Proof.
  intros Hprop. unfold Runtime.isMember. rewrite (member_of prop "type" Hprop).
  destruct prop as [i name'|i v|i o p c|i ps|i k v c|i a|i es|i ps b|i ps b
                |i c args|i c args|i t c a|i op a|i a|i b|i e|i a
                |i t c a|i d cs|i t cs|i t b|i a|i type cs];
    try reflexivity.
  - assert (k ∈ Runtime.subnodes root) as Hk
      by (apply (subnodes_down root _ k Hprop); simpl; left).
    with_fields (fields_of _ Hprop). rewrite !(fields_of _ Hk).
    destruct k as [j key|j v'|j o p c'|j ps|j k' v' c'|j a|j es|j ps b|j ps b
                |j c' args|j c' args|j t c' a|j op a|j a|j b|j e|j a
                |j t c' a|j d cs|j t cs|j t b|j a|j type cs];
      try reflexivity.
    + simpl. f_equal. destruct (String.eqb_spec key name) as [-> | Hne].
      * by rewrite bool_decide_eq_true_2.
      * rewrite bool_decide_eq_false_2; [reflexivity | congruence].
    + simpl. by rewrite (other_type _ _ _ Hk "Identifier").
  - simpl. by rewrite (other_type _ _ _ Hprop "Property").
Qed.

Lemma first_return_agree {B} (F : Runtime.value → Runtime.outcome (option B))
    (f : node → option B) (l : list node) :
  Forall (λ x, F (Runtime.reference x) = Runtime.Returns (f x)) l →
  Runtime.first_return F (Runtime.reference <$> l) =
    Runtime.Returns (first_return f l).
Proof.
  induction 1 as [|x l Hx _ IH]; [reflexivity|].
  rewrite fmap_cons. cbn [Runtime.first_return first_return].
  rewrite Hx. run. by destruct (f x).
Qed.

Lemma subnodes_children n :
  n ∈ Runtime.subnodes root → Forall (λ c, c ∈ Runtime.subnodes root) (children n).
Proof. intros Hn. apply Forall_forall. intros c. by apply subnodes_down. Qed.

Lemma extractStateIdFromExpression_agree e :
  e ∈ Runtime.subnodes root →
  Runtime.extractStateIdFromExpression (Runtime.graphOf root) (Runtime.reference e) =
    Runtime.Returns (extractStateIdFromExpression e).
Proof.
  intros He. unfold Runtime.extractStateIdFromExpression.
  rewrite (member_of e "type" He).
  destruct e as [i name'|i v|i o p c|i ps|i k v c|i a|i es|i ps b|i ps b
                |i c args|i c args|i t c a|i op a|i a|i b|i e|i a
                |i t c a|i d cs|i t cs|i t b|i a|i type cs];
    try reflexivity.
  - with_fields (fields_of _ He).
    apply first_return_agree.
    eapply Forall_impl; [exact (subnodes_children _ He)|].
    intros prop Hprop. cbv beta. rewrite (isMember_agree "id" prop Hprop). run.
    destruct prop as [j name'|j v|j o p c|j ps'|j k v c|j a|j es|j ps' b|j ps' b
                |j c args|j c args|j t c a|j op a|j a|j b|j e|j a
                |j t c a|j d cs|j t cs|j t b|j a|j type cs];
      try reflexivity.
    destruct k as [l key|l v'|l o p c'|l ps'|l k' v' c'|l a|l es|l ps' b|l ps' b
                |l c' args|l c' args|l t c' a|l op a|l a|l b|l e|l a
                |l t c' a|l d cs|l t cs|l t b|l a|l type cs];
      try reflexivity.
    assert (v ∈ Runtime.subnodes root) as Hv
      by (apply (subnodes_down root _ v Hprop); simpl; right; left).
    cbn [keyName]. case_bool_decide as Hkey.
    + injection Hkey as ->.
      with_fields (fields_of _ Hprop). rewrite !(fields_of _ Hv).
      destruct v as [m name'|m [s|z|b'|]|m o p c'|m ps'|m k' v' c'|m a|m es
                |m ps' b|m ps' b
                |m c' args|m c' args|m t c' a|m op a|m a|m b|m e|m a
                |m t c' a|m d cs|m t cs|m t b|m a|m type cs];
        try reflexivity.
      simpl. by rewrite (other_type _ _ _ Hv "Literal").
    + destruct v as [m name'|m [s|z|b'|]|m o p c'|m ps'|m k' v' c'|m a|m es
                |m ps' b|m ps' b
                |m c' args|m c' args|m t c' a|m op a|m a|m b|m e|m a
                |m t c' a|m d cs|m t cs|m t b|m a|m type cs];
        try reflexivity.
      rewrite decide_False by congruence. reflexivity.
  - simpl. by rewrite (other_type _ _ _ He "ObjectExpression").
Qed.

Lemma addStateId_agree e w :
  e ∈ Runtime.subnodes root →
  Runtime.addStateId (Runtime.graphOf root) (Runtime.reference e) w =
    Runtime.Returns (addStateId e w).
Proof.
  intros He. unfold Runtime.addStateId, addStateId.
  rewrite (extractStateIdFromExpression_agree e He). reflexivity.
Qed.

(** [node.body.type !== 'BlockStatement'] on the body of an arrow
    function. *)
Lemma isBlockStatement_agree b :
  b ∈ Runtime.subnodes root →
  Runtime.isText (Runtime.get "type" (Runtime.objectOf b)) "BlockStatement" =
    isBlockStatement b.
Proof.
  intros Hb.
  destruct b as [i name'|i v|i o p c|i ps|i k v c|i a|i es|i ps b|i ps b
                |i c args|i c args|i t c a|i op a|i a|i b|i e|i a
                |i t c a|i d cs|i t cs|i t b|i a|i type cs];
    try reflexivity.
  simpl. by rewrite (other_type _ _ _ Hb "BlockStatement").
Qed.

(** The two tests on [node.type] add the identifier of the return value
    of the node. *)
Lemma returnSites_agree n w :
  n ∈ Runtime.subnodes root →
  Runtime.returnSites (Runtime.graphOf root) (Runtime.objectOf n) w =
    Runtime.Returns
      match returnValue n with
      | Some e => addStateId e w
      | None => w
      end.
Proof.
  intros Hn.
  destruct n as [i name'|i v|i o p c|i ps|i k v c|i a|i es|i ps b|i ps b
                |i c args|i c args|i t c a|i op a|i a|i b|i e|i [a|]
                |i t c a|i d cs|i t cs|i t b|i a|i type cs];
    try reflexivity.
  - assert (b ∈ Runtime.subnodes root) as Hb.
    { apply (subnodes_down root _ b Hn). simpl.
      rewrite elem_of_app, list_elem_of_singleton. by right. }
    unfold Runtime.returnSites, Runtime.implicitReturn, Runtime.explicitReturn.
    cbn [Runtime.has Runtime.get Runtime.own Runtime.objectOf default
         returnValue].
    simpl. rewrite (fields_of _ Hb), (isBlockStatement_agree b Hb).
    destruct (isBlockStatement b); [reflexivity|].
    cbn [negb]. rewrite (addStateId_agree b _ Hb). reflexivity.
  - assert (a ∈ Runtime.subnodes root) as Ha
      by (apply (subnodes_down root _ a Hn); simpl; left).
    unfold Runtime.returnSites, Runtime.implicitReturn, Runtime.explicitReturn.
    simpl. apply (addStateId_agree a _ Ha).
  - unfold Runtime.returnSites, Runtime.implicitReturn, Runtime.explicitReturn.
    simpl.
    by rewrite (other_type _ _ _ Hn "ArrowFunctionExpression"),
               (other_type _ _ _ Hn "ReturnStatement").
Qed.

Lemma bind_Returns {A} (m : Runtime.outcome A) :
  (m ≫= λ a, Runtime.Returns a) = m.
Proof. by destruct m. Qed.

(** The five tests on the fields call [visit] on the followed children,
    in their order. *)
Lemma follow_agree (self : Runtime.value → walk → Runtime.outcome walk) n w :
  (∀ elements w, self (Runtime.Array elements) w = Runtime.Returns w) →
  (w ← Runtime.followBody self (Runtime.objectOf n) w;
   w ← Runtime.follow self "consequent" (Runtime.objectOf n) w;
   w ← Runtime.follow self "alternate" (Runtime.objectOf n) w;
   w ← Runtime.follow self "argument" (Runtime.objectOf n) w;
   Runtime.followCases self (Runtime.objectOf n) w) =
    Runtime.forEach self (Runtime.reference <$> followed n) w.
Proof.
  intros Harray.
  destruct n as [i name'|i v|i o p c|i ps|i k v c|i a|i es|i ps b|i ps b
                |i c args|i c args|i t c a|i op a|i a|i b|i e|i [a|]
                |i t c [a|]|i d cs|i t cs|i t b|i a|i type cs];
    unfold Runtime.followBody, Runtime.follow, Runtime.followCases;
    simpl; rewrite ?Harray; simpl; rewrite ?bind_Returns; try reflexivity.
  unfold Runtime.get. simpl. apply Harray.
Qed.

Lemma forEach_agree (self : Runtime.value → walk → Runtime.outcome walk)
    (bound : nat) (l : list node) :
  Forall (λ c, ∀ w, Runtime.unvisited (Runtime.graphOf root) w < bound →
                 self (Runtime.reference c) w = Runtime.Returns (visit c w)) l →
  ∀ w, Runtime.unvisited (Runtime.graphOf root) w < bound →
    Runtime.forEach self (Runtime.reference <$> l) w =
      Runtime.Returns (fold_left (λ w c, visit c w) l w).
Proof.
  induction 1 as [|c l Hc _ IH]; intros w Hbound; [reflexivity|].
  rewrite fmap_cons. cbn [Runtime.forEach fold_left].
  rewrite (Hc w Hbound). run. apply IH.
  eapply Nat.le_lt_trans; [|exact Hbound].
  apply unvisited_mono. intros k. apply visit_keeps_visited.
Qed.

(** On the graph of a parsed tree the run-time walk returns what the walk
    of the first model computes. *)
Lemma visit_agree n :
  ∀ fuel w,
    n ∈ Runtime.subnodes root →
    Runtime.unvisited (Runtime.graphOf root) w < fuel →
    Runtime.visit fuel (Runtime.graphOf root) (Runtime.reference n) w =
      Runtime.Returns (visit n w).
Proof.
  induction n as [n IH] using node_children_ind. intros fuel w Hn Hfuel.
  rewrite visit_unfold. destruct fuel as [|fuel]; [lia|].
  cbn [Runtime.visit Runtime.reference]. case_decide as Hvisited; [reflexivity|].
  cbv zeta. rewrite (fields_of n Hn), (returnSites_agree n _ Hn). run.
  rewrite (follow_agree (Runtime.visit fuel (Runtime.graphOf root)) n)
    by (by destruct fuel).
  apply (forEach_agree _ fuel).
  - rewrite Forall_forall in IH. apply Forall_forall. intros c Hc w' Hbound.
    apply IH; [by apply followed_children| |assumption].
    apply (subnodes_down root n c Hn). by apply followed_children.
  - pose proof (unvisited_mark _ _ _ w (graphOf_lookup n Hn) Hvisited) as Hless.
    assert (Runtime.unvisited (Runtime.graphOf root)
              (Walk ({[identity n]} ∪ visited w) (stateIds w)) < fuel)
      as Hmarked by lia.
    destruct (returnValue n); [|assumption].
    unfold Runtime.unvisited in *. by rewrite addStateId_visited.
Qed.

Lemma findReturnedStateIds_agree funcNode fuel :
  funcNode ∈ Runtime.subnodes root →
  size (Runtime.graphOf root) < fuel →
  Runtime.findReturnedStateIds fuel (Runtime.graphOf root)
      (Runtime.reference funcNode) =
    Runtime.Returns (findReturnedStateIds funcNode).
Proof.
  intros Hn Hfuel. unfold Runtime.findReturnedStateIds, findReturnedStateIds.
  rewrite (visit_agree funcNode fuel _ Hn); [reflexivity|].
  unfold Runtime.unvisited. cbn [visited].
  rewrite difference_empty_L. unfold Runtime.graph in *. by rewrite size_dom.
Qed.

Lemma first_return_agree_node (F : Runtime.value → Runtime.outcome (option Runtime.value))
    (f : node → option node) (l : list node) :
  Forall (λ x, F (Runtime.reference x) =
               Runtime.Returns (Runtime.reference <$> f x)) l →
  Runtime.first_return F (Runtime.reference <$> l) =
    Runtime.Returns (Runtime.reference <$> first_return f l).
Proof.
  induction 1 as [|x l Hx _ IH]; [reflexivity|].
  rewrite fmap_cons. cbn [Runtime.first_return first_return].
  rewrite Hx. run. by destruct (f x).
Qed.

Lemma isFunctionLike_agree v :
  v ∈ Runtime.subnodes root →
  Runtime.isText (Runtime.get "type" (Runtime.objectOf v)) "FunctionExpression" ||
  Runtime.isText (Runtime.get "type" (Runtime.objectOf v)) "ArrowFunctionExpression" =
    isFunctionLike v.
Proof.
  intros Hv.
  destruct v as [i name'|i v|i o p c|i ps|i k v c|i a|i es|i ps b|i ps b
                |i c args|i c args|i t c a|i op a|i a|i b|i e|i a
                |i t c a|i d cs|i t cs|i t b|i a|i type cs];
    try reflexivity.
  simpl. by rewrite (other_type _ _ _ Hv "FunctionExpression"),
                    (other_type _ _ _ Hv "ArrowFunctionExpression").
Qed.

Lemma getExecuteFromObject_agree i ps :
  ObjectExpression i ps ∈ Runtime.subnodes root →
  Runtime.getExecuteFromObject (Runtime.graphOf root)
      (Runtime.reference (ObjectExpression i ps)) =
    Runtime.Returns
      (Runtime.reference <$> getExecuteFromObject (ObjectExpression i ps)).
Proof.
  intros He. unfold Runtime.getExecuteFromObject.
  with_fields (fields_of _ He).
  apply first_return_agree_node.
  eapply Forall_impl; [exact (subnodes_children _ He)|].
  intros prop Hprop. cbv beta. rewrite (isMember_agree "execute" prop Hprop). run.
  destruct prop as [j name'|j v|j o p c|j ps'|j k v c|j a|j es|j ps' b|j ps' b
              |j c args|j c args|j t c a|j op a|j a|j b|j e|j a
              |j t c a|j d cs|j t cs|j t b|j a|j type cs];
    try reflexivity.
  destruct k as [l key|l v'|l o p c'|l ps'|l k' v' c'|l a|l es|l ps' b|l ps' b
              |l c' args|l c' args|l t c' a|l op a|l a|l b|l e|l a
              |l t c' a|l d cs|l t cs|l t b|l a|l type cs];
    try reflexivity.
  assert (v ∈ Runtime.subnodes root) as Hv
    by (apply (subnodes_down root _ v Hprop); simpl; right; left).
  cbn [keyName]. case_bool_decide as Hkey.
  - injection Hkey as ->. rewrite decide_True by reflexivity.
    with_fields (fields_of _ Hprop). rewrite !(fields_of _ Hv).
    rewrite (isFunctionLike_agree v Hv). by destruct (isFunctionLike v).
  - rewrite decide_False by congruence. reflexivity.
Qed.

Lemma isObjectExpression_agree a :
  a ∈ Runtime.subnodes root →
  Runtime.isText (Runtime.get "type" (Runtime.objectOf a)) "ObjectExpression" =
    match a with ObjectExpression _ _ => true | _ => false end.
Proof.
  intros Ha.
  destruct a as [i name'|i v|i o p c|i ps|i k v c|i a|i es|i ps b|i ps b
                |i c args|i c args|i t c a|i op a|i a|i b|i e|i a
                |i t c a|i d cs|i t cs|i t b|i a|i type cs];
    try reflexivity.
  simpl. by rewrite (other_type _ _ _ Ha "ObjectExpression").
Qed.

Lemma returnedObject_agree i stmts :
  BlockStatement i stmts ∈ Runtime.subnodes root →
  Runtime.returnedObject (Runtime.graphOf root)
      (Runtime.reference (BlockStatement i stmts)) =
    Runtime.Returns (Runtime.reference <$> returnedObject stmts).
Proof.
  intros Hblock. unfold Runtime.returnedObject, returnedObject.
  with_fields (fields_of _ Hblock).
  apply first_return_agree_node.
  eapply Forall_impl; [exact (subnodes_children _ Hblock)|].
  intros stmt Hstmt. cbv beta. rewrite (member_of stmt "type" Hstmt). run.
  destruct stmt as [j name'|j v|j o p c|j ps'|j k v c|j a|j es|j ps' b|j ps' b
              |j c args|j c args|j t c a|j op a|j a|j b|j e|j [a|]
              |j t c a|j d cs|j t cs|j t b|j a|j type cs];
    try reflexivity.
  - assert (a ∈ Runtime.subnodes root) as Ha
      by (apply (subnodes_down root _ a Hstmt); simpl; left).
    with_fields (fields_of _ Hstmt). rewrite !(fields_of _ Ha).
    rewrite (isObjectExpression_agree a Ha).
    by destruct a.
  - with_fields (fields_of _ Hstmt). reflexivity.
  - simpl. by rewrite (other_type _ _ _ Hstmt "ReturnStatement").
Qed.

Lemma returnedObject_object stmts argument :
  returnedObject stmts = Some argument →
  (∃ stmt, stmt ∈ stmts ∧ argument ∈ children stmt) ∧
  ∃ i ps, argument = ObjectExpression i ps.
Proof.
  unfold returnedObject. induction stmts as [|stmt stmts IH]; [discriminate|].
  cbn [first_return].
  destruct stmt as [j name'|j v|j o p c|j ps'|j k v c|j a|j es|j ps' b|j ps' b
              |j c args|j c args|j t c a|j op a|j a|j b|j e|j [a|]
              |j t c a|j d cs|j t cs|j t b|j a|j type cs];
    try (intros [(stmt & Hstmt & Hchild) Hshape]%IH; split; [|assumption];
         exists stmt; split; [by right | assumption]).
  destruct a; try (intros [(stmt & Hstmt & Hchild) Hshape]%IH; split; [|assumption];
         exists stmt; split; [by right | assumption]).
  intros [= <-]. split; [|by eauto].
  eexists. split; [left|]. simpl. left.
Qed.

Lemma executeOfBlock_agree i stmts :
  BlockStatement i stmts ∈ Runtime.subnodes root →
  Runtime.executeOfBlock (Runtime.graphOf root)
      (Runtime.reference (BlockStatement i stmts)) =
    Runtime.Returns
      (Runtime.reference <$>
         match returnedObject stmts with
         | Some argument => getExecuteFromObject argument
         | None => None
         end).
Proof.
  intros Hblock. unfold Runtime.executeOfBlock.
  rewrite (returnedObject_agree i stmts Hblock). run.
  destruct (returnedObject stmts) as [argument|] eqn:Hreturned; [|reflexivity].
  apply returnedObject_object in Hreturned
    as [(stmt & Hstmt & Hchild) (j & ps & ->)].
  cbn [fmap option_fmap option_map]. apply getExecuteFromObject_agree.
  apply (subnodes_down root stmt); [|assumption].
  by apply (subnodes_down root _ stmt Hblock).
Qed.

(** On the graph of a parsed tree [findExecuteMethod] returns the thunk
    that the first model locates. *)
Lemma findExecuteMethod_agree n :
  n ∈ Runtime.subnodes root →
  Runtime.findExecuteMethod (Runtime.graphOf root) (Runtime.reference n) =
    Runtime.Returns (Runtime.reference <$> findExecuteMethod n).
Proof.
  intros Hn. unfold Runtime.findExecuteMethod.
  rewrite (member_of n "type" Hn). run.
  assert (∀ b, b ∈ children n → b ∈ Runtime.subnodes root) as Hchild
    by (intros b; apply subnodes_down; assumption).
  destruct n as [i name'|i v|i o p c|i ps|i k v c|i a|i es|i ps b|i ps b
                |i c args|i c args|i t c a|i op a|i a|i b|i e|i a
                |i t c a|i d cs|i t cs|i t b|i a|i type cs];
    try reflexivity.
  - assert (b ∈ Runtime.subnodes root) as Hb.
    { apply Hchild. simpl. rewrite elem_of_app, list_elem_of_singleton. by right. }
    with_fields (fields_of _ Hn). rewrite !(fields_of _ Hb).
    destruct b as [j name'|j v|j o p c|j ps'|j k v c|j a|j es|j ps' b|j ps' b
                |j c args|j c args|j t c a|j op a|j a|j b|j e|j a
                |j t c a|j d cs|j t cs|j t b|j a|j type cs];
      try reflexivity.
    + apply (getExecuteFromObject_agree j ps' Hb).
    + apply (executeOfBlock_agree j b Hb).
    + simpl. by rewrite (other_type _ _ _ Hb "ObjectExpression"),
                        (other_type _ _ _ Hb "BlockStatement").
  - assert (b ∈ Runtime.subnodes root) as Hb.
    { apply Hchild. simpl. rewrite elem_of_app, list_elem_of_singleton. by right. }
    with_fields (fields_of _ Hn). rewrite !(fields_of _ Hb).
    destruct b as [j name'|j v|j o p c|j ps'|j k v c|j a|j es|j ps' b|j ps' b
                |j c args|j c args|j t c a|j op a|j a|j b|j e|j a
                |j t c a|j d cs|j t cs|j t b|j a|j type cs];
      try reflexivity.
    + apply (executeOfBlock_agree j b Hb).
    + simpl. by rewrite (other_type _ _ _ Hb "BlockStatement").
  - simpl. by rewrite (other_type _ _ _ Hn "ArrowFunctionExpression"),
                      (other_type _ _ _ Hn "FunctionExpression").
Qed.

Lemma isNode_reference n :
  n ∈ Runtime.subnodes root →
  Runtime.isNode (Runtime.graphOf root) (Runtime.reference n).
Proof. intros Hn. exists (identity n). split; [reflexivity|]. by rewrite graphOf_lookup. Qed.

Lemma isNodes_references l :
  Forall (λ n, n ∈ Runtime.subnodes root) l →
  Runtime.isNodes (Runtime.graphOf root) (Runtime.references l).
Proof.
  intros Hl. exists (Runtime.reference <$> l). split; [reflexivity|].
  apply Forall_fmap. eapply Forall_impl; [exact Hl|]. apply isNode_reference.
Qed.

(** The graph of a parsed tree has the fields that the types promise. *)
Lemma graphOf_syntaxGraph : Runtime.syntaxGraph (Runtime.graphOf root).
Proof.
  intros r o Hlookup. unfold Runtime.graphOf, Runtime.graph in Hlookup.
  apply elem_of_list_to_map_2, list_elem_of_fmap in Hlookup
    as (n & [= -> ->] & Hn).
  pose proof (subnodes_children n Hn) as Hchildren.
  destruct n as [i name'|i v|i o p c|i ps|i k v c|i a|i es|i ps b|i ps b
                |i c args|i c args|i t c a|i op a|i a|i b|i e|i a
                |i t c a|i d cs|i t cs|i t b|i a|i type cs];
    simpl in Hchildren;
    rewrite ?Forall_app, ?Forall_cons in Hchildren;
    unfold Runtime.wellTyped; simpl;
    rewrite ?(other_type _ _ _ Hn) by reflexivity; simpl;
    (split; [|split; [|split; [|split]]]);
    try (by intros []); try (by intros [[]|[]]); intros _;
    try (by eauto);
    try (apply isNode_reference; tauto);
    try (by apply isNodes_references);
    split; apply isNode_reference; tauto.
Qed.

End Parsed.

End ParsedTreeFacts.

(** *** The scanner is total and errs on the side of omission *)

Lemma stateIdAt_Some d s :
  stateIdAt d = Some s →
  s ≠ EmptyString ∧
  ∃ e, returnValue d = Some e ∧ extractStateIdFromExpression e = Some s.
Proof.
  unfold stateIdAt. destruct (returnValue d) as [e|]; [|discriminate].
  destruct (extractStateIdFromExpression e) as [stateId|] eqn:He;
    [|discriminate].
  case_decide as Hempty; [discriminate|]. intros [= <-].
  split; [assumption|]. by exists e.
Qed.

(** Every identifier of the set is the identifier at a return site that
    the walk reaches. *)
Lemma findReturnedStateIds_return_site funcNode s :
  s ∈ findReturnedStateIds funcNode →
  s ≠ EmptyString ∧
  ∃ d e, d ∈ walkedNodes funcNode ∧ returnValue d = Some e ∧
         extractStateIdFromExpression e = Some s.
Proof.
  unfold findReturnedStateIds. intros Hs.
  apply visit_stateIds_walked in Hs as [Hs | Hs];
    [by apply elem_of_nil in Hs|].
  apply list_elem_of_omap in Hs as (d & Hd & Hs).
  apply stateIdAt_Some in Hs as (Hne & e & He & Hs). by eauto 6.
Qed.

(** C8: the scanner is total and errs on the side of omission.

    At run time, on every graph of objects with the fields that the
    types of the syntax tree promise, with shared objects and even with
    cycles: [findReturnedStateIds] returns a set for every argument, so
    it throws no [TypeError], and a fuel above the number of objects is
    never used up, since [visit] goes into an object once;
    [findExecuteMethod] and [extractStateIdFromExpression] return for
    every argument that is an object or a primitive value; and [visit]
    returns at once from an object of the [WeakSet], whatever the fuel.

    On the graph of a parsed tree these results are those of the model
    on trees.

    On trees, an unrecognised shape only leaves something out: a factory
    that is no function has no thunk; a located thunk is a function below
    the factory; without a thunk nothing is reported; an expression gives
    an identifier only as the string literal of an [id] member of an
    object literal; every identifier of the set is the non-empty
    identifier of the return value of a node that the walk reaches, so a
    return value of another shape adds nothing; a visited node is left as
    it is, and a second visit of a node changes nothing. *)
Theorem C8_scanner_total_conservative :
  (∀ g, Runtime.syntaxGraph g →
     (∀ fuel funcNode, size g < fuel →
        ∃ ids, Runtime.findReturnedStateIds fuel g funcNode = Runtime.Returns ids) ∧
     (∀ factoryNode,
        factoryNode ≠ Runtime.Undefined → factoryNode ≠ Runtime.Null →
        ∃ r, Runtime.findExecuteMethod g factoryNode = Runtime.Returns r) ∧
     (∀ expression,
        expression ≠ Runtime.Undefined → expression ≠ Runtime.Null →
        ∃ r, Runtime.extractStateIdFromExpression g expression = Runtime.Returns r) ∧
     (∀ fuel reference w,
        reference ∈ visited w →
        Runtime.visit fuel g (Runtime.Object reference) w = Runtime.Returns w)) ∧
  (∀ root, Runtime.parsed root →
     Runtime.syntaxGraph (Runtime.graphOf root) ∧
     ∀ n, n ∈ Runtime.subnodes root →
       (∀ fuel, size (Runtime.graphOf root) < fuel →
          Runtime.findReturnedStateIds fuel (Runtime.graphOf root)
              (Runtime.reference n) =
            Runtime.Returns (findReturnedStateIds n)) ∧
       Runtime.findExecuteMethod (Runtime.graphOf root) (Runtime.reference n) =
         Runtime.Returns (Runtime.reference <$> findExecuteMethod n) ∧
       Runtime.extractStateIdFromExpression (Runtime.graphOf root)
           (Runtime.reference n) =
         Runtime.Returns (extractStateIdFromExpression n)) ∧
  (∀ factoryNode,
     isFunctionLike factoryNode = false → findExecuteMethod factoryNode = None) ∧
  (∀ factoryNode executeFunc,
     findExecuteMethod factoryNode = Some executeFunc →
     isFunctionLike executeFunc = true ∧ descendant factoryNode executeFunc) ∧
  (∀ factoryNode messageName targetStates,
     findExecuteMethod factoryNode = None →
     analyzeCommandFactory factoryNode messageName targetStates = []) ∧
  (∀ e s,
     extractStateIdFromExpression e = Some s →
     ∃ i properties k prop,
       e = ObjectExpression i properties ∧ prop ∈ properties ∧
       entry "id" (Literal k (LString s)) prop) ∧
  (∀ funcNode s,
     s ∈ findReturnedStateIds funcNode →
     s ≠ EmptyString ∧
     ∃ d e, d ∈ walkedNodes funcNode ∧ returnValue d = Some e ∧
            extractStateIdFromExpression e = Some s) ∧
  (∀ n w, identity n ∈ visited w → visit n w = w) ∧
  (∀ n w, visit n (visit n w) = visit n w).
Proof.
  split; [|split]; [| |repeat split].
  - intros g Htyped. repeat split.
    + intros fuel funcNode. by apply RuntimeFacts.findReturnedStateIds_returns.
    + intros factoryNode. by apply RuntimeFacts.findExecuteMethod_returns.
    + intros expression.
      by apply RuntimeFacts.extractStateIdFromExpression_returns.
    + intros fuel reference w Hvisited. destruct fuel; simpl; by case_decide.
  - intros root Hparsed. split; [by apply ParsedTreeFacts.graphOf_syntaxGraph|].
    intros n Hn. repeat split.
    + intros fuel. by apply ParsedTreeFacts.findReturnedStateIds_agree.
    + by apply ParsedTreeFacts.findExecuteMethod_agree.
    + by apply ParsedTreeFacts.extractStateIdFromExpression_agree.
  - intros factoryNode Hfun. by destruct factoryNode.
  - by eapply findExecuteMethod_Some.
  - by eapply findExecuteMethod_Some.
  - apply analyze_no_execute.
  - apply extractStateId_literal.
  - by eapply findReturnedStateIds_return_site.
  - by eapply findReturnedStateIds_return_site.
  - apply visit_visited.
  - apply visit_twice.
Qed.

(** The graph [loop] has the fields that the types promise. *)
Lemma loop_syntaxGraph : Runtime.syntaxGraph RuntimeSamples.loop.
Proof.
  intros r o Hlookup. unfold RuntimeSamples.loop, Runtime.graph in Hlookup.
  apply elem_of_list_to_map_2 in Hlookup.
  repeat (apply elem_of_cons in Hlookup as [[= -> ->] | Hlookup]);
    [..|by apply elem_of_nil in Hlookup];
    unfold Runtime.wellTyped; simpl;
    (split; [|split; [|split; [|split]]]);
    try (by intros []); try (by intros [[]|[]]); intros _;
    try (by eauto);
    repeat first
      [ split
      | eexists; split; [reflexivity|]
      | eexists; vm_compute; reflexivity
      | constructor ].
Qed.

(** The tree [wrappedThunk] is one that a parser makes, up to the
    statement that it holds twice. *)
Lemma wrappedThunk_parsed : Runtime.parsed RuntimeSamples.wrappedThunk.
Proof.
  split.
  - apply same_identity_Forall. cbn.
    repeat constructor; intros Hid; first [reflexivity | discriminate Hid].
  - intros i type cs Hother. cbn in Hother.
    repeat (apply elem_of_cons in Hother as [Hother | Hother];
            [discriminate Hother|]).
    by apply elem_of_nil in Hother.
Qed.

(** On the graph [loop], with its shared statement and its cycle, the
    walk returns; on the graph of [wrappedThunk] it returns what the walk
    on the tree computes, which leaves out the identifier inside the
    call; and the one identifier found in [() => ({ id: 'active' })] is
    the identifier of the return value of the thunk. *)
Lemma C8_witness :
  (∃ ids,
     Runtime.findReturnedStateIds 10 RuntimeSamples.loop (Runtime.Object 1) =
       Runtime.Returns ids) ∧
  Runtime.findReturnedStateIds 100
      (Runtime.graphOf RuntimeSamples.wrappedThunk)
      (Runtime.reference RuntimeSamples.wrappedThunk) =
    Runtime.Returns (findReturnedStateIds RuntimeSamples.wrappedThunk) ∧
  ("active" ≠ EmptyString ∧
   ∃ d e, d ∈ walkedNodes alwaysActive ∧ returnValue d = Some e ∧
          extractStateIdFromExpression e = Some "active").
Proof.
  split; [|split].
  - apply (proj1 (proj1 C8_scanner_total_conservative
                    RuntimeSamples.loop loop_syntaxGraph) 10 (Runtime.Object 1)).
    vm_compute. lia.
  - apply (proj1 (proj2 (proj1 (proj2 C8_scanner_total_conservative)
                           RuntimeSamples.wrappedThunk wrappedThunk_parsed)
                    RuntimeSamples.wrappedThunk
                    (ParsedTreeFacts.subnodes_self _)) 100).
    vm_compute. lia.
  - apply (proj1 (proj2 (proj2 (proj2 (proj2 (proj2 (proj2
             C8_scanner_total_conservative))))))
             alwaysActive "active").
    vm_compute. left.
Defined.

(** The set of [loop] is found with four nested calls, and not with
    two; the set of [wrappedThunk] holds the identifier of the shared
    statement alone; and without the [body] that the types promise, the
    scanner throws. *)
Example loop_returns :
  Runtime.findReturnedStateIds 4 RuntimeSamples.loop (Runtime.Object 1) =
    Runtime.Returns ["a"] ∧
  Runtime.findReturnedStateIds 2 RuntimeSamples.loop (Runtime.Object 1) =
    Runtime.OutOfFuel.
Proof. split; vm_compute; reflexivity. Qed.

Example wrappedThunk_returns :
  findReturnedStateIds RuntimeSamples.wrappedThunk = ["a"] ∧
  Runtime.findReturnedStateIds 100
      (Runtime.graphOf RuntimeSamples.wrappedThunk)
      (Runtime.reference RuntimeSamples.wrappedThunk) =
    Runtime.Returns ["a"].
Proof. split; vm_compute; reflexivity. Qed.

(** At run time too, the statements of a [case] are not walked: the
    [consequent] of a [SwitchCase] is an array, which [visit] leaves at
    once. *)
Example switchThunk_at_run_time :
  Runtime.findReturnedStateIds 100 (Runtime.graphOf switchThunk)
      (Runtime.reference switchThunk) =
    Runtime.Returns [] ∧
  Runtime.findReturnedStateIds 100 (Runtime.graphOf ifThunk)
      (Runtime.reference ifThunk) =
    Runtime.Returns ["a"; "b"].
Proof. split; vm_compute; reflexivity. Qed.

Example arrow_without_body_throws :
  Runtime.findReturnedStateIds 4
      {[ 1 := [("type", Runtime.Str "ArrowFunctionExpression")] ]}
      (Runtime.Object 1) =
    Runtime.Throws.
Proof. vm_compute. reflexivity. Qed.


(** ** The state machine *)

Module StateMachineFacts.

Import StateMachine.

Section Facts.

Context {Model StateData MessageData : Type}.
Variable props : Props Model StateData MessageData.

Implicit Types (this next : Instance Model StateData MessageData)
  (message : AnyMessage (MessageData := MessageData))
  (entry : HistoryEntry Model StateData MessageData).

Lemma instance_eta this :
  {| model := model this; history := history this; future := future this |} = this.
Proof. by destruct this. Qed.

Lemma getCurrentState_snoc this l entry :
  history this = l ++ [entry] → getCurrentState props this = entry_state entry.
Proof. intros Hhistory. unfold getCurrentState. by rewrite Hhistory, last_snoc. Qed.

(** X8: a message other than [undo] and [redo] that [getCommand] finds no
    factory for changes nothing: the model, the history and the future
    stay as they are.  No factory is found when the id of the current
    state is no property of [commands], neither a key nor a name
    inherited from [Object.prototype], or when the commands of the state
    are there and the id of the message is no property of them. *)
Theorem X8_unknown_message_is_ignored this message :
  ¬ (id message = "undo" ∨ id message = "redo") →
  ¬ hasProperty (id (getCurrentState props this)) (commands props) ∨
  (∃ stateCommands,
     commands props !! id (getCurrentState props this) = Some stateCommands ∧
     ¬ hasProperty (id message) stateCommands) →
  execute props this message = Some this.
Proof.
  intros Hother Hmissing. unfold execute, getCommand.
  rewrite decide_False by assumption. cbv zeta.
  destruct Hmissing as [Hstate | (stateCommands & Hstate & Hmessage)].
  - destruct (commands props !! id (getCurrentState props this)) eqn:Hlookup.
    + destruct Hstate. left. unfold CommandFactory in *. by rewrite Hlookup.
    + by rewrite instance_eta.
  - unfold CommandFactory in *. rewrite Hstate.
    destruct (stateCommands !! id message) eqn:Hlookup.
    + destruct Hmessage. left. by rewrite Hlookup.
    + by rewrite instance_eta.
Qed.

(** The instance after a command that the factory gives. *)
Lemma command_step this message command model' state model'' :
  ¬ (id message = "undo" ∨ id message = "redo") →
  getCommand props this message = (Some command, model') →
  Command_execute command model' = (state, model'') →
  ∃ next,
    execute props this message = Some next ∧
    getCurrentState props next = state ∧
    model next = model'' ∧
    history next = history this ++
      [{| entry_state := state; entry_message := message; entry_command := command |}] ∧
    future next = [].
Proof.
  intros Hother Hcommand Hrun. eexists. split.
  { unfold execute. rewrite decide_False by assumption.
    rewrite Hcommand, Hrun. reflexivity. }
  split; [|by repeat split].
  unfold getCurrentState. simpl. by rewrite last_snoc.
Qed.

(** X9: a message whose factory gives a command runs it on the model the
    factory leaves: the state the command returns becomes the current
    state, the entry is added to the history and the future is emptied,
    so that a [redo] sent next changes nothing (or fails on a state
    without config). *)
Theorem X9_command_is_recorded this message command model' state model'' :
  ¬ (id message = "undo" ∨ id message = "redo") →
  getCommand props this message = (Some command, model') →
  Command_execute command model' = (state, model'') →
  ∃ next,
    execute props this message = Some next ∧
    getCurrentState props next = state ∧
    model next = model'' ∧
    history next = history this ++
      [{| entry_state := state; entry_message := message; entry_command := command |}] ∧
    future next = [] ∧
    ∀ redoMessage,
      id redoMessage = "redo" →
      execute props next redoMessage = Some next ∨
      execute props next redoMessage = None.
Proof.
  intros Hother Hcommand Hrun.
  destruct (command_step this message command model' state model''
              Hother Hcommand Hrun) as (next & Hnext & Hstate & Hmodel & Hhistory & Hfuture).
  exists next. repeat split; try assumption.
  intros redoMessage Hredo. unfold execute.
  rewrite decide_True by (by right).
  destruct (canUndoRedo props next) as [[]|]; [|by left|by right].
  rewrite decide_False by (rewrite Hredo; discriminate).
  unfold redo. rewrite Hfuture. by left.
Qed.

(** X10: an [undo] sent after a recorded command, in a state whose
    config does not switch undo off, takes the entry back: the history
    and the current state are those of before, the entry waits in the
    future, and the model is what the [undo] of the command makes of it
    (the model is left alone when the command has no [undo]). *)
Theorem X10_undo_takes_the_command_back
    this message command model' state model'' stateConfig undoMessage :
  ¬ (id message = "undo" ∨ id message = "redo") →
  getCommand props this message = (Some command, model') →
  Command_execute command model' = (state, model'') →
  config props !! id state = Some stateConfig →
  disableUndoRedo stateConfig = false →
  id undoMessage = "undo" →
  ∃ next previous,
    execute props this message = Some next ∧
    execute props next undoMessage = Some previous ∧
    history previous = history this ∧
    getCurrentState props previous = getCurrentState props this ∧
    future previous =
      [{| entry_state := state; entry_message := message; entry_command := command |}] ∧
    model previous =
      match Command_undo command with
      | Some undoCommand => undoCommand model''
      | None => model''
      end.
Proof.
  intros Hother Hcommand Hrun Hconfig Henabled Hundo.
  destruct (command_step this message command model' state model''
              Hother Hcommand Hrun) as (next & Hnext & Hstate & Hmodel & Hhistory & Hfuture).
  exists next, (undo next). split; [exact Hnext|].
  assert (Hlast : last (history next) =
            Some {| entry_state := state; entry_message := message;
                    entry_command := command |})
    by (by rewrite Hhistory, last_snoc).
  split.
  { unfold execute. rewrite decide_True by (by left).
    unfold canUndoRedo. rewrite Hstate, Hconfig, Henabled. simpl.
    by rewrite decide_True by assumption. }
  unfold undo. rewrite Hlast. simpl.
  rewrite Hhistory, removelast_last, Hfuture, Hmodel.
  by repeat split.
Qed.

(** X11: an [undo] followed by a [redo], both allowed by the config
    (that of the state before for the undo, of the state the undo leads
    back to for the redo), restores the history, the future and the
    current state.  The state is the one recorded in the entry: the redo
    runs the [execute] of the command again for its effect on the model
    and drops the state it returns. *)
Theorem X11_undo_then_redo this entry undoMessage redoMessage :
  last (history this) = Some entry →
  canUndoRedo props this = Some true →
  canUndoRedo props (undo this) = Some true →
  id undoMessage = "undo" →
  id redoMessage = "redo" →
  ∃ undone redone,
    execute props this undoMessage = Some undone ∧
    execute props undone redoMessage = Some redone ∧
    history redone = history this ∧
    future redone = future this ∧
    getCurrentState props redone = getCurrentState props this ∧
    model redone = (Command_execute (entry_command entry) (model undone)).2.
Proof.
  intros Hlast Hbefore Hafter Hundo Hredo.
  exists (undo this), (redo (undo this)). split.
  { unfold execute. rewrite decide_True by (by left).
    by rewrite Hbefore, decide_True by assumption. }
  split.
  { unfold execute. rewrite decide_True by (by right).
    rewrite Hafter. by rewrite decide_False by (rewrite Hredo; discriminate). }
  apply last_Some in Hlast as [l Hhistory].
  unfold redo, undo. rewrite Hhistory, last_snoc. simpl.
  rewrite last_snoc, !removelast_last. simpl.
  repeat split. unfold getCurrentState. simpl. by rewrite Hhistory.
Qed.

(** X12: [undo] and [redo] never lose or reorder an entry: the history
    followed by the future read backwards stays the same list; an
    [undo] on an empty history and a [redo] on an empty future leave the
    instance as it is. *)
Theorem X12_undo_redo_keep_the_timeline this message next :
  id message = "undo" ∨ id message = "redo" →
  execute props this message = Some next →
  timeline next = timeline this ∧
  (id message = "undo" → history this = [] → next = this) ∧
  (id message = "redo" → future this = [] → next = this).
Proof.
  intros Hkind. unfold execute. rewrite decide_True by assumption.
  destruct (canUndoRedo props this) as [[]|]; [|by intros [= <-]|discriminate].
  case_decide as Hundo; intros [= <-].
  - unfold undo, timeline.
    destruct (last (history this)) as [entry|] eqn:Hlast.
    + apply last_Some in Hlast as [l Hhistory]. simpl.
      rewrite Hhistory, removelast_last, reverse_app, <- app_assoc.
      repeat split; [|rewrite Hundo; discriminate].
      intros _ Hempty. rewrite Hempty in Hhistory. by destruct l.
    + repeat split.
  - unfold redo, timeline.
    destruct (last (future this)) as [entry|] eqn:Hlast.
    + apply last_Some in Hlast as [l Hfuture]. simpl.
      rewrite Hfuture, removelast_last, reverse_app, <- app_assoc.
      repeat split; [done|].
      intros _ Hempty. rewrite Hempty in Hfuture. by destruct l.
    + repeat split.
Qed.

(** X13: [undo] and [redo] are the machine's own messages.  They fail
    with a [TypeError] when the id of the current state is no property of
    the config, neither a key nor a name inherited from
    [Object.prototype]; under an inherited name that is no key they are
    carried out; they change nothing in a state whose config sets
    [disableUndoRedo]; and they never reach the command factories: a
    command filed under [undo] or [redo] is never run. *)
Theorem X13_undo_redo_gate this message :
  id message = "undo" ∨ id message = "redo" →
  (¬ hasProperty (id (getCurrentState props this)) (config props) →
   execute props this message = None) ∧
  (config props !! id (getCurrentState props this) = None →
   id (getCurrentState props this) ∈ ObjectPrototype →
   execute props this message =
     Some (if decide (id message = "undo") then undo this else redo this)) ∧
  (∀ stateConfig,
     config props !! id (getCurrentState props this) = Some stateConfig →
     disableUndoRedo stateConfig = true →
     execute props this message = Some this) ∧
  (∀ otherCommands,
     execute
       {| config := config props; commands := otherCommands;
          initialState := initialState props |} this message =
     execute props this message).
Proof.
  intros Hkind. split; [|split; [|split]].
  - intros Hmissing. unfold execute, canUndoRedo.
    rewrite decide_True by assumption.
    destruct (config props !! id (getCurrentState props this)) eqn:Hlookup.
    + destruct Hmissing. left. by rewrite Hlookup.
    + rewrite decide_False; [reflexivity|]. intros Hinherited.
      apply Hmissing. by right.
  - intros Hmissing Hinherited. unfold execute, canUndoRedo.
    rewrite decide_True, Hmissing by assumption.
    rewrite (decide_True (P := _ ∈ ObjectPrototype)) by assumption.
    by case_decide.
  - intros stateConfig Hconfig Hdisabled. unfold execute, canUndoRedo.
    by rewrite decide_True, Hconfig, Hdisabled by assumption.
  - intros otherCommands. unfold execute.
    repeat case_decide; (reflexivity || tauto).
Qed.

End Facts.

Import CounterMachine.

Lemma other_message (name : string) (timestamp : nat) :
  name ≠ "undo" → name ≠ "redo" →
  ¬ (id (message name timestamp) = "undo" ∨ id (message name timestamp) = "redo").
Proof. intros Hundo Hredo [H | H]; simpl in H; congruence. Qed.

(** No name of the counter machine is a member of [Object.prototype]. *)
Lemma not_inherited (name : string) :
  bool_decide (name ∈ ObjectPrototype) = false → name ∉ ObjectPrototype.
Proof. intros Hname. by apply bool_decide_eq_false in Hname. Qed.

(** [increment] is not a message of the state [idle], and a state
    [paused] has no commands at all. *)
Lemma X8_witness :
  execute props (create 0) (message "increment" 0) = Some (create 0) ∧
  execute
    {| config := config props; commands := commands props;
       initialState := state "paused" 0 |}
    (create 0) (message "increment" 0) = Some (create 0).
Proof.
  split.
  - apply (X8_unknown_message_is_ignored props (create 0) (message "increment" 0)).
    + by apply other_message.
    + right. exists {[ "activate" := activate ]}. split; [reflexivity|].
      intros [[factory Hfactory] | Hinherited].
      * discriminate Hfactory.
      * revert Hinherited. by apply not_inherited.
  - apply (X8_unknown_message_is_ignored
             {| config := config props; commands := commands props;
                initialState := state "paused" 0 |}
             (create 0) (message "increment" 0)).
    + by apply other_message.
    + left. intros [[stateCommands HstateCommands] | Hinherited].
      * discriminate HstateCommands.
      * revert Hinherited. by apply not_inherited.
Defined.

(** [activate] at time 7 leads to the state [active]. *)
Lemma X9_witness :
  ∃ next,
    execute props (create 0) (message "activate" 7) = Some next ∧
    getCurrentState props next = state "active" 7 ∧
    model next = 0 ∧
    history next = [activated] ∧
    future next = [] ∧
    ∀ redoMessage,
      id redoMessage = "redo" →
      execute props next redoMessage = Some next ∨
      execute props next redoMessage = None.
Proof.
  apply (X9_command_is_recorded props (create 0) (message "activate" 7)
           (activateCommand 7) 0 (state "active" 7) 0).
  - by apply other_message.
  - reflexivity.
  - vm_compute. reflexivity.
Defined.

(** [increment] then [undo] puts the counter back to 0. *)
Lemma X10_witness :
  ∃ next previous,
    execute props (active 0) (message "increment" 0) = Some next ∧
    execute props next (message "undo" 0) = Some previous ∧
    history previous = [activated] ∧
    getCurrentState props previous = state "active" 7 ∧
    future previous = [incremented 0] ∧
    model previous = 0.
Proof.
  apply (X10_undo_takes_the_command_back props (active 0) (message "increment" 0)
           (incrementCommand 0 7) 0 (state "active" 7) 1
           {| on := {[ "increment" := ["active"]; "lock" := ["locked"] ]};
              disableUndoRedo := false |}
           (message "undo" 0)).
  - by apply other_message.
  - reflexivity.
  - reflexivity.
  - vm_compute. reflexivity.
  - reflexivity.
  - reflexivity.
Defined.

(** [undo] then [redo] after an [increment]: the history is back, and
    the counter is what the [execute] of the entry makes of it. *)
Lemma X11_witness :
  ∃ undone redone,
    execute props counted (message "undo" 0) = Some undone ∧
    execute props undone (message "redo" 0) = Some redone ∧
    history redone = [activated; incremented 0] ∧
    future redone = [] ∧
    getCurrentState props redone = state "active" 7 ∧
    model redone =
      (Command_execute (entry_command (incremented 0)) (model undone)).2.
Proof.
  apply (X11_undo_then_redo props counted (incremented 0)
           (message "undo" 0) (message "redo" 0)); reflexivity.
Defined.

(** [undo] moves the entry of the [increment] to the future. *)
Lemma X12_witness :
  timeline {| model := 0; history := [activated]; future := [incremented 0] |} =
    timeline counted.
Proof.
  apply (X12_undo_redo_keep_the_timeline props counted (message "undo" 0)).
  - by left.
  - vm_compute. reflexivity.
Defined.

(** In the state [locked], [undo] changes nothing; in a state [paused],
    which the config does not have, it fails; in a state [constructor],
    which the config does not have either, it is carried out, on an empty
    history. *)
Lemma X13_witness :
  execute props lockedUp (message "undo" 0) = Some lockedUp ∧
  execute
    {| config := config props; commands := commands props;
       initialState := state "paused" 0 |}
    (create 0) (message "undo" 0) = None ∧
  execute
    {| config := config props; commands := commands props;
       initialState := state "constructor" 0 |}
    (create 0) (message "undo" 0) = Some (create 0).
Proof.
  split; [|split].
  - apply (proj1 (proj2 (proj2 (X13_undo_redo_gate props lockedUp
                                  (message "undo" 0) (or_introl eq_refl))))
             {| on := ∅; disableUndoRedo := true |}).
    + vm_compute. reflexivity.
    + reflexivity.
  - apply (proj1 (X13_undo_redo_gate
                    {| config := config props; commands := commands props;
                       initialState := state "paused" 0 |}
                    (create 0) (message "undo" 0) (or_introl eq_refl))).
    intros [[stateConfig HstateConfig] | Hinherited].
    + discriminate HstateConfig.
    + revert Hinherited. by apply not_inherited.
  - apply (proj1 (proj2 (X13_undo_redo_gate
                    {| config := config props; commands := commands props;
                       initialState := state "constructor" 0 |}
                    (create 0) (message "undo" 0) (or_introl eq_refl)))).
    + reflexivity.
    + apply (bool_decide_unpack _). vm_compute. exact I.
Defined.

End StateMachineFacts.

Module UndoRedoFacts.

Import StateMachine.

Section Facts.

Context {Model StateData MessageData : Type}.
Variable props : Props Model StateData MessageData.
Variables undoMessage redoMessage : AnyMessage (MessageData := MessageData).
Hypothesis undo_id : id undoMessage = "undo".
Hypothesis redo_id : id redoMessage = "redo".

Implicit Types (this next : Instance Model StateData MessageData)
  (entry : HistoryEntry Model StateData MessageData).

Lemma executeAll_app this messages1 messages2 :
  executeAll props this (messages1 ++ messages2) =
    executeAll props this messages1 ≫= λ next, executeAll props next messages2.
Proof.
  revert this. induction messages1 as [|message messages1 IH]; intros this;
    [reflexivity|].
  simpl. destruct (execute props this message); [apply IH | reflexivity].
Qed.

(** The current state is the initial state or the state of an entry. *)
Lemma getCurrentState_allowed this :
  undoRedoIn props (initialState props) = Some true →
  (∀ entry, entry ∈ history this → undoRedoIn props (entry_state entry) = Some true) →
  canUndoRedo props this = Some true.
Proof.
  intros Hinitial Hentries.
  change (undoRedoIn props (getCurrentState props this) = Some true).
  unfold getCurrentState. destruct (last (history this)) as [entry|] eqn:Hlast;
    [|assumption].
  apply Hentries. apply last_Some in Hlast as [l ->].
  apply elem_of_app. right. left.
Qed.

Lemma undo_step this l entry :
  canUndoRedo props this = Some true →
  history this = l ++ [entry] →
  execute props this undoMessage =
    Some {| model := match Command_undo (entry_command entry) with
                     | Some undoCommand => undoCommand (model this)
                     | None => model this
                     end;
            history := l; future := future this ++ [entry] |}.
Proof.
  intros Hallowed Hhistory. unfold execute.
  rewrite decide_True by (by left). rewrite Hallowed.
  rewrite decide_True by assumption. unfold undo.
  by rewrite Hhistory, last_snoc, removelast_last.
Qed.

Lemma redo_step this l entry :
  canUndoRedo props this = Some true →
  future this = l ++ [entry] →
  execute props this redoMessage =
    Some {| model := (Command_execute (entry_command entry) (model this)).2;
            history := history this ++ [entry]; future := l |}.
Proof.
  intros Hallowed Hfuture. unfold execute.
  rewrite decide_True by (by right). rewrite Hallowed.
  rewrite decide_False by (rewrite redo_id; discriminate). unfold redo.
  by rewrite Hfuture, last_snoc, removelast_last.
Qed.

Hypothesis initial_allowed : undoRedoIn props (initialState props) = Some true.

(** [k] undos move the last [k] entries of the history to the future. *)
Lemma undo_many k : ∀ this kept undone,
  history this = kept ++ undone → length undone = k →
  (∀ entry, entry ∈ history this → undoRedoIn props (entry_state entry) = Some true) →
  ∃ next,
    executeAll props this (replicate k undoMessage) = Some next ∧
    history next = kept ∧ future next = future this ++ reverse undone.
Proof.
  induction k as [|k IH]; intros this kept undone Hhistory Hlength Hallowed.
  - destruct undone; [|discriminate]. exists this.
    rewrite !app_nil_r in *. by repeat split.
  - destruct undone as [|entry undone _] using rev_ind;
      [discriminate|].
    rewrite length_app in Hlength. simpl in Hlength.
    rewrite app_assoc in Hhistory. simpl.
    rewrite (undo_step this (kept ++ undone) entry);
      [|by apply getCurrentState_allowed|assumption].
    destruct (IH {| model := match Command_undo (entry_command entry) with
                             | Some undoCommand => undoCommand (model this)
                             | None => model this
                             end;
                    history := kept ++ undone;
                    future := future this ++ [entry] |} kept undone)
      as (next & Hnext & Hkept & Hfuture); [reflexivity | lia | |].
    + simpl. intros e He. apply Hallowed. rewrite Hhistory.
      apply elem_of_app. by left.
    + exists next. split; [assumption|]. split; [assumption|].
      rewrite Hfuture. simpl. by rewrite reverse_app, <- app_assoc.
Qed.

(** [k] redos move the last [k] entries of the future back. *)
Lemma redo_many k : ∀ this kept redone,
  future this = kept ++ redone → length redone = k →
  (∀ entry, entry ∈ history this ++ redone →
            undoRedoIn props (entry_state entry) = Some true) →
  ∃ next,
    executeAll props this (replicate k redoMessage) = Some next ∧
    future next = kept ∧ history next = history this ++ reverse redone.
Proof.
  induction k as [|k IH]; intros this kept redone Hfuture Hlength Hallowed.
  - destruct redone; [|discriminate]. exists this.
    rewrite !app_nil_r in *. by repeat split.
  - destruct redone as [|entry redone _] using rev_ind;
      [discriminate|].
    rewrite length_app in Hlength. simpl in Hlength.
    rewrite app_assoc in Hfuture. simpl.
    rewrite (redo_step this (kept ++ redone) entry); [| |assumption].
    2:{ apply getCurrentState_allowed; [assumption|].
        intros e He. apply Hallowed, elem_of_app. by left. }
    destruct (IH {| model := (Command_execute (entry_command entry) (model this)).2;
                    history := history this ++ [entry];
                    future := kept ++ redone |} kept redone)
      as (next & Hnext & Hkept & Hhistory); [reflexivity | lia | |].
    + simpl. intros e He. apply Hallowed.
      rewrite !elem_of_app in He |- *. tauto.
    + exists next. split; [assumption|]. split; [assumption|].
      rewrite Hhistory. simpl. by rewrite reverse_app, <- app_assoc.
Qed.

(** X14: where the config allows undo and redo in the initial state and
    in the state of every entry of the history, [k] undos followed by
    [k] redos, for [k] up to the length of the history, succeed and
    restore the history, the future and the current state. *)
Theorem X14_undos_then_redos this k :
  k ≤ length (history this) →
  (∀ entry, entry ∈ history this → undoRedoIn props (entry_state entry) = Some true) →
  ∃ next,
    executeAll props this (replicate k undoMessage ++ replicate k redoMessage) =
      Some next ∧
    history next = history this ∧
    future next = future this ∧
    getCurrentState props next = getCurrentState props this.
Proof.
  intros Hk Hallowed.
  destruct (undo_many k this (take (length (history this) - k) (history this))
              (drop (length (history this) - k) (history this)))
    as (undone & Hundone & Hkept & Hfuture).
  - by rewrite take_drop.
  - rewrite length_drop. lia.
  - assumption.
  - destruct (redo_many k undone (future this)
                (reverse (drop (length (history this) - k) (history this))))
      as (next & Hnext & Hfuture' & Hhistory).
    + assumption.
    + rewrite length_reverse, length_drop. lia.
    + intros e. rewrite Hkept, elem_of_app, elem_of_reverse.
      intros He. apply Hallowed.
      rewrite <- (take_drop (length (history this) - k) (history this)).
      by apply elem_of_app.
    + exists next. rewrite executeAll_app, Hundone. simpl.
      split; [assumption|].
      assert (Hsame : history next = history this).
      { by rewrite Hhistory, Hkept, reverse_involutive, take_drop. }
      split; [assumption|]. split; [by rewrite Hfuture'|].
      unfold getCurrentState. by rewrite Hsame.
Qed.

End Facts.

Import CounterMachine.

(** Two undos and two redos after [activate] and [increment]. *)
Lemma X14_witness :
  ∃ next,
    executeAll props counted
      (replicate 2 (message "undo" 0) ++ replicate 2 (message "redo" 0)) =
      Some next ∧
    history next = history counted ∧
    future next = future counted ∧
    getCurrentState props next = getCurrentState props counted.
Proof.
  apply (X14_undos_then_redos props (message "undo" 0) (message "redo" 0)
           eq_refl eq_refl).
  - vm_compute. reflexivity.
  - simpl. lia.
  - intros entry Hentry.
    apply elem_of_cons in Hentry as [-> | Hentry]; [vm_compute; reflexivity|].
    apply list_elem_of_singleton in Hentry as ->. vm_compute. reflexivity.
Defined.

End UndoRedoFacts.

Module DeclaredTargetsFacts.

Import StateMachine.

(** X15: the class reads the config for [disableUndoRedo] only.  Two
    machines with the same commands and initial state whose configs
    agree on [disableUndoRedo] state by state answer every message in
    the same way: what [on] declares, and whether the state a command
    returns is among the declared targets, is never checked when the
    machine runs. *)
Theorem X15_declared_targets_are_not_checked
    {Model StateData MessageData : Type}
    (props1 props2 : Props Model StateData MessageData)
    (this : Instance Model StateData MessageData)
    (message : AnyMessage (MessageData := MessageData)) :
  commands props1 = commands props2 →
  initialState props1 = initialState props2 →
  (∀ name, disableUndoRedo <$> config props1 !! name =
           disableUndoRedo <$> config props2 !! name) →
  execute props1 this message = execute props2 this message.
Proof.
  intros Hcommands Hinitial Hconfig.
  assert (Hstate : getCurrentState props1 this = getCurrentState props2 this)
    by (unfold getCurrentState; by rewrite Hinitial).
  unfold execute, canUndoRedo, getCommand. rewrite Hstate, Hcommands.
  specialize (Hconfig (id (getCurrentState props2 this))).
  destruct (config props1 !! id (getCurrentState props2 this)),
           (config props2 !! id (getCurrentState props2 this));
    simpl in Hconfig; try discriminate; [|reflexivity].
  injection Hconfig as ->. reflexivity.
Qed.

Import CounterMachine.

(** [activate] is answered in the same way with nothing declared. *)
Lemma X15_witness :
  execute props (create 0) (message "activate" 7) =
    execute undeclared (create 0) (message "activate" 7).
Proof.
  apply (X15_declared_targets_are_not_checked props undeclared).
  - reflexivity.
  - reflexivity.
  - intros name. unfold props, undeclared. simpl.
    destruct (decide (name = "idle")) as [->|Hidle]; [reflexivity|].
    destruct (decide (name = "active")) as [->|Hactive]; [reflexivity|].
    destruct (decide (name = "locked")) as [->|Hlocked]; [reflexivity|].
    by rewrite !lookup_insert_ne, !lookup_singleton_ne by done.
Defined.

End DeclaredTargetsFacts.
